(** * cap-worker: the proof-of-work protocol engine of [src/cap/index.ts]

    A shallow embedding of the [Cap] class (challenge creation, redemption,
    token validation, cleanup), of the helpers it is built from ([prng],
    [randomHex], [sha256Hex]) and of the storage hooks it is configured
    with, followed by the properties of the engine.

    Conventions of the embedding:
    - a JavaScript string is the list of its UTF-16 code units, each a [Z];
    - a number that the code computes with (a count, a time, a 32-bit
      state) is the integer it holds, a [Z]: the 32-bit conversions that
      the bit operators apply ([ToInt32], [ToUint32]) are written out, and
      a sum is the sum of the code as long as it is a safe integer
      ([safeInteger], at most 2^53 in magnitude), which the statements
      about a sum with an offset chosen by the caller assume;
    - a number that arrives in a request is any double, fractions, NaN and
      infinities included: the code prints it and tests it for truth, and
      it is kept as what these two give ([number]);
    - an [async] method is a function from the world to an outcome: either
      a returned value or a thrown error (a rejected promise), each with
      the world it leaves behind.  Methods run one at a time, and the
      clock stands still while one runs;
    - the world holds what the platform and the storage backend hold: the
      two stores, the clock of [Date.now()], the bytes of
      [crypto.getRandomValues], a record of the hook calls. *)

From Stdlib Require Import ZArith List Ascii String Lia Bool.
From stdpp Require Import gmap list.

Local Open Scope Z_scope.

(** ** JavaScript values and string primitives *)

Module JS.

(** A string: its UTF-16 code units. *)
Abbreviation jsstring := (list Z).

(** Every unit of a real string is a 16-bit value. *)
Definition is_string (s : jsstring) : Prop :=
  Forall (fun c => 0 <= c < 65536) s.

(** A string literal of the source (ASCII only). *)
Definition lit (s : string) : jsstring :=
  List.map (fun a => Z.of_nat (nat_of_ascii a)) (list_ascii_of_string s).

(** [ToInt32] and [ToUint32] on an integer-valued number. *)
Definition toInt32 (x : Z) : Z :=
  let m := x mod 2 ^ 32 in
  if m <? 2 ^ 31 then m else m - 2 ^ 32.

Definition toUint32 (x : Z) : Z := x mod 2 ^ 32.

(** [x << k], [x >>> k] and [x ^ y]. *)
Definition shl (x k : Z) : Z := toInt32 (Z.shiftl (toInt32 x) (k mod 32)).
Definition ushr (x k : Z) : Z := Z.shiftr (toUint32 x) (k mod 32).
Definition xor (x y : Z) : Z := Z.lxor (toInt32 x) (toInt32 y).

(** The character of a digit value below 36: [0-9] then [a-z]. *)
Definition digitChar (d : Z) : Z := if d <? 10 then 48 + d else 87 + d.

(** The digits of a non-negative integer in a radix, most significant
    first.  The recursion divides by the radix; [fuel] bounds its depth. *)
Fixpoint digitsOf (fuel : nat) (radix n : Z) : jsstring :=
  match fuel with
  | O => []
  | S f =>
      if n <? radix then [digitChar n]
      else digitsOf f radix (n / radix) ++ [digitChar (n mod radix)]
  end.

(** [n.toString(radix)] on an integer: a number below [2 ^ k] has at most
    [k] digits in any radix from 2 up. *)
Definition toStringRadix (radix n : Z) : jsstring :=
  if n <? 0
  then 45 :: digitsOf (S (Z.to_nat (Z.log2 (- n)))) radix (- n)
  else digitsOf (S (Z.to_nat (Z.log2 n))) radix n.

(** [String(n)] of a safe integer, as string concatenation and template
    literals apply it to a counter. *)
Definition toString (n : Z) : jsstring := toStringRadix 10 n.

(** [s.padStart(target, pad)]. *)
Definition padStart (target : nat) (pad s : jsstring) : jsstring :=
  let missing := (target - length s)%nat in
  firstn missing (List.concat (repeat pad missing)) ++ s.

(** [s.substring(start, end)]: both bounds are clamped to the string and
    swapped when out of order. *)
Definition substring (s : jsstring) (start finish : Z) : jsstring :=
  let len := Z.of_nat (length s) in
  let a := Z.min (Z.max start 0) len in
  let b := Z.min (Z.max finish 0) len in
  let from := Z.min a b in
  let to := Z.max a b in
  firstn (Z.to_nat (to - from)) (skipn (Z.to_nat from) s).

(** [s.startsWith(t)]. *)
Fixpoint startsWith (s t : jsstring) : bool :=
  match t, s with
  | [], _ => true
  | _ :: _, [] => false
  | b :: t', a :: s' => (a =? b) && startsWith s' t'
  end.

(** [s.split(sep)] for a separator of one code unit. *)
Fixpoint split (sep : Z) (s : jsstring) : list jsstring :=
  match s with
  | [] => [[]]
  | c :: r =>
      if c =? sep then [] :: split sep r
      else match split sep r with
           | p :: ps => (c :: p) :: ps
           | [] => [[c]]
           end
  end.

(** [new TextEncoder().encode(s)]: the UTF-8 bytes of a string.  A
    surrogate pair is one code point; a lone surrogate is replaced by
    U+FFFD. *)
Definition utf8_of_codepoint (cp : Z) : list Z :=
  if cp <? 128 then [cp]
  else if cp <? 2048 then
    [Z.lor 192 (Z.shiftr cp 6); Z.lor 128 (Z.land cp 63)]
  else if cp <? 65536 then
    [Z.lor 224 (Z.shiftr cp 12);
     Z.lor 128 (Z.land (Z.shiftr cp 6) 63);
     Z.lor 128 (Z.land cp 63)]
  else
    [Z.lor 240 (Z.shiftr cp 18);
     Z.lor 128 (Z.land (Z.shiftr cp 12) 63);
     Z.lor 128 (Z.land (Z.shiftr cp 6) 63);
     Z.lor 128 (Z.land cp 63)].

Definition isHighSurrogate (c : Z) : bool := (55296 <=? c) && (c <? 56320).
Definition isLowSurrogate (c : Z) : bool := (56320 <=? c) && (c <? 57344).

Fixpoint utf8_encode (s : jsstring) : list Z :=
  match s with
  | [] => []
  | c :: r =>
      if isHighSurrogate c then
        match r with
        | d :: r' =>
            if isLowSurrogate d
            then utf8_of_codepoint
                   (65536 + Z.shiftl (c - 55296) 10 + (d - 56320))
                 ++ utf8_encode r'
            else utf8_of_codepoint 65533 ++ utf8_encode r
        | [] => utf8_of_codepoint 65533
        end
      else if isLowSurrogate c then utf8_of_codepoint 65533 ++ utf8_encode r
      else utf8_of_codepoint c ++ utf8_encode r
  end.

(** [parts.join(sep)]. *)
Fixpoint join (sep : jsstring) (parts : list jsstring) : jsstring :=
  match parts with
  | [] => []
  | [p] => p
  | p :: rest => p ++ sep ++ join sep rest
  end.

(** [bytes.map(b => b.toString(16).padStart(2, "0")).join("")]. *)
Definition hexOfBytes (bytes : list Z) : jsstring :=
  join [] (List.map (fun b => padStart 2 (lit "0") (toStringRadix 16 b)) bytes).

(** The integers that a double holds exactly and on which the arithmetic
    of doubles is that of [Z]: [Number.MIN_SAFE_INTEGER - 1] to
    [Number.MAX_SAFE_INTEGER + 1]. *)
Definition safeInteger (x : Z) : Prop := - 2 ^ 53 <= x <= 2 ^ 53.

(** A number inside a value: a double.  The engine never computes with
    one; it prints it ([String(x)], which is Number::toString of the
    platform: [1e21] prints as [1e+21], [0.5] as [0.5], [NaN] as [NaN])
    and tests it for truth ([!x] holds of zero and of NaN).  A number is
    kept as these two observations. *)
Record number : Type := { printed : jsstring; falsy : bool }.

(** The number of a safe integer: Number::toString prints it in full, in
    decimal. *)
Definition int (n : Z) : number :=
  {| printed := toString n; falsy := n =? 0 |}.

(** A value as a request body can carry it. *)
#[warnings="-register-all"]
Inductive value : Type :=
| VUndefined
| VNull
| VBool (b : bool)
| VNumber (x : number)
| VString (s : jsstring)
| VArray (items : list value).

(** [!v] is [negb (truthy v)]. *)
Definition truthy (v : value) : bool :=
  match v with
  | VUndefined | VNull => false
  | VBool b => b
  | VNumber x => negb (falsy x)
  | VString s => negb (Nat.eqb (length s) 0)
  | VArray _ => true
  end.

End JS.

(** ** The platform digest

    [crypto.subtle.digest("SHA-256", data)] is a primitive of the runtime;
    it is written here as FIPS 180-4 defines it, on a list of bytes. *)

Module SHA256.

Definition add32 (a b : Z) : Z := (a + b) mod 2 ^ 32.

Definition rotr (n x : Z) : Z :=
  Z.lor (Z.shiftr x n) (Z.shiftl x (32 - n) mod 2 ^ 32).

Definition Ch (x y z : Z) : Z :=
  Z.lxor (Z.land x y) (Z.land (Z.lxor x (2 ^ 32 - 1)) z).
Definition Maj (x y z : Z) : Z :=
  Z.lxor (Z.lxor (Z.land x y) (Z.land x z)) (Z.land y z).
Definition Sigma0 (x : Z) : Z :=
  Z.lxor (Z.lxor (rotr 2 x) (rotr 13 x)) (rotr 22 x).
Definition Sigma1 (x : Z) : Z :=
  Z.lxor (Z.lxor (rotr 6 x) (rotr 11 x)) (rotr 25 x).
Definition sigma0 (x : Z) : Z :=
  Z.lxor (Z.lxor (rotr 7 x) (rotr 18 x)) (Z.shiftr x 3).
Definition sigma1 (x : Z) : Z :=
  Z.lxor (Z.lxor (rotr 17 x) (rotr 19 x)) (Z.shiftr x 10).

(** The round constants are the first 32 bits of the fractional parts of
    the cube roots of the first 64 primes, the initial words those of the
    square roots of the first 8. *)
Definition primes : list Z :=
  [2; 3; 5; 7; 11; 13; 17; 19; 23; 29; 31; 37; 41; 43; 47; 53; 59; 61; 67;
   71; 73; 79; 83; 89; 97; 101; 103; 107; 109; 113; 127; 131; 137; 139; 149;
   151; 157; 163; 167; 173; 179; 181; 191; 193; 197; 199; 211; 223; 227;
   229; 233; 239; 241; 251; 257; 263; 269; 271; 277; 281; 283; 293; 307;
   311].

(** The integer cube root below [2 ^ bits], found bit by bit. *)
Fixpoint cbrt (bits : nat) (n root : Z) : Z :=
  match bits with
  | O => root
  | S k =>
      let next := root + 2 ^ Z.of_nat k in
      cbrt k n (if next * next * next <=? n then next else root)
  end.

Definition K : list Z :=
  Eval vm_compute in
    List.map (fun p => cbrt 36 (p * 2 ^ 96) 0 mod 2 ^ 32) primes.

(** The eight working words. *)
Record regs : Type :=
  Regs { ra : Z; rb : Z; rc : Z; rd : Z; re : Z; rf : Z; rg : Z; rh : Z }.

Definition frac_sqrt (p : Z) : Z := Z.sqrt (p * 2 ^ 64) mod 2 ^ 32.

Definition H0 : regs :=
  Eval vm_compute in
    Regs (frac_sqrt 2) (frac_sqrt 3) (frac_sqrt 5) (frac_sqrt 7)
         (frac_sqrt 11) (frac_sqrt 13) (frac_sqrt 17) (frac_sqrt 19).

(** Big-endian bytes of a word, and back. *)
Definition be32 (x : Z) : list Z :=
  [Z.shiftr x 24 mod 256; Z.shiftr x 16 mod 256;
   Z.shiftr x 8 mod 256; x mod 256].

Definition word_of (bytes : list Z) : Z :=
  fold_left (fun acc b => acc * 256 + b) bytes 0.

Fixpoint words (n : nat) (bytes : list Z) : list Z :=
  match n with
  | O => []
  | S k => word_of (firstn 4 bytes) :: words k (skipn 4 bytes)
  end.

(** Padding: a one bit, zeros up to 56 modulo 64, the bit length on 8
    bytes. *)
Definition pad (msg : list Z) : list Z :=
  let len := Z.of_nat (length msg) in
  let zeros := Z.to_nat ((55 - len) mod 64) in
  let bits := 8 * len in
  msg ++ [128] ++ repeat 0 zeros
      ++ be32 (Z.shiftr bits 32 mod 2 ^ 32) ++ be32 (bits mod 2 ^ 32).

(** The message schedule beyond the first 16 words; [w] holds the last 16
    words, oldest first. *)
Fixpoint extend (n : nat) (w : list Z) : list Z :=
  match n with
  | O => []
  | S k =>
      let x := add32 (add32 (sigma1 (nth 14 w 0)) (nth 9 w 0))
                     (add32 (sigma0 (nth 1 w 0)) (nth 0 w 0)) in
      x :: extend k (tl w ++ [x])
  end.

Definition round (r : regs) (kw : Z * Z) : regs :=
  let t1 := add32 (add32 (add32 (rh r) (Sigma1 (re r)))
                         (add32 (Ch (re r) (rf r) (rg r)) (fst kw)))
                  (snd kw) in
  let t2 := add32 (Sigma0 (ra r)) (Maj (ra r) (rb r) (rc r)) in
  Regs (add32 t1 t2) (ra r) (rb r) (rc r) (add32 (rd r) t1)
       (re r) (rf r) (rg r).

Definition compress (h : regs) (block : list Z) : regs :=
  let w16 := words 16 block in
  let r := fold_left round (combine K (w16 ++ extend 48 w16)) h in
  Regs (add32 (ra h) (ra r)) (add32 (rb h) (rb r))
       (add32 (rc h) (rc r)) (add32 (rd h) (rd r))
       (add32 (re h) (re r)) (add32 (rf h) (rf r))
       (add32 (rg h) (rg r)) (add32 (rh h) (rh r)).

Fixpoint blocks (n : nat) (bytes : list Z) : list (list Z) :=
  match n with
  | O => []
  | S k => firstn 64 bytes :: blocks k (skipn 64 bytes)
  end.

Definition digest (msg : list Z) : list Z :=
  let padded := pad msg in
  let h := fold_left compress
                     (blocks (Nat.div (length padded) 64) padded) H0 in
  be32 (ra h) ++ be32 (rb h) ++ be32 (rc h) ++ be32 (rd h)
    ++ be32 (re h) ++ be32 (rf h) ++ be32 (rg h) ++ be32 (rh h).

End SHA256.

(** ** The engine: [src/cap/index.ts] *)

Module Cap.
Import JS.

(** *** Data *)

(** [{ c, s, d }]: puzzle count, salt length, target length. *)
Record ChallengeParams : Type := { c : Z; s : Z; d : Z }.

Record ChallengeData : Type :=
  { challenge : ChallengeParams; expires : Z }.

(** Optional fields are [option]s: [None] is an absent field. *)
Record ChallengeConfig : Type :=
  { challengeCount : option Z;
    challengeSize : option Z;
    challengeDifficulty : option Z;
    expiresMs : option Z;
    store : option bool }.

Record TokenConfig : Type := { keepToken : option bool }.

(** The body of a redemption.  The token is a string; [solutions] is
    declared [number[]] but checked at run time, so it is a [value]. *)
Record Solution : Type := { token : jsstring; solutions : value }.

(** [[salt, target]]. *)
Definition ChallengeTuple : Type := (jsstring * jsstring)%type.

(** What [createChallenge] resolves to. *)
Record ChallengeResponse : Type :=
  { cr_challenge : ChallengeParams;
    cr_token : option jsstring;
    cr_expires : Z }.

(** What [redeemChallenge] resolves to. *)
Record RedeemResponse : Type :=
  { success : bool;
    message : option jsstring;
    rr_token : option jsstring;
    rr_expires : option Z }.

(** *** The world an operation runs in *)

(** One call of a storage hook, as the in-memory backend records it. *)
Inductive Access : Type :=
| ChallengeStore (tok : jsstring)
| ChallengeRead (tok : jsstring)
| ChallengeDelete (tok : jsstring)
| ChallengeListExpired
| TokenStore (key : jsstring)
| TokenGet (key : jsstring)
| TokenDelete (key : jsstring)
| TokenListExpired.

(** The two maps of [ChallengeState], the clock behind [Date.now()], the
    bytes [crypto.getRandomValues] will hand out and how many it has
    handed out, the hook calls made so far and the warnings printed. *)
Record World : Type :=
  { challengesList : gmap jsstring ChallengeData;
    tokensList : gmap jsstring Z;
    clock : Z;
    entropy : nat -> Z;
    drawn : nat;
    accesses : list Access;
    warnings : list jsstring }.

(** The outcome of an [async] call: a resolved value or a rejection. *)
Inductive Outcome (A : Type) : Type :=
| Returned (a : A) (w : World)
| Thrown (e : jsstring) (w : World).
Arguments Returned {A} a w.
Arguments Thrown {A} e w.

Definition M (A : Type) : Type := World -> Outcome A.

Definition ret {A : Type} (a : A) : M A := fun w => Returned a w.

Definition bind {A B : Type} (m : M A) (k : A -> M B) : M B :=
  fun w =>
    match m w with
    | Returned a w' => k a w'
    | Thrown e w' => Thrown e w'
    end.

Notation "'await!' x ':=' m 'in' k" := (bind m (fun x => k))
  (at level 10, x name, m at level 100, k at level 200).
Notation "'do!' m 'in' k" := (bind m (fun _ => k))
  (at level 10, m at level 100, k at level 200).

(** [await Promise.all(ms)]: every call is started, in order, whether or
    not an earlier one fails; the first failure is the rejection. *)
Fixpoint promiseAll (ms : list (M unit)) : M unit :=
  fun w =>
    match ms with
    | [] => Returned tt w
    | m :: rest =>
        match m w with
        | Returned _ w1 => promiseAll rest w1
        | Thrown e w1 =>
            match promiseAll rest w1 with
            | Returned _ w2 => Thrown e w2
            | Thrown _ w2 => Thrown e w2
            end
        end
    end.

(** [Date.now()]. *)
Definition dateNow : M Z := fun w => Returned (clock w) w.

(** [crypto.getRandomValues(new Uint8Array(n))]: the next [n] bytes of
    the source of randomness. *)
Definition randomBytes (w : World) (n : nat) : list Z :=
  List.map (fun i => entropy w (drawn w + i)%nat mod 256) (seq 0 n).

Definition advance (n : nat) (w : World) : World :=
  {| challengesList := challengesList w;
     tokensList := tokensList w;
     clock := clock w;
     entropy := entropy w;
     drawn := (drawn w + n)%nat;
     accesses := accesses w;
     warnings := warnings w |}.

Definition getRandomValues (n : nat) : M (list Z) :=
  fun w => Returned (randomBytes w n) (advance n w).

(** [console.warn(msg)]. *)
Definition consoleWarn (msg : jsstring) : M unit :=
  fun w =>
    Returned tt
      {| challengesList := challengesList w;
         tokensList := tokensList w;
         clock := clock w;
         entropy := entropy w;
         drawn := drawn w;
         accesses := accesses w;
         warnings := warnings w ++ [msg] |}.

(** *** Storage hooks *)

Module ChallengeStorage.
Record t : Type :=
  { store : jsstring -> ChallengeData -> M unit;
    read : jsstring -> M (option ChallengeData);
    delete : jsstring -> M unit;
    listExpired : M (list jsstring) }.
End ChallengeStorage.

Module TokenStorage.
Record t : Type :=
  { store : jsstring -> Z -> M unit;
    get : jsstring -> M (option Z);
    delete : jsstring -> M unit;
    listExpired : M (list jsstring) }.
End TokenStorage.

(** [StorageHooks]: either store may be left out. *)
Record StorageHooks : Type :=
  { challenges : option ChallengeStorage.t;
    tokens : option TokenStorage.t }.

Record CapConfig : Type := { storage : StorageHooks }.

(** *** Helpers *)

(** [fnv1a], the inner function of [prng]: the body of its loop, then the
    loop over the code units [str.charCodeAt(i)]. *)
Definition fnv_round (hash ch : Z) : Z :=
  let hash := xor hash ch in
  hash + (shl hash 1 + shl hash 4 + shl hash 7 + shl hash 8 + shl hash 24).

Definition fnv1a (str : jsstring) : Z :=
  let hash := fold_left fnv_round str 2166136261 in
  ushr hash 0.

(** [next]: the value returned and the state left in the closure. *)
Definition next (state : Z) : Z * Z :=
  let state := xor state (shl state 13) in
  let state := xor state (ushr state 17) in
  let state := xor state (shl state 5) in
  (ushr state 0, state).

(** The [while] loop of [prng]; [None] when [fuel] iterations were not
    enough to leave it. *)
Fixpoint prng_loop (fuel : nat) (len state : Z) (result : jsstring)
  : option jsstring :=
  if Z.of_nat (length result) <? len then
    match fuel with
    | O => None
    | S f =>
        let (rnd, state') := next state in
        prng_loop f len state'
                  (result ++ padStart 8 (lit "0") (toStringRadix 16 rnd))
    end
  else Some (substring result 0 len).

(** [prng(seed, length)].  Every iteration adds characters, so [length]
    iterations are enough ([prng_loop_returns] below). *)
Definition prng (seed : jsstring) (len : Z) : jsstring :=
  match prng_loop (Z.to_nat len) len (fnv1a seed) [] with
  | Some result => result
  | None => []
  end.

(** [randomHex(bytesLength)]. *)
Definition randomHex (bytesLength : nat) : M jsstring :=
  await! array := getRandomValues bytesLength in
  ret (hexOfBytes array).

(** [sha256Hex(input)]. *)
Definition sha256Hex (input : jsstring) : jsstring :=
  hexOfBytes (SHA256.digest (utf8_encode input)).

(** [String(v)], as [salt + solutions[idx]] applies it. *)
Fixpoint valueToString (v : value) : jsstring :=
  match v with
  | VUndefined => lit "undefined"
  | VNull => lit "null"
  | VBool true => lit "true"
  | VBool false => lit "false"
  | VNumber x => printed x
  | VString str => str
  | VArray items =>
      join (lit ",")
           (List.map
              (fun x =>
                 match x with
                 | VUndefined | VNull => []
                 | _ => valueToString x
                 end)
              items)
  end.

(** [o ?? dflt] and [conf?.field]. *)
Definition nullish {A : Type} (o : option A) (dflt : A) : A :=
  match o with Some x => x | None => dflt end.

Definition optField {R A : Type} (conf : option R) (field : R -> option A)
  : option A :=
  match conf with Some r => field r | None => None end.

(** [Array.isArray(v)], [typeof v === "number"], [v === undefined],
    [v.some(f)] and [v[idx]]. *)
Definition isArray (v : value) : bool :=
  match v with VArray _ => true | _ => false end.

Definition isNumber (v : value) : bool :=
  match v with VNumber _ => true | _ => false end.

Definition isUndefined (v : value) : bool :=
  match v with VUndefined => true | _ => false end.

Definition some (f : value -> bool) (v : value) : bool :=
  match v with VArray items => existsb f items | _ => false end.

Definition index (v : value) (idx : nat) : value :=
  match v with VArray items => nth idx items VUndefined | _ => VUndefined end.

(** *** The [Cap] class *)

Section Engine.

Variable config : CapConfig.

Definition _getChallenge (token : jsstring) : M (option ChallengeData) :=
  match challenges (storage config) with
  | Some hooks => ChallengeStorage.read hooks token
  | None => ret None
  end.

Definition _deleteChallenge (token : jsstring) : M unit :=
  match challenges (storage config) with
  | Some hooks => ChallengeStorage.delete hooks token
  | None => ret tt
  end.

(** [createChallenge(conf)].  The expiry [Date.now() + expiresMs] is a sum
    of doubles in the code and a sum in [Z] here: the two agree where the
    sum is a [safeInteger], which the statements about the expiry of an
    offset chosen by the caller assume.  (With the default offset, and
    with the 20 minutes of [redeemChallenge], the sum is in that range at
    every time a clock gives.) *)
Definition createChallenge (conf : option ChallengeConfig)
  : M ChallengeResponse :=
  let challenge :=
    {| c := nullish (optField conf challengeCount) 50;
       s := nullish (optField conf challengeSize) 32;
       d := nullish (optField conf challengeDifficulty) 4 |} in
  await! token := randomHex 25 in
  await! now := dateNow in
  let expires := now + nullish (optField conf expiresMs) 600000 in
  match optField conf store with
  | Some false =>
      ret {| cr_challenge := challenge; cr_token := None;
             cr_expires := expires |}
  | _ =>
      let challengeData := {| expires := expires; challenge := challenge |} in
      do! match challenges (storage config) with
          | Some hooks => ChallengeStorage.store hooks token challengeData
          | None => ret tt
          end in
      ret {| cr_challenge := challenge; cr_token := Some token;
             cr_expires := expires |}
  end.

(** The guard of [redeemChallenge]: the body is rejected when it holds. *)
Definition invalidBody (token : jsstring) (solutions : value) : bool :=
  negb (truthy (VString token))
  || negb (truthy solutions)
  || negb (isArray solutions)
  || some (fun x => negb (isNumber x)) solutions.

(** [Array.from({ length }, () => { i = i + 1; return [...] })]: the
    callback runs [length] times and counts in [i]. *)
Fixpoint challengesFrom (token : jsstring) (params : ChallengeParams)
  (length : nat) (i : Z) : list ChallengeTuple :=
  match length with
  | O => []
  | S k =>
      let i := i + 1 in
      (prng (token ++ toString i) (s params),
       prng (token ++ toString i ++ lit "d") (d params))
        :: challengesFrom token params k i
  end.

(** The puzzle list and the check of each puzzle against
    [solutions[idx]]. *)
Definition isValidArr (token : jsstring) (challengeData : ChallengeData)
  (solutions : value) : list bool :=
  let challenges :=
    challengesFrom token (challenge challengeData)
                   (Z.to_nat (c (challenge challengeData))) 0 in
  imap (fun idx '(salt, target) =>
          negb (isUndefined (index solutions idx))
          && startsWith
               (sha256Hex (salt ++ valueToString (index solutions idx)))
               target)
       challenges.

Definition failed (msg : string) : RedeemResponse :=
  {| success := false; message := Some (lit msg);
     rr_token := None; rr_expires := None |}.

Definition redeemChallenge (body : Solution) : M RedeemResponse :=
  let '(Build_Solution token solutions) := body in
  if invalidBody token solutions then ret (failed "Invalid body")
  else
    await! challengeData := _getChallenge token in
    do! _deleteChallenge token in
    await! now := dateNow in
    match challengeData with
    | None => ret (failed "Challenge invalid or expired")
    | Some challengeData =>
        if expires challengeData <? now
        then ret (failed "Challenge invalid or expired")
        else
          if negb (forallb (fun b => b)
                           (isValidArr token challengeData solutions))
          then ret (failed "Invalid solution")
          else
            await! vertoken := randomHex 15 in
            await! now := dateNow in
            let expires := now + 20 * 60 * 1000 in
            let hash := sha256Hex vertoken in
            await! id := randomHex 8 in
            let tokenKey := id ++ lit ":" ++ hash in
            do! match tokens (storage config) with
                | Some hooks => TokenStorage.store hooks tokenKey expires
                | None => ret tt
                end in
            ret {| success := true; message := None;
                   rr_token := Some (id ++ lit ":" ++ vertoken);
                   rr_expires := Some expires |}
    end.

Definition _getToken (tokenKey : jsstring) : M (option Z) :=
  match tokens (storage config) with
  | Some hooks => TokenStorage.get hooks tokenKey
  | None => ret None
  end.

Definition _deleteToken (tokenKey : jsstring) : M unit :=
  match tokens (storage config) with
  | Some hooks => TokenStorage.delete hooks tokenKey
  | None => ret tt
  end.

(** [validateToken] resolves to [{ success }]: the boolean stands for the
    object. *)
Definition validateToken (token : value) (conf : option TokenConfig)
  : M bool :=
  match token with
  | VString str =>
      if negb (truthy token) then ret false
      else
        match split 58 str with
        | [id; vertoken] =>
            if negb (truthy (VString id)) || negb (truthy (VString vertoken))
            then ret false
            else
              let hash := sha256Hex vertoken in
              let key := id ++ lit ":" ++ hash in
              await! tokenExpires := _getToken key in
              match tokenExpires with
              | None => ret false
              | Some tokenExpires =>
                  if negb (truthy (VNumber (int tokenExpires))) then ret false
                  else
                    await! now := dateNow in
                    if now <? tokenExpires then
                      do! match optField conf keepToken with
                          | Some true => ret tt
                          | _ => _deleteToken key
                          end in
                      ret true
                    else ret false
              end
        | _ => ret false
        end
  | _ => ret false
  end.

Definition _cleanExpiredTokens : M unit :=
  do! match challenges (storage config) with
      | Some hooks =>
          await! expiredChallenges := ChallengeStorage.listExpired hooks in
          promiseAll (List.map _deleteChallenge expiredChallenges)
      | None =>
          consoleWarn
            (lit "[cap] challenge storage hooks provided but no listExpired, couldn't delete expired challenges")
      end in
  match tokens (storage config) with
  | Some hooks =>
      await! expiredTokens := TokenStorage.listExpired hooks in
      promiseAll (List.map _deleteToken expiredTokens)
  | None =>
      consoleWarn
        (lit "[cap] token storage hooks provided but no listExpired, couldn't delete expired tokens")
  end.

Definition cleanup : M unit := _cleanExpiredTokens.

(** The first block of [_cleanExpiredTokens] on its own, the one of the
    challenges: what has run when the block of the tokens starts. *)
Definition cleanChallenges : M unit :=
  match challenges (storage config) with
  | Some hooks =>
      await! expiredChallenges := ChallengeStorage.listExpired hooks in
      promiseAll (List.map _deleteChallenge expiredChallenges)
  | None =>
      consoleWarn
        (lit "[cap] challenge storage hooks provided but no listExpired, couldn't delete expired challenges")
  end.

End Engine.

(** *** An in-memory backend for the hooks

    The two stores are the maps of [ChallengeState], keyed by token and by
    token key as the two tables of [DurableObject.ts] are.  A read returns
    the record as stored, so that the expiry checks of the engine decide;
    every hook call is recorded in [accesses]. *)

Definition logged (a : Access) (w : World) : World :=
  {| challengesList := challengesList w;
     tokensList := tokensList w;
     clock := clock w;
     entropy := entropy w;
     drawn := drawn w;
     accesses := accesses w ++ [a];
     warnings := warnings w |}.

Definition withChallenges
  (f : gmap jsstring ChallengeData -> gmap jsstring ChallengeData)
  (w : World) : World :=
  {| challengesList := f (challengesList w);
     tokensList := tokensList w;
     clock := clock w;
     entropy := entropy w;
     drawn := drawn w;
     accesses := accesses w;
     warnings := warnings w |}.

Definition withTokens (f : gmap jsstring Z -> gmap jsstring Z) (w : World)
  : World :=
  {| challengesList := challengesList w;
     tokensList := f (tokensList w);
     clock := clock w;
     entropy := entropy w;
     drawn := drawn w;
     accesses := accesses w;
     warnings := warnings w |}.

Definition memoryChallenges : ChallengeStorage.t :=
  {| ChallengeStorage.store := fun token data w =>
       Returned tt
         (withChallenges (insert token data) (logged (ChallengeStore token) w));
     ChallengeStorage.read := fun token w =>
       Returned (challengesList w !! token) (logged (ChallengeRead token) w);
     ChallengeStorage.delete := fun token w =>
       Returned tt
         (withChallenges (delete token) (logged (ChallengeDelete token) w));
     ChallengeStorage.listExpired := fun w =>
       Returned
         (List.map fst
            (List.filter (fun kv => expires (snd kv) <=? clock w)
                         (map_to_list (challengesList w))))
         (logged ChallengeListExpired w) |}.

Definition memoryTokens : TokenStorage.t :=
  {| TokenStorage.store := fun key exp w =>
       Returned tt (withTokens (insert key exp) (logged (TokenStore key) w));
     TokenStorage.get := fun key w =>
       Returned (tokensList w !! key) (logged (TokenGet key) w);
     TokenStorage.delete := fun key w =>
       Returned tt (withTokens (delete key) (logged (TokenDelete key) w));
     TokenStorage.listExpired := fun w =>
       Returned
         (List.map fst
            (List.filter (fun kv => snd kv <=? clock w)
                         (map_to_list (tokensList w))))
         (logged TokenListExpired w) |}.

Definition memory : CapConfig :=
  {| storage := {| challenges := Some memoryChallenges;
                   tokens := Some memoryTokens |} |}.

(** *** A backend that is out of service: every hook rejects. *)

Definition unavailable : jsstring := lit "storage unavailable".

Definition downChallenges : ChallengeStorage.t :=
  {| ChallengeStorage.store := fun _ _ w => Thrown unavailable w;
     ChallengeStorage.read := fun _ w => Thrown unavailable w;
     ChallengeStorage.delete := fun _ w => Thrown unavailable w;
     ChallengeStorage.listExpired := fun w => Thrown unavailable w |}.

Definition downTokens : TokenStorage.t :=
  {| TokenStorage.store := fun _ _ w => Thrown unavailable w;
     TokenStorage.get := fun _ w => Thrown unavailable w;
     TokenStorage.delete := fun _ w => Thrown unavailable w;
     TokenStorage.listExpired := fun w => Thrown unavailable w |}.

Definition down : CapConfig :=
  {| storage := {| challenges := Some downChallenges;
                   tokens := Some downTokens |} |}.

(** *** A backend that has become read-only: reads and listings answer
    as the in-memory backend does, writes and deletes reject. *)

Definition readOnlyError : jsstring := lit "storage is read-only".

Definition readOnlyChallenges : ChallengeStorage.t :=
  {| ChallengeStorage.store := fun _ _ w => Thrown readOnlyError w;
     ChallengeStorage.read := ChallengeStorage.read memoryChallenges;
     ChallengeStorage.delete := fun _ w => Thrown readOnlyError w;
     ChallengeStorage.listExpired :=
       ChallengeStorage.listExpired memoryChallenges |}.

Definition readOnlyTokens : TokenStorage.t :=
  {| TokenStorage.store := fun _ _ w => Thrown readOnlyError w;
     TokenStorage.get := TokenStorage.get memoryTokens;
     TokenStorage.delete := fun _ w => Thrown readOnlyError w;
     TokenStorage.listExpired := TokenStorage.listExpired memoryTokens |}.

Definition readOnly : CapConfig :=
  {| storage := {| challenges := Some readOnlyChallenges;
                   tokens := Some readOnlyTokens |} |}.

(** The challenges in memory, the tokens read-only or out of service. *)
Definition tokensReadOnly : CapConfig :=
  {| storage := {| challenges := Some memoryChallenges;
                   tokens := Some readOnlyTokens |} |}.

Definition tokensDown : CapConfig :=
  {| storage := {| challenges := Some memoryChallenges;
                   tokens := Some downTokens |} |}.

(** *** A backend that does not fail: every hook call returns. *)

Definition returns {A : Type} (m : M A) : Prop :=
  forall w : World, exists (a : A) (w' : World), m w = Returned a w'.

Definition reliable (config : CapConfig) : Prop :=
  (forall hooks : ChallengeStorage.t,
     challenges (storage config) = Some hooks ->
     (forall token data, returns (ChallengeStorage.store hooks token data))
     /\ (forall token, returns (ChallengeStorage.read hooks token))
     /\ (forall token, returns (ChallengeStorage.delete hooks token))
     /\ returns (ChallengeStorage.listExpired hooks))
  /\ (forall hooks : TokenStorage.t,
        tokens (storage config) = Some hooks ->
        (forall key exp, returns (TokenStorage.store hooks key exp))
        /\ (forall key, returns (TokenStorage.get hooks key))
        /\ (forall key, returns (TokenStorage.delete hooks key))
        /\ returns (TokenStorage.listExpired hooks)).

(** The guards of [validateToken]: the [[id, vertoken]] it goes on with,
    or [None] when it returns before any hook is called. *)
Definition parseToken (token : value) : option (jsstring * jsstring) :=
  match token with
  | VString str =>
      if negb (truthy token) then None
      else
        match split 58 str with
        | [id; vertoken] =>
            if negb (truthy (VString id)) || negb (truthy (VString vertoken))
            then None
            else Some (id, vertoken)
        | _ => None
        end
  | _ => None
  end.

(** A world to start from: empty stores, the clock at [now], the random
    bytes [seed, seed + 7, seed + 14, ...]. *)
Definition initial (now seed : Z) : World :=
  {| challengesList := ∅;
     tokensList := ∅;
     clock := now;
     entropy := fun i => seed + 7 * Z.of_nat i;
     drawn := 0;
     accesses := [];
     warnings := [] |}.

End Cap.

(** ** The specification's wording, for comparison with the code *)

Module Spec.
Import JS Cap.

(** FNV-1a over a sequence of data units: offset basis 2166136261, prime
    16777619, 32-bit wrap-around. *)
Definition fnv1a (data : list Z) : Z :=
  fold_left (fun h b => (Z.lxor h b * 16777619) mod 2 ^ 32) data 2166136261.

(** One step of xorshift32 with the shifts 13, 17, 5 on a 32-bit state. *)
Definition xorshift32 (x : Z) : Z :=
  let x := Z.lxor x (Z.shiftl x 13 mod 2 ^ 32) in
  let x := Z.lxor x (Z.shiftr x 17) in
  Z.lxor x (Z.shiftl x 5 mod 2 ^ 32).

(** A number on exactly [k] lowercase hex characters. *)
Fixpoint hexFixed (k : nat) (n : Z) : jsstring :=
  match k with
  | O => []
  | S k' => hexFixed k' (n / 16) ++ [digitChar (n mod 16)]
  end.

(** The first [n] outputs of the stream, 8 hex characters each. *)
Fixpoint stream (n : nat) (state : Z) : jsstring :=
  match n with
  | O => []
  | S k => let x := xorshift32 state in hexFixed 8 x ++ stream k x
  end.

(** [derive] on the data units of a seed: enough 8-character outputs to
    reach [len] characters, truncated to [len]. *)
Definition derive (data : list Z) (len : Z) : jsstring :=
  firstn (Z.to_nat len) (stream (Z.to_nat ((len + 7) / 8)) (fnv1a data)).

(** The byte sequences of a string in UTF-16, either byte order. *)
Definition utf16be (str : jsstring) : list Z :=
  List.concat (List.map (fun u => [Z.shiftr u 8; Z.land u 255]) str).
Definition utf16le (str : jsstring) : list Z :=
  List.concat (List.map (fun u => [Z.land u 255; Z.shiftr u 8]) str).

Definition isHexChar (ch : Z) : bool :=
  ((48 <=? ch) && (ch <=? 57)) || ((97 <=? ch) && (ch <=? 102)).

(** Puzzle [i] of a challenge: [(salt_i, target_i)]. *)
Definition puzzle (token : jsstring) (params : ChallengeParams) (i : Z)
  : ChallengeTuple :=
  (prng (token ++ toString i) (s params),
   prng (token ++ toString i ++ lit "d") (d params)).

(** [solutions[i-1]] exists and solves puzzle [i]: the digest of the salt
    followed by the number as printed starts with the target. *)
Definition solved (token : jsstring) (params : ChallengeParams)
  (solutions : value) (i : Z) : Prop :=
  exists x : number,
    index solutions (Z.to_nat (i - 1)) = VNumber x
    /\ startsWith (sha256Hex (fst (puzzle token params i) ++ printed x))
                  (snd (puzzle token params i)) = true.

(** The token cut at its first [":"]: [None] without a separator. *)
Fixpoint cutFirst (str : jsstring) : option (jsstring * jsstring) :=
  match str with
  | [] => None
  | ch :: rest =>
      if ch =? 58 then Some ([], rest)
      else match cutFirst rest with
           | Some (id, secret) => Some (ch :: id, secret)
           | None => None
           end
  end.

(** Malformed as the specification words it: not a string, no separator,
    or an empty part. *)
Definition malformed (token : value) : bool :=
  match token with
  | VString str =>
      match cutFirst str with
      | Some (id, secret) =>
          Nat.eqb (length id) 0 || Nat.eqb (length secret) 0
      | None => true
      end
  | _ => true
  end.

End Spec.

(** ** A concrete run: the scenario of two puzzles *)

Module Scenario.
Import JS Cap.

(** [createChallenge({challengeCount: 2, challengeSize: 4,
    challengeDifficulty: 1})] at time 1000. *)
Definition conf : option ChallengeConfig :=
  Some {| challengeCount := Some 2; challengeSize := Some 4;
          challengeDifficulty := Some 1; expiresMs := None;
          store := None |}.

Definition world_of {A : Type} (o : Outcome A) : World :=
  match o with Returned _ w => w | Thrown _ w => w end.

Definition result_of {A : Type} (o : Outcome A) : option A :=
  match o with Returned a _ => Some a | Thrown _ _ => None end.

Definition created : World :=
  world_of (createChallenge memory conf (initial 1000 3)).

(** The record that call stored. *)
Definition stored : ChallengeData :=
  {| challenge := {| c := 2; s := 4; d := 1 |}; expires := 601000 |}.

(** The token that call returned. *)
Definition T : jsstring :=
  lit "030a11181f262d343b424950575e656c737a81888f969da4ab".

(** 15 solves puzzle 1 (salt a15b, target 9) and 7 solves puzzle 2 (salt
    7978, target 9). *)
Definition solved_body : Solution :=
  {| token := T; solutions := VArray [VNumber (int 15); VNumber (int 7)] |}.

Definition redeemed : World :=
  world_of (redeemChallenge memory solved_body created).

(** Numbers that are no safe integers solve the puzzles too: 2^64, which
    prints as 18446744073709552000, solves puzzle 1 and 9e21, which
    prints as 9e+21, solves puzzle 2. *)
Definition wide_body : Solution :=
  {| token := T;
     solutions :=
       VArray [VNumber {| printed := lit "18446744073709552000";
                          falsy := false |};
               VNumber {| printed := lit "9e+21"; falsy := false |}] |}.

(** The world of [created] once the challenge has expired, at time
    2000000. *)
Definition stale : World :=
  {| challengesList := challengesList created;
     tokensList := tokensList created;
     clock := 2000000;
     entropy := entropy created;
     drawn := drawn created;
     accesses := accesses created;
     warnings := warnings created |}.

(** The answer of that redemption, and the verification token in it. *)
Definition answer : RedeemResponse :=
  {| success := true; message := None;
     rr_token := Some (lit "1b222930373e454c:b2b9c0c7ced5dce3eaf1f8ff060d14");
     rr_expires := Some 1201000 |}.

Definition V : value :=
  VString (lit "1b222930373e454c:b2b9c0c7ced5dce3eaf1f8ff060d14").

(** The world after that token was validated once. *)
Definition validated : World :=
  world_of (validateToken memory V None redeemed).

(** The world of [redeemed] once the token has expired, at time 2000000. *)
Definition lapsed : World :=
  {| challengesList := challengesList redeemed;
     tokensList := tokensList redeemed;
     clock := 2000000;
     entropy := entropy redeemed;
     drawn := drawn redeemed;
     accesses := accesses redeemed;
     warnings := warnings redeemed |}.

(** The world after the token was presented at that time. *)
Definition lapsed_checked : World :=
  world_of (validateToken memory V None lapsed).

(** [createChallenge({challengeCount: 0})] at time 1000. *)
Definition conf0 : ChallengeConfig :=
  {| challengeCount := Some 0; challengeSize := None;
     challengeDifficulty := None; expiresMs := None; store := None |}.

Definition created0 : World :=
  world_of (createChallenge memory (Some conf0) (initial 1000 3)).

Definition stored0 : ChallengeData :=
  {| challenge := {| c := 0; s := 32; d := 4 |}; expires := 601000 |}.

End Scenario.

(** ** The Durable Object: [src/cap/DurableObject.ts] *)

Module DurableObject.
Import JS Cap.

Section CapDO.

(** What [cursor.one()] does when the query has no row is decided by the
    runtime, not by this repository: [None] when it yields [null], the
    case the methods below test for; [Some e] when it throws [e]. *)
Variable oneEmpty : option jsstring.

(** [.one()] on the rows of a query by primary key: one row at most. *)
Definition one {A : Type} (rows : option A) : M (option A) :=
  fun w =>
    match rows with
    | Some row => Returned (Some row) w
    | None =>
        match oneEmpty with
        | None => Returned None w
        | Some e => Thrown e w
        end
    end.

(** The table [challenges (token PRIMARY KEY, data, expires)] is the map
    [challengesList]: a row is kept as the parameters its [data] column
    parses back to, with its [expires] column.  The table [tokens (key
    PRIMARY KEY, expires)] is the map [tokensList]. *)

(** [INSERT OR REPLACE INTO challenges ...]. *)
Definition storeChallenge (token : jsstring) (challengeData : ChallengeData)
  : M unit :=
  fun w => Returned tt (withChallenges (insert token challengeData) w).

(** [SELECT data, expires FROM challenges WHERE token = ? AND expires > ?],
    the second argument being [Date.now()]. *)
Definition readChallenge (token : jsstring) : M (option ChallengeData) :=
  fun w =>
    one (match challengesList w !! token with
         | Some row => if clock w <? expires row then Some row else None
         | None => None
         end) w.

(** [DELETE FROM challenges WHERE token = ?]. *)
Definition deleteChallenge (token : jsstring) : M unit :=
  fun w => Returned tt (withChallenges (delete token) w).

(** [SELECT token FROM challenges WHERE expires <= ?]. *)
Definition listExpiredChallenges : M (list jsstring) :=
  fun w =>
    Returned
      (List.map fst
         (List.filter (fun row => expires (snd row) <=? clock w)
                      (map_to_list (challengesList w))))
      w.

(** [INSERT OR REPLACE INTO tokens ...]. *)
Definition storeToken (token : jsstring) (expires : Z) : M unit :=
  fun w => Returned tt (withTokens (insert token expires) w).

(** [SELECT expires FROM tokens WHERE key = ? AND expires > ?]. *)
Definition readToken (token : jsstring) : M (option Z) :=
  fun w =>
    one (match tokensList w !! token with
         | Some expires => if clock w <? expires then Some expires else None
         | None => None
         end) w.

(** [DELETE FROM tokens WHERE key = ?]. *)
Definition deleteToken (token : jsstring) : M unit :=
  fun w => Returned tt (withTokens (delete token) w).

(** [SELECT key FROM tokens WHERE expires <= ?]. *)
Definition listExpiredTokens : M (list jsstring) :=
  fun w =>
    Returned
      (List.map fst
         (List.filter (fun row => snd row <=? clock w)
                      (map_to_list (tokensList w))))
      w.

(** [cap = new Cap({ storage: { challenges: ..., tokens: ... } })]. *)
Definition cap : CapConfig :=
  {| storage :=
       {| challenges :=
            Some {| ChallengeStorage.store := storeChallenge;
                    ChallengeStorage.read := readChallenge;
                    ChallengeStorage.delete := deleteChallenge;
                    ChallengeStorage.listExpired := listExpiredChallenges |};
          tokens :=
            Some {| TokenStorage.store := storeToken;
                    TokenStorage.get := readToken;
                    TokenStorage.delete := deleteToken;
                    TokenStorage.listExpired := listExpiredTokens |} |} |}.

(** The methods the object exposes. *)
Definition createChallenge : M ChallengeResponse :=
  Cap.createChallenge cap None.

Definition redeemChallenge (data : Solution) : M RedeemResponse :=
  Cap.redeemChallenge cap data.

Definition validateToken (token : value) : M bool :=
  Cap.validateToken cap token None.

Definition cleanup : M unit := Cap.cleanup cap.

End CapDO.

End DurableObject.

(** ** Backends with a store left out *)

Module Partial.
Import JS Cap.

Definition tokensOnly : CapConfig :=
  {| storage := {| challenges := None; tokens := Some memoryTokens |} |}.

Definition challengesOnly : CapConfig :=
  {| storage := {| challenges := Some memoryChallenges; tokens := None |} |}.

Definition bare : CapConfig :=
  {| storage := {| challenges := None; tokens := None |} |}.

End Partial.

(** ** The routes of the worker: [src/index.ts]

    The two handlers and the rate-limit middleware in front of them, as
    functions from what the framework hands them to the JSON response they
    build.  Response headers, the log of [console.error] and the routing of
    other paths are left to the framework and are not part of the model. *)

Module Worker.
Import JS Cap.

(** [c.json(body, status)]: the body is a created challenge, the answer
    of a redemption, or [{ success: false, error }]. *)
Inductive Body : Type :=
| Challenge (r : ChallengeResponse)
| Answer (r : RedeemResponse)
| Failure (error : jsstring).

Record Response : Type := { status : Z; body : Body }.

(** What a request brings: [c.env.ENV], the address [getConnInfo] finds
    (if any) and the verdict [success] of [CAP_RATE_LIMITER.limit] for a
    key. *)
Record Env : Type :=
  { ENV : jsstring;
    address : option jsstring;
    limit : jsstring -> bool }.

(** The body of a redemption request as [await c.req.json()] gives it:
    not JSON at all (the call throws), [null] (destructuring throws), or
    the two fields read off it; [token] is taken at its declared type, a
    string, or is missing. *)
Inductive RequestBody : Type :=
| Unparsable
| JsonNull
| Fields (token : option jsstring) (solutions : value).

(** [try { ... } catch (error) { ... }]. *)
Definition catch {A : Type} (m : M A) (handler : jsstring -> M A) : M A :=
  fun w =>
    match m w with
    | Returned a w' => Returned a w'
    | Thrown e w' => handler e w'
    end.

(** The middleware on [/cap/*]: [None] is [next()]. *)
Definition rateLimit (env : Env) : option Response :=
  if bool_decide (ENV env = lit "DEVELOPMENT") then None
  else
    match address env with
    | None =>
        Some {| status := 500;
                body := Failure (lit "Cannot determine client IP address") |}
    | Some addr =>
        if negb (truthy (VString addr))
        then Some {| status := 500;
                     body := Failure
                               (lit "Cannot determine client IP address") |}
        else if negb (limit env addr)
        then Some {| status := 429;
                     body := Failure (lit "Rate limit exceeded") |}
        else None
    end.

Section Routes.

Variable oneEmpty : option jsstring.


(** [app.post("/cap/redeem", ...)], behind the middleware. *)
Definition postRedeem (env : Env) (request : RequestBody) : M Response :=
  match rateLimit env with
  | Some blocked => ret blocked
  | None =>
      catch
        (match request with
         | Unparsable => fun w => Thrown (lit "SyntaxError") w
         | JsonNull => fun w => Thrown (lit "TypeError") w
         | Fields token solutions =>
             match token with
             | None =>
                 ret {| status := 400;
                        body := Failure (lit "Missing token or solutions") |}
             | Some token =>
                 if negb (truthy (VString token)) || negb (truthy solutions)
                 then ret {| status := 400;
                             body := Failure
                                       (lit "Missing token or solutions") |}
                 else
                   await! answer :=
                     DurableObject.redeemChallenge oneEmpty
                       {| Cap.token := token; Cap.solutions := solutions |} in
                   ret {| status := 200; body := Answer answer |}
             end
         end)
        (fun _ =>
           ret {| status := 500;
                  body := Failure (lit "Failed to redeem challenge") |})
  end.

End Routes.

(** A request in production from an address the limiter lets through. *)
Definition admitted : Env :=
  {| ENV := lit "PRODUCTION";
     address := Some (lit "203.0.113.7");
     limit := fun _ => true |}.

End Worker.

(** * Properties *)

Import JS Cap.

(** A call that has a result returned it, in the world it left. *)
Lemma returned {A : Type} (o : Outcome A) (a : A) :
  Scenario.result_of o = Some a -> o = Returned a (Scenario.world_of o).
Proof. destruct o as [a' w|e w]; cbn; congruence. Qed.

(** ** 32-bit arithmetic *)

Section Bits.

Lemma toInt32_repr (x : Z) : exists q : Z, toInt32 x = x + q * 2 ^ 32.
Proof.
  unfold toInt32.
  pose proof (Z.div_mod x (2 ^ 32) ltac:(lia)) as E.
  destruct (x mod 2 ^ 32 <? 2 ^ 31).
  - exists (- (x / 2 ^ 32)). lia.
  - exists (- (x / 2 ^ 32) - 1). lia.
Qed.

Lemma toInt32_mod (x : Z) : toInt32 x mod 2 ^ 32 = x mod 2 ^ 32.
Proof.
  destruct (toInt32_repr x) as [q ->]. apply Z_mod_plus_full.
Qed.

Lemma lxor_mod (a b : Z) :
  Z.lxor a b mod 2 ^ 32 = Z.lxor (a mod 2 ^ 32) (b mod 2 ^ 32).
Proof.
  apply Z.bits_inj'. intros n Hn.
  rewrite Z.lxor_spec, !Z.testbit_mod_pow2 by lia.
  rewrite Z.lxor_spec. destruct (n <? 32); reflexivity.
Qed.

Lemma xor_mod (a b : Z) :
  xor a b mod 2 ^ 32 = Z.lxor (a mod 2 ^ 32) (b mod 2 ^ 32).
Proof. unfold xor. now rewrite lxor_mod, !toInt32_mod. Qed.

Lemma shl_repr (x k : Z) :
  0 <= k < 32 -> exists q : Z, shl x k = x * 2 ^ k + q * 2 ^ 32.
Proof.
  intros Hk. unfold shl. rewrite (Z.mod_small k 32) by lia.
  rewrite Z.shiftl_mul_pow2 by lia.
  destruct (toInt32_repr x) as [q1 ->].
  destruct (toInt32_repr ((x + q1 * 2 ^ 32) * 2 ^ k)) as [q2 ->].
  exists (q1 * 2 ^ k + q2). ring.
Qed.

Lemma shl_mod (x k : Z) :
  0 <= k < 32 -> shl x k mod 2 ^ 32 = (x mod 2 ^ 32 * 2 ^ k) mod 2 ^ 32.
Proof.
  intros Hk. destruct (shl_repr x k Hk) as [q ->].
  rewrite Z_mod_plus_full. now rewrite Z.mul_mod_idemp_l by lia.
Qed.

Lemma ushr_0 (x : Z) : ushr x 0 = x mod 2 ^ 32.
Proof. reflexivity. Qed.

Lemma mod32_range (x : Z) : 0 <= x mod 2 ^ 32 < 2 ^ 32.
Proof. apply Z.mod_pos_bound. lia. Qed.

End Bits.

(** ** The sequence generator [prng] *)

Section Prng.

Lemma fnv_round_mod (hash ch : Z) :
  fnv_round hash ch mod 2 ^ 32
  = (Z.lxor (hash mod 2 ^ 32) ch * 16777619) mod 2 ^ 32.
Proof.
  unfold fnv_round. set (x := xor hash ch).
  destruct (shl_repr x 1 ltac:(lia)) as [q1 ->].
  destruct (shl_repr x 4 ltac:(lia)) as [q4 ->].
  destruct (shl_repr x 7 ltac:(lia)) as [q7 ->].
  destruct (shl_repr x 8 ltac:(lia)) as [q8 ->].
  destruct (shl_repr x 24 ltac:(lia)) as [q24 ->].
  replace (x + (x * 2 ^ 1 + q1 * 2 ^ 32 + (x * 2 ^ 4 + q4 * 2 ^ 32)
                + (x * 2 ^ 7 + q7 * 2 ^ 32) + (x * 2 ^ 8 + q8 * 2 ^ 32)
                + (x * 2 ^ 24 + q24 * 2 ^ 32)))
    with (x * 16777619 + (q1 + q4 + q7 + q8 + q24) * 2 ^ 32) by ring.
  rewrite Z_mod_plus_full.
  rewrite <- Z.mul_mod_idemp_l by lia.
  rewrite <- (Z.mul_mod_idemp_l (Z.lxor _ _)) by lia.
  f_equal. f_equal. subst x. rewrite xor_mod, lxor_mod.
  now rewrite Z.mod_mod by lia.
Qed.

Lemma fnv_fold_mod (str : jsstring) (h : Z) :
  fold_left fnv_round str h mod 2 ^ 32
  = fold_left (fun h b => (Z.lxor h b * 16777619) mod 2 ^ 32) str
              (h mod 2 ^ 32).
Proof.
  revert h. induction str as [|ch str IH]; intros h; simpl.
  - reflexivity.
  - rewrite IH, fnv_round_mod. reflexivity.
Qed.

(** The hash of the source is FNV-1a over the code units of the string. *)
Lemma fnv1a_refines (str : jsstring) : fnv1a str = Spec.fnv1a str.
Proof.
  unfold fnv1a, Spec.fnv1a. rewrite ushr_0, fnv_fold_mod. reflexivity.
Qed.

Lemma fnv1a_range (str : jsstring) : 0 <= fnv1a str < 2 ^ 32.
Proof. unfold fnv1a. rewrite ushr_0. apply mod32_range. Qed.

(** [next] advances the stream by one xorshift32 step; the state kept in
    the closure is the signed form of the value returned. *)
Lemma next_refines (state : Z) :
  fst (next state) = Spec.xorshift32 (state mod 2 ^ 32)
  /\ snd (next state) mod 2 ^ 32 = fst (next state).
Proof.
  unfold next, Spec.xorshift32. cbn [fst snd]. rewrite ushr_0. split; [|reflexivity].
  set (s1 := xor state (shl state 13)).
  set (s2 := xor s1 (ushr s1 17)).
  assert (E1 : s1 mod 2 ^ 32
               = Z.lxor (state mod 2 ^ 32)
                        (Z.shiftl (state mod 2 ^ 32) 13 mod 2 ^ 32)).
  { subst s1. rewrite xor_mod, shl_mod by lia.
    now rewrite Z.shiftl_mul_pow2 by lia. }
  assert (E2 : s2 mod 2 ^ 32
               = Z.lxor (s1 mod 2 ^ 32) (Z.shiftr (s1 mod 2 ^ 32) 17)).
  { subst s2. rewrite xor_mod. f_equal.
    unfold ushr, toUint32. change (17 mod 32) with 17.
    apply Z.mod_small. pose proof (mod32_range s1) as R.
    rewrite Z.shiftr_div_pow2 by lia. split.
    - apply Z.div_pos; lia.
    - apply Z.le_lt_trans with (s1 mod 2 ^ 32); [|lia].
      apply Z.div_le_upper_bound; lia. }
  rewrite xor_mod, shl_mod by lia.
  rewrite <- Z.shiftl_mul_pow2 by lia.
  rewrite E2, E1. reflexivity.
Qed.

(** Hex rendering. *)
Lemma zeros_pad (m : nat) :
  firstn m (List.concat (repeat (lit "0") m)) = repeat 48 m.
Proof.
  induction m as [|m IH]; [reflexivity|].
  cbn [repeat List.concat]. change (lit "0") with [48] in *.
  cbn [app firstn]. f_equal.
  replace (repeat [48] m) with (repeat [48] m) by reflexivity.
  clear IH. induction m as [|m IH]; [reflexivity|].
  cbn [repeat List.concat app firstn]. now rewrite IH.
Qed.

Lemma padStart_zeros (k : nat) (str : jsstring) :
  padStart k (lit "0") str = repeat 48 (k - length str) ++ str.
Proof. unfold padStart. now rewrite zeros_pad. Qed.

Lemma hexFixed_zero (k : nat) : Spec.hexFixed k 0 = repeat 48 k.
Proof.
  induction k as [|k IH]; [reflexivity|].
  cbn [Spec.hexFixed]. change (0 / 16) with 0. rewrite IH.
  change (digitChar (0 mod 16)) with 48.
  change [48] with (repeat 48 1). rewrite <- repeat_app.
  f_equal. lia.
Qed.

Lemma hexFixed_length (k : nat) (n : Z) : length (Spec.hexFixed k n) = k.
Proof.
  revert n. induction k as [|k IH]; intros n; [reflexivity|].
  cbn [Spec.hexFixed]. rewrite length_app, IH. simpl. lia.
Qed.

Lemma digitsOf_length (fuel : nat) (radix n : Z) :
  (length (digitsOf fuel radix n) <= fuel)%nat.
Proof.
  revert n. induction fuel as [|f IH]; intros n; simpl; [lia|].
  destruct (n <? radix); simpl; [lia|].
  rewrite length_app. simpl. specialize (IH (n / radix)). lia.
Qed.

(** The digits of [n], padded to [k], are [n] on [k] hex characters,
    whenever [n] fits and the fuel covers its digits. *)
Lemma digits_pad_hex (k fuel : nat) (n : Z) :
  (1 <= k)%nat -> (1 <= fuel)%nat ->
  0 <= n < 16 ^ Z.of_nat k -> n < 16 ^ Z.of_nat fuel ->
  padStart k (lit "0") (digitsOf fuel 16 n) = Spec.hexFixed k n.
Proof.
  revert fuel n. induction k as [|k IH]; intros fuel n Hk Hfuel Hn Hf; [lia|].
  destruct fuel as [|f]; [lia|].
  cbn [digitsOf Spec.hexFixed].
  destruct (Z.ltb_spec n 16) as [Hlt|Hge].
  - rewrite padStart_zeros. cbn [length].
    rewrite Z.div_small, Z.mod_small, hexFixed_zero by lia.
    f_equal. f_equal. lia.
  - destruct k as [|k].
    { change (16 ^ Z.of_nat 1) with 16 in Hn. lia. }
    assert (Hdiv : forall j : nat, n < 16 ^ Z.of_nat (S j) ->
                                   n / 16 < 16 ^ Z.of_nat j).
    { intros j Hj. apply Z.div_lt_upper_bound; [lia|].
      rewrite Nat2Z.inj_succ, Z.pow_succ_r in Hj by lia. lia. }
    rewrite <- (IH f (n / 16)).
    + rewrite !padStart_zeros, length_app. cbn [length].
      rewrite app_assoc. f_equal. f_equal. f_equal. lia.
    + lia.
    + destruct f as [|f]; [|lia].
      change (16 ^ Z.of_nat 1) with 16 in Hf. lia.
    + split; [apply Z.div_pos; lia|]. apply Hdiv. lia.
    + apply Hdiv. lia.
Qed.

Lemma log2_fuel (n : Z) : 0 <= n -> n < 16 ^ Z.of_nat (S (Z.to_nat (Z.log2 n))).
Proof.
  intros Hn. destruct (Z.eq_dec n 0) as [->|Hz]; [reflexivity|].
  pose proof (Z.log2_nonneg n) as Hl.
  pose proof (Z.log2_spec n ltac:(lia)) as [_ Hu].
  rewrite Nat2Z.inj_succ, Z2Nat.id by lia.
  apply Z.lt_le_trans with (2 ^ Z.succ (Z.log2 n)); [exact Hu|].
  apply Z.pow_le_mono_l. lia.
Qed.

(** [n.toString(16).padStart(k, "0")] is [n] on [k] hex characters. *)
Lemma toString16_padStart (k : nat) (n : Z) :
  (1 <= k)%nat -> 0 <= n < 16 ^ Z.of_nat k ->
  padStart k (lit "0") (toStringRadix 16 n) = Spec.hexFixed k n.
Proof.
  intros Hk Hn. unfold toStringRadix.
  destruct (Z.ltb_spec n 0) as [Hneg|_]; [lia|].
  apply digits_pad_hex; [exact Hk|lia|exact Hn|]. apply log2_fuel. lia.
Qed.

End Prng.

Section PrngLoop.

Lemma next_range (state : Z) : 0 <= fst (next state) < 2 ^ 32.
Proof. unfold next. cbn [fst]. rewrite ushr_0. apply mod32_range. Qed.

Lemma substring_prefix (str : jsstring) (len : Z) :
  substring str 0 len = firstn (Z.to_nat len) str.
Proof.
  unfold substring. set (lenr := Z.of_nat (length str)).
  replace (Z.min (Z.max 0 0) lenr) with 0 by lia.
  set (b := Z.min (Z.max len 0) lenr).
  rewrite (Z.min_l 0 b), (Z.max_r 0 b), Z.sub_0_r by lia.
  change (Z.to_nat 0) with 0%nat. cbn [skipn].
  destruct (Z.le_gt_cases len lenr) as [Hle|Hgt].
  - f_equal. lia.
  - rewrite (firstn_all2 (n := Z.to_nat len)) by lia.
    apply firstn_all2. lia.
Qed.

Lemma stream_length (n : nat) (state : Z) :
  length (Spec.stream n state) = (8 * n)%nat.
Proof.
  revert state. induction n as [|n IH]; intros state; [reflexivity|].
  cbn [Spec.stream]. rewrite length_app, hexFixed_length, IH. lia.
Qed.

Lemma stream_more (n m : nat) (state : Z) :
  exists tail : jsstring,
    Spec.stream (n + m) state = Spec.stream n state ++ tail.
Proof.
  revert state. induction n as [|n IH]; intros state.
  - exists (Spec.stream m state). reflexivity.
  - cbn [Nat.add Spec.stream].
    destruct (IH (Spec.xorshift32 state)) as [tail ->].
    exists tail. now rewrite app_assoc.
Qed.

(** Truncation forgets how many outputs were produced beyond the need. *)
Lemma stream_truncated (L n1 n2 : nat) (state : Z) :
  (L <= 8 * n1)%nat -> (L <= 8 * n2)%nat ->
  firstn L (Spec.stream n1 state) = firstn L (Spec.stream n2 state).
Proof.
  assert (Hstep : forall n m, (L <= 8 * n)%nat ->
            firstn L (Spec.stream (n + m) state)
            = firstn L (Spec.stream n state)).
  { intros n m Hn. destruct (stream_more n m state) as [tail ->].
    rewrite firstn_app.
    replace (L - length (Spec.stream n state))%nat with 0%nat
      by (rewrite stream_length; lia).
    cbn [firstn]. apply app_nil_r. }
  intros H1 H2. destruct (Nat.le_ge_cases n1 n2) as [Hle|Hle].
  - replace n2 with (n1 + (n2 - n1))%nat by lia. now rewrite Hstep.
  - replace n1 with (n2 + (n1 - n2))%nat by lia. now rewrite Hstep.
Qed.

(** The loop leaves through its condition once it has [len] characters,
    and what it returns is the truncated stream. *)
Lemma prng_loop_spec (fuel : nat) (len state : Z) (result : jsstring) :
  (Z.to_nat len <= length result + 8 * fuel)%nat ->
  prng_loop fuel len state result
  = Some (firstn (Z.to_nat len)
                 (result ++ Spec.stream fuel (state mod 2 ^ 32))).
Proof.
  revert state result.
  induction fuel as [|f IH]; intros state result Hfuel.
  - cbn [prng_loop Spec.stream].
    destruct (Z.ltb_spec (Z.of_nat (length result)) len) as [Hlt|Hge]; [lia|].
    now rewrite substring_prefix, app_nil_r.
  - cbn [prng_loop].
    destruct (Z.ltb_spec (Z.of_nat (length result)) len) as [Hlt|Hge].
    + destruct (next_refines state) as [Hfst Hsnd].
      pose proof (next_range state) as Hr.
      destruct (next state) as [rnd state']. cbn [fst snd] in *.
      rewrite toString16_padStart by (change (16 ^ Z.of_nat 8) with (2 ^ 32); lia).
      rewrite IH by (rewrite length_app, hexFixed_length; lia).
      cbn [Spec.stream]. rewrite Hsnd, <- Hfst, app_assoc. reflexivity.
    + rewrite substring_prefix, firstn_app.
      replace (Z.to_nat len - length result)%nat with 0%nat by lia.
      cbn [firstn]. now rewrite app_nil_r.
Qed.

Lemma prng_loop_returns (seed : jsstring) (len : Z) :
  prng_loop (Z.to_nat len) len (fnv1a seed) [] = Some (prng seed len).
Proof.
  unfold prng. rewrite prng_loop_spec by (cbn [length]; lia). reflexivity.
Qed.

Lemma derive_blocks (len : Z) :
  (Z.to_nat len <= 8 * Z.to_nat ((len + 7) / 8))%nat.
Proof.
  destruct (Z.le_gt_cases len 0) as [Hle|Hgt]; [lia|].
  pose proof (Z.div_mod (len + 7) 8 ltac:(lia)) as E.
  pose proof (Z.mod_pos_bound (len + 7) 8 ltac:(lia)) as B.
  assert (0 <= (len + 7) / 8) by (apply Z.div_pos; lia). lia.
Qed.

Lemma prng_is_derive (seed : jsstring) (len : Z) :
  prng seed len = Spec.derive seed len.
Proof.
  unfold prng, Spec.derive.
  rewrite prng_loop_spec by (cbn [length]; lia). cbn [app].
  rewrite (Z.mod_small (fnv1a seed)) by apply fnv1a_range.
  rewrite fnv1a_refines.
  apply stream_truncated; [lia|apply derive_blocks].
Qed.

Lemma digitChar_hex (v : Z) : 0 <= v < 16 -> Spec.isHexChar (digitChar v) = true.
Proof.
  intros Hv. unfold digitChar, Spec.isHexChar.
  destruct (Z.ltb_spec v 10); lia.
Qed.

Lemma hexFixed_alphabet (k : nat) (n : Z) :
  forallb Spec.isHexChar (Spec.hexFixed k n) = true.
Proof.
  revert n. induction k as [|k IH]; intros n; [reflexivity|].
  cbn [Spec.hexFixed]. rewrite forallb_app, IH. cbn [forallb].
  rewrite digitChar_hex; [reflexivity|]. apply Z.mod_pos_bound. lia.
Qed.

Lemma stream_alphabet (n : nat) (state : Z) :
  forallb Spec.isHexChar (Spec.stream n state) = true.
Proof.
  revert state. induction n as [|n IH]; intros state; [reflexivity|].
  cbn [Spec.stream]. now rewrite forallb_app, hexFixed_alphabet, IH.
Qed.

Lemma forallb_firstn {A : Type} (f : A -> bool) (n : nat) (l : list A) :
  forallb f l = true -> forallb f (firstn n l) = true.
Proof.
  revert n. induction l as [|x l IH]; intros n H.
  - now rewrite firstn_nil.
  - destruct n as [|n]; [reflexivity|]. cbn [firstn forallb] in *.
    apply andb_true_iff in H as [Hx Hl]. now rewrite Hx, IH.
Qed.

Lemma utf8_ascii (str : jsstring) :
  Forall (fun ch => 0 <= ch < 128) str -> utf8_encode str = str.
Proof.
  induction 1 as [|ch str Hch _ IH]; [reflexivity|].
  cbn [utf8_encode]. unfold isHighSurrogate, isLowSurrogate, utf8_of_codepoint.
  destruct (Z.leb_spec 55296 ch); [lia|].
  destruct (Z.leb_spec 56320 ch); [lia|]. cbn [andb].
  destruct (Z.ltb_spec ch 128); [|lia]. cbn [app]. now rewrite IH.
Qed.

End PrngLoop.

(** C3 (as amended).  [prng(seed, length)] is the reference generator run
    on the UTF-16 code units of the seed, which [charCodeAt] reads: the
    state starts at FNV-1a of the units (offset basis 2166136261, 32-bit
    wrap-around), advances by xorshift32 with the shifts 13, 17, 5, each
    output is rendered on 8 lowercase hex characters, and the
    concatenation is cut at [length].  The loop of the source always
    terminates; the result has exactly [length] characters (none for a
    negative [length]), all in [0-9a-f].  When the seed is ASCII its code
    units are its bytes, and the result is the reference run on the byte
    sequence.  [prng] takes no world: equal inputs give equal outputs. *)
Theorem prng_refines_derive (seed : jsstring) (len : Z) :
  prng seed len = Spec.derive seed len
  /\ prng_loop (Z.to_nat len) len (fnv1a seed) [] = Some (prng seed len)
  /\ length (prng seed len) = Z.to_nat len
  /\ forallb Spec.isHexChar (prng seed len) = true
  /\ (Forall (fun ch => 0 <= ch < 128) seed ->
      prng seed len = Spec.derive (utf8_encode seed) len).
Proof.
  split; [apply prng_is_derive|].
  split; [apply prng_loop_returns|].
  rewrite prng_is_derive. unfold Spec.derive. repeat split.
  - rewrite length_firstn, stream_length.
    pose proof (derive_blocks len). lia.
  - apply forallb_firstn, stream_alphabet.
  - intros Hascii. now rewrite utf8_ascii.
Qed.

(** The ASCII seed ["abc1"] and 20 characters. *)
Lemma prng_refines_derive_witness :
  Forall (fun ch => 0 <= ch < 128) (lit "abc1")
  /\ prng (lit "abc1") 20 = Spec.derive (utf8_encode (lit "abc1")) 20.
Proof.
  assert (H : Forall (fun ch => 0 <= ch < 128) (lit "abc1"))
    by (repeat constructor; lia).
  split; [exact H|].
  exact (proj2 (proj2 (proj2 (proj2
           (prng_refines_derive (lit "abc1") 20)))) H).
Defined.

(** C3 (as stated) fails on a seed that is not ASCII: for the one-unit seed
    U+20AC the source hashes the single unit 0x20AC, while the byte
    sequence of the seed is E2 82 AC in UTF-8 (and 20 AC or AC 20 in
    UTF-16), and FNV-1a over any of these gives another stream. *)
Lemma prng_not_over_bytes :
  prng [8364] 8 <> Spec.derive (utf8_encode [8364]) 8
  /\ prng [8364] 8 <> Spec.derive (Spec.utf16be [8364]) 8
  /\ prng [8364] 8 <> Spec.derive (Spec.utf16le [8364]) 8.
Proof.
  split; [vm_compute; discriminate|]. split; vm_compute; discriminate.
Qed.

(** ** The operations on the in-memory backend, in closed form *)

Section Memory.

(** A redemption attempt reads the challenge and deletes it. *)
Lemma redeemChallenge_memory (token : jsstring) (solutions : value) (w : World) :
  redeemChallenge memory {| token := token; solutions := solutions |} w
  = if invalidBody token solutions
    then Returned (failed "Invalid body") w
    else
      let w1 := withChallenges (delete token)
                  (logged (ChallengeDelete token)
                          (logged (ChallengeRead token) w)) in
      match challengesList w !! token with
      | None => Returned (failed "Challenge invalid or expired") w1
      | Some challengeData =>
          if expires challengeData <? clock w
          then Returned (failed "Challenge invalid or expired") w1
          else if negb (forallb (fun b => b)
                                (isValidArr token challengeData solutions))
          then Returned (failed "Invalid solution") w1
          else
            let vertoken := hexOfBytes (randomBytes w 15) in
            let id := hexOfBytes (randomBytes (advance 15 w) 8) in
            let expires := clock w + 20 * 60 * 1000 in
            let tokenKey := id ++ lit ":" ++ sha256Hex vertoken in
            Returned
              {| success := true; message := None;
                 rr_token := Some (id ++ lit ":" ++ vertoken);
                 rr_expires := Some expires |}
              (withTokens (insert tokenKey expires)
                 (logged (TokenStore tokenKey)
                         (advance 8 (advance 15 w1))))
      end.
Proof.
  unfold redeemChallenge.
  destruct (invalidBody token solutions); [reflexivity|].
  unfold bind, _getChallenge, _deleteChallenge, dateNow, ret.
  cbn [memory storage challenges tokens memoryChallenges memoryTokens
       ChallengeStorage.read ChallengeStorage.delete TokenStorage.store].
  destruct (challengesList w !! token) as [challengeData|]; [|reflexivity].
  cbn [clock withChallenges logged].
  destruct (expires challengeData <? clock w); [reflexivity|].
  destruct (negb (forallb (fun b => b)
                          (isValidArr token challengeData solutions)));
    reflexivity.
Qed.

Lemma validateToken_memory (token : value) (conf : option TokenConfig) (w : World) :
  validateToken memory token conf w
  = match parseToken token with
    | None => Returned false w
    | Some (id, vertoken) =>
        let key := id ++ lit ":" ++ sha256Hex vertoken in
        let w1 := logged (TokenGet key) w in
        match tokensList w !! key with
        | None => Returned false w1
        | Some tokenExpires =>
            if tokenExpires =? 0 then Returned false w1
            else if clock w <? tokenExpires then
              match optField conf keepToken with
              | Some true => Returned true w1
              | _ => Returned true
                       (withTokens (delete key) (logged (TokenDelete key) w1))
              end
            else Returned false w1
        end
    end.
Proof.
  unfold validateToken, parseToken.
  destruct token as [| |b|n|str|items]; try reflexivity.
  destruct (negb (truthy (VString str))); [reflexivity|].
  destruct (split 58 str) as [|id [|vertoken [|x rest]]]; try reflexivity.
  destruct (negb (truthy (VString id)) || negb (truthy (VString vertoken)));
    [reflexivity|].
  unfold bind, _getToken, _deleteToken, dateNow, ret.
  cbn [memory storage tokens memoryTokens TokenStorage.get TokenStorage.delete].
  cbv zeta.
  destruct (tokensList w !! (id ++ lit ":" ++ sha256Hex vertoken))
    as [tokenExpires|]; [|reflexivity].
  cbn [truthy negb falsy int].
  destruct (tokenExpires =? 0); cbn [negb clock logged]; [reflexivity|].
  destruct (clock w <? tokenExpires); [|reflexivity].
  destruct (optField conf keepToken) as [[|]|]; reflexivity.
Qed.

Lemma createChallenge_memory (conf : option ChallengeConfig) (w : World) :
  createChallenge memory conf w
  = let challenge :=
      {| c := nullish (optField conf challengeCount) 50;
         s := nullish (optField conf challengeSize) 32;
         d := nullish (optField conf challengeDifficulty) 4 |} in
    let token := hexOfBytes (randomBytes w 25) in
    let expires := clock w + nullish (optField conf expiresMs) 600000 in
    match optField conf store with
    | Some false =>
        Returned {| cr_challenge := challenge; cr_token := None;
                    cr_expires := expires |}
                 (advance 25 w)
    | _ =>
        Returned {| cr_challenge := challenge; cr_token := Some token;
                    cr_expires := expires |}
                 (withChallenges
                    (insert token
                            {| challenge := challenge; expires := expires |})
                    (logged (ChallengeStore token) (advance 25 w)))
    end.
Proof.
  unfold createChallenge, bind, randomHex, bind, getRandomValues, dateNow, ret.
  cbn [clock advance].
  destruct (optField conf store) as [[|]|]; reflexivity.
Qed.

End Memory.

(** ** Redemption *)

Section Redeem.

(** The counter of the puzzle builder makes entry [idx] puzzle
    [i + idx + 1]. *)
Lemma challengesFrom_lookup (token : jsstring) (params : ChallengeParams)
  (n : nat) (i : Z) (idx : nat) :
  challengesFrom token params n i !! idx
  = if (idx <? n)%nat
    then Some (Spec.puzzle token params (i + Z.of_nat idx + 1))
    else None.
Proof.
  revert i idx. induction n as [|n IH]; intros i idx.
  - reflexivity.
  - destruct idx as [|idx].
    + cbn. unfold Spec.puzzle. repeat f_equal; lia.
    + cbn [challengesFrom]. rewrite lookup_cons. rewrite IH.
      change (S idx <? S n)%nat with (idx <? n)%nat.
      destruct (idx <? n)%nat; [|reflexivity].
      do 2 f_equal. lia.
Qed.

Lemma forallb_imap {A : Type} (f : nat -> A -> bool) (l : list A) :
  forallb (fun b => b) (imap f l) = true
  <-> forall idx x, l !! idx = Some x -> f idx x = true.
Proof.
  revert f. induction l as [|a l IH]; intros f.
  - split; [intros _ idx x H; discriminate H|reflexivity].
  - cbn [imap forallb]. rewrite andb_true_iff, IH. split.
    + intros [Ha Hl] [|idx] x H.
      * injection H as <-. exact Ha.
      * apply (Hl idx x H).
    + intros H. split; [apply (H 0%nat a eq_refl)|].
      intros idx x Hx. apply (H (S idx) x Hx).
Qed.

(** A body that passes the guard carries a non-empty token and an array
    of numbers. *)
Lemma invalidBody_false (token : jsstring) (solutions : value) :
  invalidBody token solutions = false ->
  token <> []
  /\ exists items : list value,
       solutions = VArray items /\ forallb isNumber items = true.
Proof.
  unfold invalidBody. intros H.
  apply orb_false_iff in H as [H Hsome].
  apply orb_false_iff in H as [H Harr].
  apply orb_false_iff in H as [Htok _].
  split.
  - intros ->. discriminate Htok.
  - destruct solutions as [| |b|n|str|items]; try discriminate Harr.
    exists items. split; [reflexivity|].
    cbn [some] in Hsome. clear -Hsome.
    induction items as [|x items IH]; [reflexivity|].
    cbn [existsb forallb] in *.
    apply orb_false_iff in Hsome as [Hx Hrest].
    rewrite (IH Hrest). destruct (isNumber x); [reflexivity|discriminate Hx].
Qed.

(** In such a body an index holds a number or nothing. *)
Lemma index_numbers (items : list value) (idx : nat) :
  forallb isNumber items = true ->
  (exists x : number, index (VArray items) idx = VNumber x)
  \/ (index (VArray items) idx = VUndefined /\ (length items <= idx)%nat).
Proof.
  cbn [index]. revert idx. induction items as [|v items IH]; intros idx H.
  - right. destruct idx; split; cbn; try reflexivity; lia.
  - cbn [forallb] in H. apply andb_true_iff in H as [Hv Hrest].
    destruct idx as [|idx].
    + left. destruct v; try discriminate Hv. eexists. reflexivity.
    + destruct (IH idx Hrest) as [Hx|[Hu Hlen]]; [left; exact Hx|].
      right. split; [exact Hu|]. cbn [length]. lia.
Qed.

(** The check of one puzzle is the specification's [solved]. *)
Lemma check_solved (token : jsstring) (params : ChallengeParams)
  (items : list value) (idx : nat) :
  forallb isNumber items = true ->
  negb (isUndefined (index (VArray items) idx))
  && startsWith
       (sha256Hex (fst (Spec.puzzle token params (Z.of_nat idx + 1))
                     ++ valueToString (index (VArray items) idx)))
       (snd (Spec.puzzle token params (Z.of_nat idx + 1))) = true
  <-> Spec.solved token params (VArray items) (Z.of_nat idx + 1).
Proof.
  intros Hnum. unfold Spec.solved.
  replace (Z.to_nat (Z.of_nat idx + 1 - 1)) with idx by lia.
  destruct (index_numbers items idx Hnum) as [[x Hx]|[Hu _]].
  - rewrite Hx. cbn [isUndefined negb andb valueToString]. split.
    + intros H. exists x. split; [reflexivity|exact H].
    + intros [y [Hy H]]. injection Hy as <-. exact H.
  - rewrite Hu. cbn [isUndefined negb andb]. split; [discriminate|].
    intros [y [Hy _]]. discriminate Hy.
Qed.

(** All checks pass exactly when every puzzle from 1 to [count] is
    solved. *)
Lemma isValidArr_every (token : jsstring) (challengeData : ChallengeData)
  (items : list value) :
  forallb isNumber items = true ->
  forallb (fun b => b) (isValidArr token challengeData (VArray items)) = true
  <-> forall i : Z,
        1 <= i <= c (challenge challengeData) ->
        Spec.solved token (challenge challengeData) (VArray items) i.
Proof.
  intros Hnum. unfold isValidArr. rewrite forallb_imap. split.
  - intros H i Hi.
    replace i with (Z.of_nat (Z.to_nat (i - 1)) + 1) by lia.
    apply check_solved; [exact Hnum|].
    specialize (H (Z.to_nat (i - 1))
                  (Spec.puzzle token (challenge challengeData)
                               (Z.of_nat (Z.to_nat (i - 1)) + 1))).
    cbn beta iota in H. apply H.
    rewrite challengesFrom_lookup.
    destruct (Nat.ltb_spec (Z.to_nat (i - 1))
                           (Z.to_nat (c (challenge challengeData))));
      [reflexivity|lia].
  - intros H idx [salt target] Hlook.
    rewrite challengesFrom_lookup in Hlook.
    destruct (Nat.ltb_spec idx (Z.to_nat (c (challenge challengeData))))
      as [Hlt|]; [|discriminate Hlook].
    replace (0 + Z.of_nat idx + 1) with (Z.of_nat idx + 1) in Hlook by lia.
    assert (Hp : Spec.puzzle token (challenge challengeData)
                             (Z.of_nat idx + 1) = (salt, target))
      by congruence.
    pose proof (proj2 (check_solved token (challenge challengeData)
                                    items idx Hnum)
                      (H (Z.of_nat idx + 1) ltac:(lia))) as Hc.
    rewrite Hp in Hc. exact Hc.
Qed.

End Redeem.

(** C1.  For a stored challenge that has not expired and a body that
    passes the input guard, [redeemChallenge] returns, and it succeeds
    exactly when for every [i] from 1 to [count] the entry
    [solutions[i-1]] exists and [sha256Hex(salt_i + solutions[i-1])]
    starts with [target_i], where [salt_i = prng(token + i, size)] and
    [target_i = prng(token + i + "d", difficulty)]; otherwise the whole
    redemption fails with the message [Invalid solution].  The entries
    are any numbers: each enters the digest as the platform prints it. *)
Theorem redeem_all_or_nothing (token : jsstring) (solutions : value)
  (challengeData : ChallengeData) (w : World) :
  invalidBody token solutions = false ->
  challengesList w !! token = Some challengeData ->
  clock w <= expires challengeData ->
  exists (r : RedeemResponse) (w' : World),
    redeemChallenge memory {| token := token; solutions := solutions |} w
    = Returned r w'
    /\ (success r = true
        <-> forall i : Z,
              1 <= i <= c (challenge challengeData) ->
              Spec.solved token (challenge challengeData) solutions i)
    /\ (success r = false -> message r = Some (lit "Invalid solution")).
Proof.
  intros Hbody Hstored Hlive.
  destruct (invalidBody_false token solutions Hbody)
    as [_ [items [-> Hnum]]].
  rewrite redeemChallenge_memory, Hbody, Hstored. cbv zeta.
  destruct (Z.ltb_spec (expires challengeData) (clock w)) as [Hlt|_]; [lia|].
  pose proof (isValidArr_every token challengeData items Hnum) as Hall.
  destruct (forallb (fun b => b)
                    (isValidArr token challengeData (VArray items)));
    cbn [negb]; eexists; eexists; (split; [reflexivity|]);
    cbn [success message failed].
  - split; [tauto|discriminate].
  - split; [|reflexivity]. split; [discriminate|].
    intros H. apply Hall in H. discriminate H.
Qed.

(** The scenario: both puzzles solved. *)
Lemma redeem_all_or_nothing_witness :
  exists (r : RedeemResponse) (w' : World),
    redeemChallenge memory Scenario.solved_body Scenario.created
    = Returned r w'
    /\ (success r = true
        <-> forall i : Z,
              1 <= i <= 2 ->
              Spec.solved Scenario.T (challenge Scenario.stored)
                          (VArray [VNumber (int 15); VNumber (int 7)]) i)
    /\ (success r = false -> message r = Some (lit "Invalid solution")).
Proof.
  apply (redeem_all_or_nothing
           Scenario.T (VArray [VNumber (int 15); VNumber (int 7)])
           Scenario.stored Scenario.created).
  - vm_compute. reflexivity.
  - vm_compute. reflexivity.
  - vm_compute. discriminate.
Defined.

(** What the scenario returns. *)
Example scenario_redeemed :
  redeemChallenge memory Scenario.solved_body Scenario.created
  = Returned
      {| success := true; message := None;
         rr_token :=
           Some (lit "1b222930373e454c:b2b9c0c7ced5dce3eaf1f8ff060d14");
         rr_expires := Some 1201000 |}
      Scenario.redeemed.
Proof.
  unfold Scenario.redeemed. apply returned. vm_compute. reflexivity.
Qed.

(** The same challenge redeemed with 2^64 and 9e21, as they print. *)
Example scenario_wide_numbers :
  invalidBody Scenario.T (solutions Scenario.wide_body) = false
  /\ Scenario.result_of
       (redeemChallenge memory Scenario.wide_body Scenario.created)
     = Some Scenario.answer.
Proof.
  split; vm_compute; reflexivity.
Qed.

(** C2.  A redemption attempt whose body passes the input guard deletes
    the record of its token from the challenge store, whatever the
    outcome; any further attempt with the same token then fails with
    [Challenge invalid or expired], so a challenge is redeemed at most
    once. *)
Theorem redeem_consumes_challenge (token : jsstring) (solutions : value)
  (w : World) :
  invalidBody token solutions = false ->
  exists (r : RedeemResponse) (w' : World),
    redeemChallenge memory {| token := token; solutions := solutions |} w
    = Returned r w'
    /\ challengesList w' = delete token (challengesList w)
    /\ challengesList w' !! token = None
    /\ forall solutions' : value,
         invalidBody token solutions' = false ->
         exists w'' : World,
           redeemChallenge memory
             {| token := token; solutions := solutions' |} w'
           = Returned (failed "Challenge invalid or expired") w''.
Proof.
  intros Hbody.
  assert (Hagain : forall w' : World,
            challengesList w' = delete token (challengesList w) ->
            challengesList w' !! token = None
            /\ forall solutions' : value,
                 invalidBody token solutions' = false ->
                 exists w'' : World,
                   redeemChallenge memory
                     {| token := token; solutions := solutions' |} w'
                   = Returned (failed "Challenge invalid or expired") w'').
  { intros w' Hw'.
    assert (Hgone : challengesList w' !! token = None)
      by (rewrite Hw'; apply lookup_delete_eq).
    split; [exact Hgone|]. intros solutions' Hbody'.
    rewrite redeemChallenge_memory, Hbody', Hgone. eexists. reflexivity. }
  rewrite redeemChallenge_memory, Hbody. cbv zeta.
  destruct (challengesList w !! token) as [challengeData|].
  2: { eexists; eexists. split; [reflexivity|].
       split; [reflexivity|]. apply Hagain. reflexivity. }
  destruct (expires challengeData <? clock w).
  { eexists; eexists. split; [reflexivity|].
    split; [reflexivity|]. apply Hagain. reflexivity. }
  destruct (negb (forallb (fun b => b)
                          (isValidArr token challengeData solutions)));
    eexists; eexists; (split; [reflexivity|]);
    (split; [reflexivity|]); apply Hagain; reflexivity.
Qed.

(** The scenario: the solved challenge is gone after its redemption. *)
Lemma redeem_consumes_challenge_witness :
  exists (r : RedeemResponse) (w' : World),
    redeemChallenge memory Scenario.solved_body Scenario.created
    = Returned r w'
    /\ challengesList w'
       = delete Scenario.T (challengesList Scenario.created)
    /\ challengesList w' !! Scenario.T = None
    /\ forall solutions' : value,
         invalidBody Scenario.T solutions' = false ->
         exists w'' : World,
           redeemChallenge memory
             {| token := Scenario.T; solutions := solutions' |} w'
           = Returned (failed "Challenge invalid or expired") w''.
Proof.
  apply (redeem_consumes_challenge
           Scenario.T (VArray [VNumber (int 15); VNumber (int 7)])
           Scenario.created).
  vm_compute. reflexivity.
Defined.

Section Length.


Lemma invalidBody_numbers (token : jsstring) (items : list value) :
  token <> [] -> forallb isNumber items = true ->
  invalidBody token (VArray items) = false.
Proof.
  intros Htok Hnum. unfold invalidBody.
  destruct token as [|ch token]; [contradiction|]. cbn.
  induction items as [|x items IH]; [reflexivity|].
  cbn [forallb existsb] in *. apply andb_true_iff in Hnum as [Hx Hrest].
  rewrite Hx. cbn [negb orb]. apply IH. exact Hrest.
Qed.


End Length.




(** ** Token issuance *)

Section Issue.

Lemma join_empty (parts : list jsstring) : join [] parts = List.concat parts.
Proof.
  induction parts as [|p parts IH]; [reflexivity|].
  cbn [join List.concat]. destruct parts as [|q parts].
  - now rewrite app_nil_r.
  - now rewrite IH.
Qed.

(** Bytes are rendered on two hex characters each. *)
Lemma hexOfBytes_bytes (bytes : list Z) :
  Forall (fun b => 0 <= b < 256) bytes ->
  hexOfBytes bytes = List.concat (List.map (Spec.hexFixed 2) bytes).
Proof.
  intros H. unfold hexOfBytes. rewrite join_empty. f_equal.
  induction H as [|b bytes Hb _ IH]; [reflexivity|].
  cbn [List.map]. rewrite IH. f_equal.
  apply toString16_padStart; [lia|]. change (16 ^ Z.of_nat 2) with 256. lia.
Qed.

Lemma hexOfBytes_length (bytes : list Z) :
  Forall (fun b => 0 <= b < 256) bytes ->
  length (hexOfBytes bytes) = (2 * length bytes)%nat.
Proof.
  intros H. rewrite hexOfBytes_bytes by exact H. clear H.
  induction bytes as [|b bytes IH]; [reflexivity|].
  cbn [List.map List.concat length].
  rewrite length_app, hexFixed_length, IH. lia.
Qed.

Lemma hexOfBytes_alphabet (bytes : list Z) :
  Forall (fun b => 0 <= b < 256) bytes ->
  forallb Spec.isHexChar (hexOfBytes bytes) = true.
Proof.
  intros H. rewrite hexOfBytes_bytes by exact H. clear H.
  induction bytes as [|b bytes IH]; [reflexivity|].
  cbn [List.map List.concat]. now rewrite forallb_app, hexFixed_alphabet, IH.
Qed.

Lemma randomBytes_bytes (w : World) (n : nat) :
  Forall (fun b => 0 <= b < 256) (randomBytes w n).
Proof.
  unfold randomBytes. apply List.Forall_forall. intros b Hb.
  apply in_map_iff in Hb as [i [<- _]]. apply Z.mod_pos_bound. lia.
Qed.

Lemma randomBytes_length (w : World) (n : nat) : length (randomBytes w n) = n.
Proof. unfold randomBytes. now rewrite length_map, length_seq. Qed.

Lemma randomHex_length (w : World) (n : nat) :
  length (hexOfBytes (randomBytes w n)) = (2 * n)%nat.
Proof.
  rewrite hexOfBytes_length by apply randomBytes_bytes.
  now rewrite randomBytes_length.
Qed.

Lemma be32_bytes (x : Z) : Forall (fun b => 0 <= b < 256) (SHA256.be32 x).
Proof. unfold SHA256.be32. repeat constructor; apply Z.mod_pos_bound; lia. Qed.

(** A digest is 32 bytes, whatever the message. *)
Lemma digest_bytes (msg : list Z) :
  Forall (fun b => 0 <= b < 256) (SHA256.digest msg)
  /\ length (SHA256.digest msg) = 32%nat.
Proof.
  unfold SHA256.digest. cbv zeta.
  set (h := fold_left SHA256.compress _ SHA256.H0). split.
  - repeat (apply Forall_app; split); apply be32_bytes.
  - reflexivity.
Qed.

Lemma sha256Hex_length (input : jsstring) : length (sha256Hex input) = 64%nat.
Proof.
  unfold sha256Hex. destruct (digest_bytes (utf8_encode input)) as [Hb Hl].
  now rewrite hexOfBytes_length, Hl by exact Hb.
Qed.

Lemma sha256Hex_alphabet (input : jsstring) :
  forallb Spec.isHexChar (sha256Hex input) = true.
Proof.
  unfold sha256Hex. apply hexOfBytes_alphabet, digest_bytes.
Qed.

(** The answer of a successful redemption, read off the closed form. *)
Lemma redeem_success (token : jsstring) (solutions : value)
  (r : RedeemResponse) (w w' : World) :
  redeemChallenge memory {| token := token; solutions := solutions |} w
  = Returned r w' ->
  success r = true ->
  let vertoken := hexOfBytes (randomBytes w 15) in
  let id := hexOfBytes (randomBytes (advance 15 w) 8) in
  let tokenKey := id ++ lit ":" ++ sha256Hex vertoken in
  r = {| success := true; message := None;
         rr_token := Some (id ++ lit ":" ++ vertoken);
         rr_expires := Some (clock w + 20 * 60 * 1000) |}
  /\ w' = withTokens (insert tokenKey (clock w + 20 * 60 * 1000))
            (logged (TokenStore tokenKey)
               (advance 8 (advance 15
                  (withChallenges (delete token)
                     (logged (ChallengeDelete token)
                             (logged (ChallengeRead token) w)))))).
Proof.
  rewrite redeemChallenge_memory. cbv zeta. intros Hrun Hok.
  destruct (invalidBody token solutions).
  { injection Hrun as <- <-. discriminate Hok. }
  destruct (challengesList w !! token) as [challengeData|].
  2: { injection Hrun as <- <-. discriminate Hok. }
  destruct (expires challengeData <? clock w).
  { injection Hrun as <- <-. discriminate Hok. }
  destruct (negb (forallb (fun b => b)
                          (isValidArr token challengeData solutions))).
  { injection Hrun as <- <-. discriminate Hok. }
  injection Hrun as <- <-. split; reflexivity.
Qed.

End Issue.

(** X28.  On every successful redemption the secret is the hex of the
    next 15 bytes of [crypto.getRandomValues] (30 hex characters) and the
    id the hex of the 8 bytes after them (16 hex characters); the expiry
    is the current time plus 20 minutes; the token store gains exactly the
    key [id:sha256Hex(secret)], mapped to that expiry; the answer carries
    the token [id:secret] and the expiry.  What the stored key holds after
    the id is the digest of the secret, 64 hex characters, which is not
    the 30-character secret, so the key is not the token handed out.
    (Whether a secret can occur somewhere inside its own digest is a
    question about SHA-256 that is left open here.) *)
Theorem issued_token (body : Solution) (r : RedeemResponse) (w w' : World) :
  redeemChallenge memory body w = Returned r w' ->
  success r = true ->
  let secret := hexOfBytes (randomBytes w 15) in
  let id := hexOfBytes (randomBytes (advance 15 w) 8) in
  let expiresAt := clock w + 20 * 60 * 1000 in
  let key := id ++ lit ":" ++ sha256Hex secret in
  (length secret = 30%nat /\ forallb Spec.isHexChar secret = true)
  /\ (length id = 16%nat /\ forallb Spec.isHexChar id = true)
  /\ expiresAt = clock w + 1200000
  /\ tokensList w' = <[key := expiresAt]> (tokensList w)
  /\ rr_token r = Some (id ++ lit ":" ++ secret)
  /\ rr_expires r = Some expiresAt
  /\ (length (sha256Hex secret) = 64%nat
      /\ forallb Spec.isHexChar (sha256Hex secret) = true
      /\ sha256Hex secret <> secret
      /\ key <> id ++ lit ":" ++ secret).
Proof.
  destruct body as [token solutions]. intros Hrun Hok. cbv zeta.
  destruct (redeem_success token solutions r w w' Hrun Hok) as [-> ->].
  assert (Hsecret : length (hexOfBytes (randomBytes w 15)) = 30%nat)
    by apply randomHex_length.
  assert (Hdigest : sha256Hex (hexOfBytes (randomBytes w 15))
                    <> hexOfBytes (randomBytes w 15)).
  { intros E. apply (f_equal (@length Z)) in E.
    rewrite sha256Hex_length, Hsecret in E. discriminate E. }
  split; [split; [exact Hsecret|apply hexOfBytes_alphabet, randomBytes_bytes]|].
  split; [split; [apply randomHex_length
                 |apply hexOfBytes_alphabet, randomBytes_bytes]|].
  split; [lia|]. split; [reflexivity|].
  split; [reflexivity|]. split; [reflexivity|].
  split; [apply sha256Hex_length|].
  split; [apply sha256Hex_alphabet|].
  split; [exact Hdigest|].
  intros E. apply app_inv_head in E. apply app_inv_head in E.
  exact (Hdigest E).
Qed.

(** The scenario: the token issued for the two solved puzzles. *)
Lemma issued_token_witness :
  let secret := hexOfBytes (randomBytes Scenario.created 15) in
  let id := hexOfBytes (randomBytes (advance 15 Scenario.created) 8) in
  let key := id ++ lit ":" ++ sha256Hex secret in
  tokensList Scenario.redeemed
  = <[key := clock Scenario.created + 20 * 60 * 1000]>
      (tokensList Scenario.created)
  /\ rr_token Scenario.answer = Some (id ++ lit ":" ++ secret).
Proof.
  assert (Hrun : redeemChallenge memory Scenario.solved_body Scenario.created
                 = Returned Scenario.answer Scenario.redeemed)
    by (unfold Scenario.redeemed; apply returned; vm_compute; reflexivity).
  pose proof (issued_token Scenario.solved_body Scenario.answer
                Scenario.created Scenario.redeemed Hrun eq_refl) as H.
  cbv zeta in H. cbv zeta.
  destruct H as [_ [_ [_ [Hstore [Htoken _]]]]].
  split; [exact Hstore|exact Htoken].
Defined.

(** C9.  [createChallenge({challengeCount: 0})] keeps the count 0 and
    stores such a challenge (with the expiry [now + expiresMs] where that
    sum is a safe integer, so exact in doubles); and for every stored
    challenge of count 0 that has not expired, [redeemChallenge(token, [])]
    succeeds and issues a verification token, stored under
    [id:sha256Hex(secret)]: no puzzle is checked. *)
Theorem zero_count_needs_no_work :
  (forall (conf : ChallengeConfig) (w : World),
     challengeCount conf = Some 0 ->
     exists (resp : ChallengeResponse) (w1 : World),
       createChallenge memory (Some conf) w = Returned resp w1
       /\ c (cr_challenge resp) = 0
       /\ (store conf <> Some false ->
           exists (T : jsstring) (challengeData : ChallengeData),
             cr_token resp = Some T /\ T <> []
             /\ challengesList w1 !! T = Some challengeData
             /\ challenge challengeData = cr_challenge resp
             /\ c (challenge challengeData) = 0
             /\ clock w1 = clock w
             /\ (safeInteger (clock w + nullish (expiresMs conf) 600000) ->
                 expires challengeData
                 = clock w + nullish (expiresMs conf) 600000)))
  /\ (forall (token : jsstring) (challengeData : ChallengeData) (w : World),
        token <> [] ->
        challengesList w !! token = Some challengeData ->
        c (challenge challengeData) = 0 ->
        clock w <= expires challengeData ->
        exists (r : RedeemResponse) (w' : World) (id secret : jsstring),
          redeemChallenge memory {| token := token; solutions := VArray [] |} w
          = Returned r w'
          /\ success r = true
          /\ rr_token r = Some (id ++ lit ":" ++ secret)
          /\ tokensList w' !! (id ++ lit ":" ++ sha256Hex secret)
             = Some (clock w + 1200000)).
Proof.
  split.
  - intros conf w Hzero. rewrite createChallenge_memory. cbv zeta.
    cbn [optField]. rewrite Hzero. cbn [nullish].
    destruct (store conf) as [[|]|] eqn:Hstore.
    1, 3: eexists; eexists; split; [reflexivity|]; split; [reflexivity|];
      intros _; eexists; eexists; split; [reflexivity|]; split;
      [intros E; apply (f_equal (@length Z)) in E;
       rewrite randomHex_length in E; discriminate E|];
      split; [apply lookup_insert_eq|];
      split; [reflexivity|]; split; [reflexivity|]; split; [reflexivity|];
      intros _; reflexivity.
    eexists; eexists. split; [reflexivity|]. split; [reflexivity|].
    intros H. contradiction.
  - intros token challengeData w Htok Hstored Hzero Hlive.
    rewrite redeemChallenge_memory.
    rewrite (invalidBody_numbers token [] Htok eq_refl), Hstored. cbv zeta.
    destruct (Z.ltb_spec (expires challengeData) (clock w)) as [Hlt|_]; [lia|].
    unfold isValidArr. rewrite Hzero. cbn [Z.to_nat challengesFrom imap forallb negb].
    eexists; eexists; eexists; eexists.
    split; [reflexivity|]. split; [reflexivity|]. split; [reflexivity|].
    cbn [tokensList withTokens]. rewrite lookup_insert_eq. reflexivity.
Qed.

(** A challenge created with count 0 and redeemed with no solution. *)
Lemma zero_count_needs_no_work_witness :
  exists (r : RedeemResponse) (w' : World) (id secret : jsstring),
    redeemChallenge memory
      {| token := Scenario.T; solutions := VArray [] |} Scenario.created0
    = Returned r w'
    /\ success r = true
    /\ rr_token r = Some (id ++ lit ":" ++ secret)
    /\ tokensList w' !! (id ++ lit ":" ++ sha256Hex secret)
       = Some (clock Scenario.created0 + 1200000).
Proof.
  apply (proj2 zero_count_needs_no_work Scenario.T Scenario.stored0
               Scenario.created0).
  - discriminate.
  - vm_compute. reflexivity.
  - reflexivity.
  - vm_compute. discriminate.
Defined.

(** The call that made that challenge: the count stays 0, and it is
    stored with the expiry 1000 + 600000. *)
Example scenario_created0 :
  Scenario.result_of
    (createChallenge memory (Some Scenario.conf0) (initial 1000 3))
  = Some {| cr_challenge := challenge Scenario.stored0;
            cr_token := Some Scenario.T; cr_expires := 601000 |}
  /\ challengesList Scenario.created0 !! Scenario.T = Some Scenario.stored0.
Proof.
  split; vm_compute; reflexivity.
Qed.

(** ** Token validation *)

Section Split.

Lemma split_nonempty (sep : Z) (str : jsstring) : split sep str <> [].
Proof.
  destruct str as [|ch str]; cbn [split]; [discriminate|].
  destruct (ch =? sep); [discriminate|].
  destruct (split sep str); discriminate.
Qed.

(** Splitting cuts at every separator: the parts hold none, and joining
    them gives the string back. *)
Lemma split_join (sep : Z) (str : jsstring) :
  join [sep] (split sep str) = str
  /\ Forall (fun part => ~ In sep part) (split sep str).
Proof.
  induction str as [|ch str [IHj IHf]]; cbn [split].
  - split; [reflexivity|]. repeat constructor. intros [].
  - destruct (Z.eqb_spec ch sep) as [->|Hne].
    + pose proof (split_nonempty sep str) as Hn.
      destruct (split sep str) as [|p ps]; [contradiction|].
      split.
      * change (join [sep] ([] :: p :: ps))
          with ([] ++ [sep] ++ join [sep] (p :: ps)).
        now rewrite IHj.
      * constructor; [intros []|exact IHf].
    + pose proof (split_nonempty sep str) as Hn.
      destruct (split sep str) as [|p ps]; [contradiction|].
      apply Forall_cons in IHf as [Hp Hps]. split.
      * destruct ps as [|q ps].
        -- cbn [join] in *. now rewrite IHj.
        -- change (join [sep] ((ch :: p) :: q :: ps))
             with (ch :: join [sep] (p :: q :: ps)).
           now rewrite IHj.
      * constructor; [|exact Hps].
        intros [E|Hin]; [exact (Hne E)|exact (Hp Hin)].
Qed.

Lemma split_none (sep : Z) (str : jsstring) :
  ~ In sep str -> split sep str = [str].
Proof.
  induction str as [|ch str IH]; intros Hnot; [reflexivity|].
  cbn [split]. destruct (Z.eqb_spec ch sep) as [->|Hne].
  - exfalso. apply Hnot. left. reflexivity.
  - rewrite IH; [reflexivity|]. intros Hin. apply Hnot. right. exact Hin.
Qed.

Lemma split_at (sep : Z) (a b : jsstring) :
  ~ In sep a -> split sep (a ++ sep :: b) = a :: split sep b.
Proof.
  induction a as [|ch a IH]; intros Hnot.
  - cbn [app split]. now rewrite Z.eqb_refl.
  - cbn [app split]. destruct (Z.eqb_spec ch sep) as [->|Hne].
    + exfalso. apply Hnot. left. reflexivity.
    + rewrite IH; [reflexivity|]. intros Hin. apply Hnot. right. exact Hin.
Qed.

(** The tokens that pass the guards are the strings [id:secret] with both
    parts non-empty and free of [":"]. *)
Lemma parseToken_Some (token : value) (id secret : jsstring) :
  parseToken token = Some (id, secret)
  <-> token = VString (id ++ lit ":" ++ secret)
      /\ id <> [] /\ secret <> []
      /\ ~ In 58 id /\ ~ In 58 secret.
Proof.
  split.
  - unfold parseToken. destruct token as [| |b|n|str|items]; try discriminate.
    destruct (negb (truthy (VString str))); [discriminate|].
    destruct (split_join 58 str) as [Hj Hf].
    destruct (split 58 str) as [|a [|b [|x rest]]]; try discriminate.
    destruct a as [|ca a]; [discriminate|].
    destruct b as [|cb b]; [discriminate|].
    cbn. intros E. injection E as <- <-.
    apply Forall_cons in Hf as [Ha Hf]. apply Forall_cons in Hf as [Hb _].
    cbn [join] in Hj. rewrite <- Hj.
    repeat split; try discriminate; assumption.
  - intros [-> [Hid [Hsec [Hnid Hnsec]]]]. unfold parseToken.
    change (lit ":" ++ secret) with (58 :: secret).
    rewrite split_at, split_none by assumption.
    destruct id as [|ci id]; [contradiction|].
    destruct secret as [|cs secret]; [contradiction|]. reflexivity.
Qed.

End Split.

Section Validate.

(** A token that fails the guards is rejected by the engine alone,
    whatever the hooks are. *)
Lemma validateToken_rejects (config : CapConfig) (token : value)
  (conf : option TokenConfig) (w : World) :
  parseToken token = None ->
  validateToken config token conf w = Returned false w.
Proof.
  unfold parseToken, validateToken.
  destruct token as [| |b|n|str|items]; try reflexivity.
  destruct (negb (truthy (VString str))); [reflexivity|].
  destruct (split 58 str) as [|id [|vertoken [|x rest]]]; try reflexivity.
  destruct (negb (truthy (VString id)) || negb (truthy (VString vertoken)));
    [reflexivity|discriminate].
Qed.

(** A token that passes them is looked up first. *)
Lemma validateToken_looks_up (token : value) (conf : option TokenConfig)
  (id secret : jsstring) (w : World) :
  parseToken token = Some (id, secret) ->
  exists (b : bool) (w' : World) (rest : list Access),
    validateToken memory token conf w = Returned b w'
    /\ accesses w'
       = accesses w ++ TokenGet (id ++ lit ":" ++ sha256Hex secret) :: rest.
Proof.
  intros Hparse. rewrite validateToken_memory, Hparse. cbv zeta.
  destruct (tokensList w !! (id ++ lit ":" ++ sha256Hex secret))
    as [tokenExpires|]; [|exists false; eexists; exists []; split; reflexivity].
  destruct (tokenExpires =? 0);
    [exists false; eexists; exists []; split; reflexivity|].
  destruct (clock w <? tokenExpires);
    [|exists false; eexists; exists []; split; reflexivity].
  destruct (optField conf keepToken) as [[|]|].
  1: exists true; eexists; exists []; split; reflexivity.
  all: exists true; eexists; eexists; split; [reflexivity|];
    cbn [accesses withTokens logged]; rewrite <- app_assoc; reflexivity.
Qed.

(** On the in-memory backend the call always returns. *)
Lemma validateToken_returns (token : value) (conf : option TokenConfig)
  (w : World) :
  exists (b : bool) (w' : World),
    validateToken memory token conf w = Returned b w'.
Proof.
  destruct (parseToken token) as [[id secret]|] eqn:Hparse.
  - destruct (validateToken_looks_up token conf id secret w Hparse)
      as [b [w' [_ [H _]]]].
    exists b, w'. exact H.
  - exists false, w. now apply validateToken_rejects.
Qed.

End Validate.

(** C4 (as amended).  [validateToken] splits the token at every [":"].  It
    goes on exactly with the strings [id:secret] whose two parts are
    non-empty and hold no [":"]; every other token (not a string, empty,
    without [":"], with more than one [":"], or with an empty part) is
    answered with failure and no hook is called, whatever the backend.
    For a token it goes on with, the first hook call is the lookup of
    [id:sha256Hex(secret)] in the token store. *)
Theorem validateToken_guard (token : value) (conf : option TokenConfig) :
  (forall id secret : jsstring,
     parseToken token = Some (id, secret)
     <-> token = VString (id ++ lit ":" ++ secret)
         /\ id <> [] /\ secret <> []
         /\ ~ In 58 id /\ ~ In 58 secret)
  /\ (parseToken token = None ->
      forall (config : CapConfig) (w : World),
        validateToken config token conf w = Returned false w)
  /\ (forall id secret : jsstring,
        parseToken token = Some (id, secret) ->
        forall w : World,
        exists (b : bool) (w' : World) (rest : list Access),
          validateToken memory token conf w = Returned b w'
          /\ accesses w'
             = accesses w
               ++ TokenGet (id ++ lit ":" ++ sha256Hex secret) :: rest).
Proof.
  split; [intros id secret; apply parseToken_Some|].
  split.
  - intros Hnone config w. now apply validateToken_rejects.
  - intros id secret Hparse w. now apply validateToken_looks_up.
Qed.

(** A token without separator is turned away by any backend; the token
    issued in the scenario is looked up under its hashed key. *)
Lemma validateToken_guard_witness :
  validateToken down (VString (lit "abc")) None Scenario.redeemed
  = Returned false Scenario.redeemed
  /\ exists (b : bool) (w' : World) (rest : list Access),
       validateToken memory Scenario.V None Scenario.redeemed = Returned b w'
       /\ accesses w'
          = accesses Scenario.redeemed
            ++ TokenGet
                 (lit "1b222930373e454c" ++ lit ":"
                  ++ sha256Hex (lit "b2b9c0c7ced5dce3eaf1f8ff060d14"))
               :: rest.
Proof.
  split.
  - apply (proj1 (proj2 (validateToken_guard (VString (lit "abc")) None))).
    reflexivity.
  - apply (proj2 (proj2 (validateToken_guard Scenario.V None))).
    reflexivity.
Defined.

(** C4 (as stated) fails on a token with two separators: cut at its first
    [":"], ["a:b:c"] has the non-empty parts ["a"] and ["b:c"], yet
    [validateToken] fails without any hook call, where the claim has the
    key looked up. *)
Lemma validateToken_two_colons :
  Spec.cutFirst (lit "a:b:c") = Some (lit "a", lit "b:c")
  /\ Spec.malformed (VString (lit "a:b:c")) = false
  /\ exists w' : World,
       validateToken memory (VString (lit "a:b:c")) None Scenario.redeemed
       = Returned false w'
       /\ accesses w' = accesses Scenario.redeemed.
Proof.
  split; [reflexivity|]. split; [reflexivity|].
  exists Scenario.redeemed. split; [|reflexivity].
  apply validateToken_rejects. reflexivity.
Qed.

(** C7.  A successful [validateToken] found the record [id:hash] with an
    expiry in the future.  Without [keepToken] it deletes the record, and
    a second call with the same token fails.  With [keepToken] the token
    store is unchanged, and any later call succeeds as long as the record
    is still there and its expiry still ahead; once the clock reaches the
    expiry it fails. *)
Theorem validate_single_use (token : value) (conf : option TokenConfig)
  (w w' : World) :
  validateToken memory token conf w = Returned true w' ->
  exists (id secret : jsstring) (tokenExpires : Z),
    let key := id ++ lit ":" ++ sha256Hex secret in
    parseToken token = Some (id, secret)
    /\ tokensList w !! key = Some tokenExpires
    /\ clock w < tokenExpires
    /\ (optField conf keepToken <> Some true ->
        tokensList w' = delete key (tokensList w)
        /\ forall conf' : option TokenConfig,
           exists w'' : World,
             validateToken memory token conf' w' = Returned false w'')
    /\ (optField conf keepToken = Some true ->
        tokensList w' = tokensList w
        /\ (forall conf' : option TokenConfig,
            exists w'' : World,
              validateToken memory token conf' w' = Returned true w'')
        /\ (forall (conf' : option TokenConfig) (later : World),
              tokensList later !! key = Some tokenExpires ->
              exists later' : World,
                validateToken memory token conf' later
                = Returned (clock later <? tokenExpires) later')).
Proof.
  rewrite validateToken_memory.
  destruct (parseToken token) as [[id secret]|] eqn:Hparse; [|discriminate].
  cbv zeta.
  destruct (tokensList w !! (id ++ lit ":" ++ sha256Hex secret))
    as [tokenExpires|] eqn:Hget; [|discriminate].
  destruct (Z.eqb_spec tokenExpires 0) as [|Hnz]; [discriminate|].
  destruct (Z.ltb_spec (clock w) tokenExpires) as [Hlive|]; [|discriminate].
  intros Hrun. exists id, secret, tokenExpires.
  split; [reflexivity|]. split; [exact Hget|]. split; [exact Hlive|].
  assert (Hlater : forall (conf' : option TokenConfig) (later : World),
            tokensList later !! (id ++ lit ":" ++ sha256Hex secret)
            = Some tokenExpires ->
            exists later' : World,
              validateToken memory token conf' later
              = Returned (clock later <? tokenExpires) later').
  { intros conf' later Hthere.
    rewrite validateToken_memory, Hparse. cbv zeta. rewrite Hthere.
    destruct (Z.eqb_spec tokenExpires 0) as [|_]; [contradiction|].
    destruct (clock later <? tokenExpires); [|eexists; reflexivity].
    destruct (optField conf' keepToken) as [[|]|]; eexists; reflexivity. }
  split.
  - intros Hkeep.
    assert (Hw' : w' = withTokens
                         (delete (id ++ lit ":" ++ sha256Hex secret))
                         (logged (TokenDelete (id ++ lit ":" ++ sha256Hex secret))
                            (logged (TokenGet (id ++ lit ":" ++ sha256Hex secret)) w))).
    { destruct (optField conf keepToken) as [[|]|];
        [contradiction|congruence|congruence]. }
    subst w'. split; [reflexivity|]. intros conf'.
    rewrite validateToken_memory, Hparse. cbv zeta.
    cbn [tokensList withTokens logged]. rewrite lookup_delete_eq.
    eexists. reflexivity.
  - intros Hkeep. rewrite Hkeep in Hrun.
    assert (Hw' : logged (TokenGet (id ++ lit ":" ++ sha256Hex secret)) w = w')
      by congruence.
    subst w'. split; [reflexivity|]. split; [|exact Hlater].
    intros conf'. destruct (Hlater conf' (logged (TokenGet (id ++ lit ":" ++ sha256Hex secret)) w) Hget)
      as [w'' Hw''].
    exists w''. rewrite Hw''. cbn [clock logged].
    destruct (Z.ltb_spec (clock w) tokenExpires); [reflexivity|lia].
Qed.

(** The token issued in the scenario, validated with the default, then
    presented again. *)
Lemma validate_single_use_witness :
  validateToken memory Scenario.V None Scenario.redeemed
  = Returned true Scenario.validated
  /\ exists w'' : World,
       validateToken memory Scenario.V None Scenario.validated
       = Returned false w''.
Proof.
  assert (Hrun : validateToken memory Scenario.V None Scenario.redeemed
                 = Returned true Scenario.validated)
    by (unfold Scenario.validated; apply returned; vm_compute; reflexivity).
  split; [exact Hrun|].
  destruct (validate_single_use Scenario.V None Scenario.redeemed
                                Scenario.validated Hrun)
    as [id [secret [tokenExpires [_ [_ [_ [Hdefault _]]]]]]].
  exact (proj2 (Hdefault ltac:(discriminate)) None).
Defined.

(** C10.  [validateToken] always returns; when it returns failure the
    token store is as before; the store changes only on success without
    [keepToken]; and a record whose expiry is not in the future is still
    there after the call. *)
Theorem validate_failure_keeps_store (token : value)
  (conf : option TokenConfig) (w : World) :
  exists (b : bool) (w' : World),
    validateToken memory token conf w = Returned b w'
    /\ (b = false -> tokensList w' = tokensList w)
    /\ (tokensList w' <> tokensList w ->
        b = true /\ optField conf keepToken <> Some true)
    /\ (forall (key : jsstring) (exp : Z),
          tokensList w !! key = Some exp -> exp <= clock w ->
          tokensList w' !! key = Some exp).
Proof.
  rewrite validateToken_memory.
  destruct (parseToken token) as [[id secret]|].
  2: { exists false, w. repeat split; try tauto. }
  cbv zeta.
  destruct (tokensList w !! (id ++ lit ":" ++ sha256Hex secret))
    as [tokenExpires|] eqn:Hget.
  2: { eexists; eexists. split; [reflexivity|]. cbn [tokensList logged].
       repeat split; try tauto. }
  destruct (tokenExpires =? 0).
  { eexists; eexists. split; [reflexivity|]. cbn [tokensList logged].
    repeat split; try tauto. }
  destruct (Z.ltb_spec (clock w) tokenExpires) as [Hlive|].
  2: { eexists; eexists. split; [reflexivity|]. cbn [tokensList logged].
       repeat split; try tauto. }
  destruct (optField conf keepToken) as [[|]|];
    eexists; eexists; (split; [reflexivity|]);
    cbn [tokensList withTokens logged].
  - repeat split; try tauto.
  - split; [discriminate|]. split; [split; [reflexivity|discriminate]|].
    intros key exp Hkey Hexp. rewrite lookup_delete_ne; [exact Hkey|].
    intros <-. rewrite Hget in Hkey. injection Hkey as <-. lia.
  - split; [discriminate|]. split; [split; [reflexivity|discriminate]|].
    intros key exp Hkey Hexp. rewrite lookup_delete_ne; [exact Hkey|].
    intros <-. rewrite Hget in Hkey. injection Hkey as <-. lia.
Qed.

(** The token of the scenario, presented after its expiry: the call
    fails and the record stays. *)
Lemma validate_failure_keeps_store_witness :
  exists w' : World,
    validateToken memory Scenario.V None Scenario.lapsed = Returned false w'
    /\ tokensList w' = tokensList Scenario.lapsed.
Proof.
  assert (Hc : validateToken memory Scenario.V None Scenario.lapsed
               = Returned false Scenario.lapsed_checked)
    by (unfold Scenario.lapsed_checked; apply returned; vm_compute;
        reflexivity).
  destruct (validate_failure_keeps_store Scenario.V None Scenario.lapsed)
    as [b [w' [Hrun [Hfail _]]]].
  assert (Hb : b = false) by congruence.
  exists w'. split; [congruence|exact (Hfail Hb)].
Defined.

(** ** Failures of the storage collaborator *)

Section Failures.

Lemma deleteChallenges_memory (keys : list jsstring) (w : World) :
  exists w' : World,
    promiseAll (List.map (_deleteChallenge memory) keys) w = Returned tt w'.
Proof.
  revert w. induction keys as [|k keys IH]; intros w.
  - exists w. reflexivity.
  - cbn [List.map promiseAll]. cbn. apply IH.
Qed.

Lemma deleteTokens_memory (keys : list jsstring) (w : World) :
  exists w' : World,
    promiseAll (List.map (_deleteToken memory) keys) w = Returned tt w'.
Proof.
  revert w. induction keys as [|k keys IH]; intros w.
  - exists w. reflexivity.
  - cbn [List.map promiseAll]. cbn. apply IH.
Qed.

Lemma cleanup_memory (w : World) :
  exists w' : World, cleanup memory w = Returned tt w'.
Proof.
  unfold cleanup, _cleanExpiredTokens, bind.
  cbn [memory storage challenges tokens memoryChallenges memoryTokens
       ChallengeStorage.listExpired TokenStorage.listExpired].
  match goal with
  | |- context [promiseAll (List.map (_deleteChallenge memory) ?keys) ?w0] =>
      destruct (deleteChallenges_memory keys w0) as [w1 ->]
  end.
  match goal with
  | |- context [promiseAll (List.map (_deleteToken memory) ?keys) ?w0] =>
      destruct (deleteTokens_memory keys w0) as [w2 ->]
  end.
  exists w2. reflexivity.
Qed.

(** [Promise.all]: it resolves when every call returns, and rejects as
    soon as one call rejects. *)
Lemma promiseAll_returns (ms : list (M unit)) :
  (forall m : M unit, In m ms -> returns m) -> returns (promiseAll ms).
Proof.
  induction ms as [|m ms IH]; intros Hall w.
  - exists tt, w. reflexivity.
  - destruct (Hall m (or_introl eq_refl) w) as [u [w1 Hm]].
    cbn [promiseAll]. rewrite Hm. apply IH.
    intros m' Hin. apply Hall. right. exact Hin.
Qed.

Lemma promiseAll_thrown (m : M unit) (rest : list (M unit)) (e : jsstring)
  (w w1 : World) :
  m w = Thrown e w1 ->
  exists w2 : World, promiseAll (m :: rest) w = Thrown e w2.
Proof.
  intros Hm. cbn [promiseAll]. rewrite Hm.
  destruct (promiseAll rest w1); eexists; reflexivity.
Qed.

Lemma promiseAll_first_failure (pre : list (M unit)) (m : M unit)
  (post : list (M unit)) (e : jsstring) (w w1 w2 : World) :
  promiseAll pre w = Returned tt w1 ->
  m w1 = Thrown e w2 ->
  exists w3 : World, promiseAll (pre ++ m :: post) w = Thrown e w3.
Proof.
  revert w. induction pre as [|a pre IH]; intros w Hpre Hm.
  - cbn [promiseAll] in Hpre. assert (w = w1) by congruence. subst w1.
    apply (promiseAll_thrown m post e w w2 Hm).
  - cbn [app promiseAll] in *. destruct (a w) as [u wa|e' wa].
    + apply IH; assumption.
    + destruct (promiseAll pre wa); discriminate Hpre.
Qed.

(** The two blocks of [_cleanExpiredTokens]. *)
Lemma cleanup_blocks (config : CapConfig) (w : World) :
  cleanup config w
  = match cleanChallenges config w with
    | Returned _ w1 =>
        match tokens (storage config) with
        | Some hooks =>
            match TokenStorage.listExpired hooks w1 with
            | Returned expiredTokens w2 =>
                promiseAll (List.map (_deleteToken config) expiredTokens) w2
            | Thrown e w2 => Thrown e w2
            end
        | None =>
            consoleWarn
              (lit "[cap] token storage hooks provided but no listExpired, couldn't delete expired tokens")
              w1
        end
    | Thrown e w1 => Thrown e w1
    end.
Proof.
  unfold cleanup, _cleanExpiredTokens, cleanChallenges.
  unfold bind at 1.
  match goal with
  | |- match ?block w with Returned _ _ => _ | Thrown _ _ => _ end = _ =>
      destruct (block w) as [u w1|e w1]; [|reflexivity]
  end.
  destruct (tokens (storage config)) as [hooks|]; reflexivity.
Qed.

(** *** With a backend that does not fail, every operation returns. *)

Lemma memory_reliable : reliable memory.
Proof.
  split; intros hooks Hhooks; injection Hhooks as <-;
    repeat split; intros; intros w; eexists; eexists; reflexivity.
Qed.

Lemma createChallenge_returns (config : CapConfig)
  (conf : option ChallengeConfig) :
  reliable config -> returns (createChallenge config conf).
Proof.
  intros [Hch _] w.
  unfold createChallenge, bind, randomHex, bind, getRandomValues, dateNow, ret.
  destruct (challenges (storage config)) as [hooks|] eqn:Hhooks.
  - destruct (Hch hooks eq_refl) as [Hstore _].
    destruct (optField conf store) as [[|]|];
      try (eexists; eexists; reflexivity);
      match goal with
      | |- context [ChallengeStorage.store hooks ?t ?data ?w0] =>
          destruct (Hstore t data w0) as [u [w1 ->]]
      end; eexists; eexists; reflexivity.
  - destruct (optField conf store) as [[|]|]; eexists; eexists; reflexivity.
Qed.

Lemma redeemChallenge_returns (config : CapConfig) (body : Solution) :
  reliable config -> returns (redeemChallenge config body).
Proof.
  intros [Hch Htk] w. destruct body as [token solutions].
  unfold redeemChallenge.
  destruct (invalidBody token solutions); [eexists; eexists; reflexivity|].
  unfold bind at 1. unfold _getChallenge.
  destruct (challenges (storage config)) as [ch|] eqn:Hhooks.
  2: { unfold ret at 1. unfold bind, _deleteChallenge, dateNow, ret.
       rewrite Hhooks. eexists; eexists; reflexivity. }
  destruct (Hch ch eq_refl) as [_ [Hread [Hdelete _]]].
  destruct (Hread token w) as [found [w1 ->]].
  unfold bind at 1. unfold _deleteChallenge. rewrite Hhooks.
  destruct (Hdelete token w1) as [u [w2 ->]].
  unfold bind at 1. unfold dateNow at 1.
  destruct found as [challengeData|]; [|eexists; eexists; reflexivity].
  destruct (expires challengeData <? clock w2);
    [eexists; eexists; reflexivity|].
  destruct (negb (forallb (fun b => b)
                          (isValidArr token challengeData solutions)));
    [eexists; eexists; reflexivity|].
  unfold bind, randomHex, bind, getRandomValues, dateNow, ret.
  destruct (tokens (storage config)) as [tk|] eqn:Htokens;
    [|eexists; eexists; reflexivity].
  destruct (Htk tk eq_refl) as [Hstore _].
  match goal with
  | |- context [TokenStorage.store tk ?key ?exp ?w0] =>
      destruct (Hstore key exp w0) as [u' [w3 ->]]
  end.
  eexists; eexists; reflexivity.
Qed.

Lemma validateToken_total (config : CapConfig) (token : value)
  (conf : option TokenConfig) :
  reliable config -> returns (validateToken config token conf).
Proof.
  intros [_ Htk] w. unfold validateToken.
  destruct token as [| |b|n|str|items]; try (eexists; eexists; reflexivity).
  destruct (negb (truthy (VString str))); [eexists; eexists; reflexivity|].
  destruct (split 58 str) as [|id [|vertoken [|x rest]]];
    try (eexists; eexists; reflexivity).
  destruct (negb (truthy (VString id)) || negb (truthy (VString vertoken)));
    [eexists; eexists; reflexivity|].
  cbv zeta. unfold bind at 1. unfold _getToken.
  destruct (tokens (storage config)) as [tk|] eqn:Htokens;
    [|eexists; eexists; reflexivity].
  destruct (Htk tk eq_refl) as [_ [Hget [Hdelete _]]].
  destruct (Hget (id ++ lit ":" ++ sha256Hex vertoken) w) as [found [w1 ->]].
  destruct found as [tokenExpires|]; [|eexists; eexists; reflexivity].
  destruct (negb (truthy (VNumber (int tokenExpires))));
    [eexists; eexists; reflexivity|].
  unfold bind at 1. unfold dateNow at 1.
  destruct (clock w1 <? tokenExpires); [|eexists; eexists; reflexivity].
  unfold bind, _deleteToken, ret. rewrite Htokens.
  destruct (optField conf keepToken) as [[|]|];
    try (eexists; eexists; reflexivity);
    destruct (Hdelete (id ++ lit ":" ++ sha256Hex vertoken) w1)
      as [u [w2 ->]]; eexists; eexists; reflexivity.
Qed.

Lemma cleanup_returns (config : CapConfig) :
  reliable config -> returns (cleanup config).
Proof.
  intros [Hch Htk] w. rewrite cleanup_blocks.
  assert (Hfirst : exists w1 : World,
             cleanChallenges config w = Returned tt w1).
  { unfold cleanChallenges.
    destruct (challenges (storage config)) as [ch|] eqn:Hhooks;
      [|eexists; reflexivity].
    destruct (Hch ch eq_refl) as [_ [_ [Hdelete Hlist]]].
    unfold bind. destruct (Hlist w) as [keys [w1 ->]].
    destruct (promiseAll_returns
                (List.map (_deleteChallenge config) keys)) with (w := w1)
      as [[] [w2 Hall]]; [|exists w2; exact Hall].
    intros m Hin. apply in_map_iff in Hin as [k [<- _]].
    unfold _deleteChallenge. rewrite Hhooks. apply Hdelete. }
  destruct Hfirst as [w1 ->].
  destruct (tokens (storage config)) as [tk|] eqn:Htokens;
    [|eexists; eexists; reflexivity].
  destruct (Htk tk eq_refl) as [_ [_ [Hdelete Hlist]]].
  destruct (Hlist w1) as [keys [w2 ->]].
  apply promiseAll_returns.
  intros m Hin. apply in_map_iff in Hin as [k [<- _]].
  unfold _deleteToken. rewrite Htokens. apply Hdelete.
Qed.

(** *** A hook that rejects makes the operation reject. *)

Lemma create_store_rejects (config : CapConfig) (hooks : ChallengeStorage.t)
  (conf : option ChallengeConfig) (e : jsstring) (w w1 : World) :
  challenges (storage config) = Some hooks ->
  optField conf store <> Some false ->
  (forall exp : Z,
     ChallengeStorage.store hooks (hexOfBytes (randomBytes w 25))
       {| challenge :=
            {| c := nullish (optField conf challengeCount) 50;
               s := nullish (optField conf challengeSize) 32;
               d := nullish (optField conf challengeDifficulty) 4 |};
          expires := exp |}
       (advance 25 w)
     = Thrown e w1) ->
  createChallenge config conf w = Thrown e w1.
Proof.
  intros Hhooks Hstore Hfail.
  unfold createChallenge, bind, randomHex, bind, getRandomValues, dateNow, ret.
  rewrite Hhooks.
  destruct (optField conf store) as [[|]|];
    [now rewrite Hfail|contradiction|now rewrite Hfail].
Qed.

Lemma redeem_read_rejects (config : CapConfig) (hooks : ChallengeStorage.t)
  (token : jsstring) (solutions : value) (e : jsstring) (w w1 : World) :
  challenges (storage config) = Some hooks ->
  invalidBody token solutions = false ->
  ChallengeStorage.read hooks token w = Thrown e w1 ->
  redeemChallenge config {| token := token; solutions := solutions |} w
  = Thrown e w1.
Proof.
  intros Hhooks Hbody Hfail.
  unfold redeemChallenge. rewrite Hbody.
  unfold bind at 1. unfold _getChallenge. rewrite Hhooks, Hfail.
  reflexivity.
Qed.

Lemma redeem_delete_rejects (config : CapConfig) (hooks : ChallengeStorage.t)
  (token : jsstring) (solutions : value) (found : option ChallengeData)
  (e : jsstring) (w w1 w2 : World) :
  challenges (storage config) = Some hooks ->
  invalidBody token solutions = false ->
  ChallengeStorage.read hooks token w = Returned found w1 ->
  ChallengeStorage.delete hooks token w1 = Thrown e w2 ->
  redeemChallenge config {| token := token; solutions := solutions |} w
  = Thrown e w2.
Proof.
  intros Hhooks Hbody Hread Hfail.
  unfold redeemChallenge. rewrite Hbody.
  unfold bind at 1. unfold _getChallenge. rewrite Hhooks, Hread.
  unfold bind at 1. unfold _deleteChallenge. rewrite Hhooks, Hfail.
  reflexivity.
Qed.

Lemma redeem_store_rejects (config : CapConfig) (ch : ChallengeStorage.t)
  (tk : TokenStorage.t) (token : jsstring) (solutions : value)
  (challengeData : ChallengeData) (e : jsstring) (w w1 w2 w3 : World) :
  challenges (storage config) = Some ch ->
  tokens (storage config) = Some tk ->
  invalidBody token solutions = false ->
  ChallengeStorage.read ch token w = Returned (Some challengeData) w1 ->
  ChallengeStorage.delete ch token w1 = Returned tt w2 ->
  clock w2 <= expires challengeData ->
  forallb (fun b => b) (isValidArr token challengeData solutions) = true ->
  TokenStorage.store tk
    (hexOfBytes (randomBytes (advance 15 w2) 8)
       ++ lit ":" ++ sha256Hex (hexOfBytes (randomBytes w2 15)))
    (clock w2 + 20 * 60 * 1000)
    (advance 8 (advance 15 w2))
  = Thrown e w3 ->
  redeemChallenge config {| token := token; solutions := solutions |} w
  = Thrown e w3.
Proof.
  intros Hch Htk Hbody Hread Hdelete Hlive Hvalid Hfail.
  unfold redeemChallenge. rewrite Hbody.
  unfold bind at 1. unfold _getChallenge. rewrite Hch, Hread.
  unfold bind at 1. unfold _deleteChallenge. rewrite Hch, Hdelete.
  unfold bind at 1. unfold dateNow at 1.
  destruct (Z.ltb_spec (expires challengeData) (clock w2)) as [Hlt|_]; [lia|].
  rewrite Hvalid. cbn [negb].
  unfold bind, randomHex, bind, getRandomValues, dateNow, ret.
  rewrite Htk.
  change (clock (advance 15 w2)) with (clock w2).
  rewrite Hfail. reflexivity.
Qed.

Lemma validate_get_rejects (config : CapConfig) (hooks : TokenStorage.t)
  (token : value) (conf : option TokenConfig) (id secret e : jsstring)
  (w w1 : World) :
  tokens (storage config) = Some hooks ->
  parseToken token = Some (id, secret) ->
  TokenStorage.get hooks (id ++ lit ":" ++ sha256Hex secret) w = Thrown e w1 ->
  validateToken config token conf w = Thrown e w1.
Proof.
  intros Hhooks Hparse Hfail.
  unfold parseToken in Hparse. unfold validateToken.
  destruct token as [| |b|n|str|items]; try discriminate Hparse.
  destruct (negb (truthy (VString str))); [discriminate Hparse|].
  destruct (split 58 str) as [|a [|b [|x rest]]]; try discriminate Hparse.
  destruct (negb (truthy (VString a)) || negb (truthy (VString b)));
    [discriminate Hparse|].
  assert (Ha : a = id) by congruence. assert (Hb : b = secret) by congruence.
  subst a b.
  unfold bind at 1. unfold _getToken. rewrite Hhooks, Hfail. reflexivity.
Qed.

Lemma validate_delete_rejects (config : CapConfig) (hooks : TokenStorage.t)
  (token : value) (conf : option TokenConfig) (id secret : jsstring)
  (tokenExpires : Z) (e : jsstring) (w w1 w2 : World) :
  tokens (storage config) = Some hooks ->
  parseToken token = Some (id, secret) ->
  TokenStorage.get hooks (id ++ lit ":" ++ sha256Hex secret) w
  = Returned (Some tokenExpires) w1 ->
  tokenExpires <> 0 ->
  clock w1 < tokenExpires ->
  optField conf keepToken <> Some true ->
  TokenStorage.delete hooks (id ++ lit ":" ++ sha256Hex secret) w1
  = Thrown e w2 ->
  validateToken config token conf w = Thrown e w2.
Proof.
  intros Hhooks Hparse Hget Hnz Hlive Hkeep Hfail.
  unfold parseToken in Hparse. unfold validateToken.
  destruct token as [| |b|n|str|items]; try discriminate Hparse.
  destruct (negb (truthy (VString str))); [discriminate Hparse|].
  destruct (split 58 str) as [|a [|b [|x rest]]]; try discriminate Hparse.
  destruct (negb (truthy (VString a)) || negb (truthy (VString b)));
    [discriminate Hparse|].
  assert (Ha : a = id) by congruence. assert (Hb : b = secret) by congruence.
  subst a b. cbv zeta.
  unfold bind at 1. unfold _getToken. rewrite Hhooks, Hget.
  cbn [truthy negb falsy int].
  destruct (Z.eqb_spec tokenExpires 0) as [|_]; [contradiction|].
  cbn [negb]. unfold bind at 1. unfold dateNow at 1.
  destruct (Z.ltb_spec (clock w1) tokenExpires) as [_|]; [|lia].
  unfold bind, _deleteToken. rewrite Hhooks.
  destruct (optField conf keepToken) as [[|]|];
    [contradiction|now rewrite Hfail|now rewrite Hfail].
Qed.

Lemma cleanup_list_rejects (config : CapConfig) (hooks : ChallengeStorage.t)
  (e : jsstring) (w w1 : World) :
  challenges (storage config) = Some hooks ->
  ChallengeStorage.listExpired hooks w = Thrown e w1 ->
  cleanup config w = Thrown e w1.
Proof.
  intros Hhooks Hfail. rewrite cleanup_blocks. unfold cleanChallenges.
  rewrite Hhooks. unfold bind. rewrite Hfail. reflexivity.
Qed.

Lemma cleanup_delete_rejects (config : CapConfig) (hooks : ChallengeStorage.t)
  (pre : list jsstring) (k : jsstring) (post : list jsstring) (e : jsstring)
  (w w1 w2 w3 : World) :
  challenges (storage config) = Some hooks ->
  ChallengeStorage.listExpired hooks w = Returned (pre ++ k :: post) w1 ->
  promiseAll (List.map (ChallengeStorage.delete hooks) pre) w1
  = Returned tt w2 ->
  ChallengeStorage.delete hooks k w2 = Thrown e w3 ->
  exists w4 : World, cleanup config w = Thrown e w4.
Proof.
  intros Hhooks Hlist Hpre Hfail. rewrite cleanup_blocks.
  unfold cleanChallenges, _deleteChallenge. rewrite Hhooks.
  unfold bind. rewrite Hlist, map_app. cbn [List.map].
  destruct (promiseAll_first_failure
              (List.map (ChallengeStorage.delete hooks) pre)
              (ChallengeStorage.delete hooks k)
              (List.map (ChallengeStorage.delete hooks) post)
              e w1 w2 w3 Hpre Hfail) as [w4 Hall].
  exists w4.
  change (fun token : jsstring => ChallengeStorage.delete hooks token)
    with (ChallengeStorage.delete hooks).
  rewrite Hall. reflexivity.
Qed.

Lemma cleanup_tokens_list_rejects (config : CapConfig)
  (hooks : TokenStorage.t) (e : jsstring) (w w1 w2 : World) :
  tokens (storage config) = Some hooks ->
  cleanChallenges config w = Returned tt w1 ->
  TokenStorage.listExpired hooks w1 = Thrown e w2 ->
  cleanup config w = Thrown e w2.
Proof.
  intros Hhooks Hfirst Hfail. rewrite cleanup_blocks, Hfirst, Hhooks, Hfail.
  reflexivity.
Qed.

Lemma cleanup_tokens_delete_rejects (config : CapConfig)
  (hooks : TokenStorage.t) (pre : list jsstring) (k : jsstring)
  (post : list jsstring) (e : jsstring) (w w1 w2 w3 w4 : World) :
  tokens (storage config) = Some hooks ->
  cleanChallenges config w = Returned tt w1 ->
  TokenStorage.listExpired hooks w1 = Returned (pre ++ k :: post) w2 ->
  promiseAll (List.map (TokenStorage.delete hooks) pre) w2 = Returned tt w3 ->
  TokenStorage.delete hooks k w3 = Thrown e w4 ->
  exists w5 : World, cleanup config w = Thrown e w5.
Proof.
  intros Hhooks Hfirst Hlist Hpre Hfail.
  rewrite cleanup_blocks, Hfirst, Hhooks, Hlist.
  unfold _deleteToken. rewrite Hhooks, map_app. cbn [List.map].
  destruct (promiseAll_first_failure
              (List.map (TokenStorage.delete hooks) pre)
              (TokenStorage.delete hooks k)
              (List.map (TokenStorage.delete hooks) post)
              e w2 w3 w4 Hpre Hfail) as [w5 Hall].
  exists w5.
  change (fun tokenKey : jsstring => TokenStorage.delete hooks tokenKey)
    with (TokenStorage.delete hooks).
  exact Hall.
Qed.

End Failures.

(** C5 (as amended).  With a backend that does not fail (every hook call
    returns; the in-memory backend is one), every operation returns its
    result.  The engine catches nothing: at each of the ten places where
    an operation calls a hook (the store of [createChallenge]; the read,
    the delete and the token store of [redeemChallenge]; the get and the
    delete of [validateToken]; the two listings and the two rounds of
    deletes of [cleanup]), a call that rejects makes the operation reject
    with the error of the hook, and no result object is produced.  Among
    the deletes of one [Promise.all] the error is that of a delete of a
    listed key. *)
Theorem storage_failure_escapes :
  (reliable memory
   /\ forall config : CapConfig,
        reliable config ->
        (forall conf, returns (createChallenge config conf))
        /\ (forall body, returns (redeemChallenge config body))
        /\ (forall token conf, returns (validateToken config token conf))
        /\ returns (cleanup config))
  (* createChallenge: challenges.store *)
  /\ (forall (config : CapConfig) (hooks : ChallengeStorage.t)
             (conf : option ChallengeConfig) (e : jsstring) (w w1 : World),
        challenges (storage config) = Some hooks ->
        optField conf store <> Some false ->
        (forall exp : Z,
           ChallengeStorage.store hooks (hexOfBytes (randomBytes w 25))
             {| challenge :=
                  {| c := nullish (optField conf challengeCount) 50;
                     s := nullish (optField conf challengeSize) 32;
                     d := nullish (optField conf challengeDifficulty) 4 |};
                expires := exp |}
             (advance 25 w)
           = Thrown e w1) ->
        createChallenge config conf w = Thrown e w1)
  (* redeemChallenge: challenges.read *)
  /\ (forall (config : CapConfig) (hooks : ChallengeStorage.t)
             (token : jsstring) (solutions : value) (e : jsstring)
             (w w1 : World),
        challenges (storage config) = Some hooks ->
        invalidBody token solutions = false ->
        ChallengeStorage.read hooks token w = Thrown e w1 ->
        redeemChallenge config {| token := token; solutions := solutions |} w
        = Thrown e w1)
  (* redeemChallenge: challenges.delete *)
  /\ (forall (config : CapConfig) (hooks : ChallengeStorage.t)
             (token : jsstring) (solutions : value)
             (found : option ChallengeData) (e : jsstring) (w w1 w2 : World),
        challenges (storage config) = Some hooks ->
        invalidBody token solutions = false ->
        ChallengeStorage.read hooks token w = Returned found w1 ->
        ChallengeStorage.delete hooks token w1 = Thrown e w2 ->
        redeemChallenge config {| token := token; solutions := solutions |} w
        = Thrown e w2)
  (* redeemChallenge: tokens.store *)
  /\ (forall (config : CapConfig) (ch : ChallengeStorage.t)
             (tk : TokenStorage.t) (token : jsstring) (solutions : value)
             (challengeData : ChallengeData) (e : jsstring)
             (w w1 w2 w3 : World),
        challenges (storage config) = Some ch ->
        tokens (storage config) = Some tk ->
        invalidBody token solutions = false ->
        ChallengeStorage.read ch token w = Returned (Some challengeData) w1 ->
        ChallengeStorage.delete ch token w1 = Returned tt w2 ->
        clock w2 <= expires challengeData ->
        forallb (fun b => b) (isValidArr token challengeData solutions)
        = true ->
        TokenStorage.store tk
          (hexOfBytes (randomBytes (advance 15 w2) 8)
             ++ lit ":" ++ sha256Hex (hexOfBytes (randomBytes w2 15)))
          (clock w2 + 20 * 60 * 1000)
          (advance 8 (advance 15 w2))
        = Thrown e w3 ->
        redeemChallenge config {| token := token; solutions := solutions |} w
        = Thrown e w3)
  (* validateToken: tokens.get *)
  /\ (forall (config : CapConfig) (hooks : TokenStorage.t) (token : value)
             (conf : option TokenConfig) (id secret e : jsstring)
             (w w1 : World),
        tokens (storage config) = Some hooks ->
        parseToken token = Some (id, secret) ->
        TokenStorage.get hooks (id ++ lit ":" ++ sha256Hex secret) w
        = Thrown e w1 ->
        validateToken config token conf w = Thrown e w1)
  (* validateToken: tokens.delete *)
  /\ (forall (config : CapConfig) (hooks : TokenStorage.t) (token : value)
             (conf : option TokenConfig) (id secret : jsstring)
             (tokenExpires : Z) (e : jsstring) (w w1 w2 : World),
        tokens (storage config) = Some hooks ->
        parseToken token = Some (id, secret) ->
        TokenStorage.get hooks (id ++ lit ":" ++ sha256Hex secret) w
        = Returned (Some tokenExpires) w1 ->
        tokenExpires <> 0 ->
        clock w1 < tokenExpires ->
        optField conf keepToken <> Some true ->
        TokenStorage.delete hooks (id ++ lit ":" ++ sha256Hex secret) w1
        = Thrown e w2 ->
        validateToken config token conf w = Thrown e w2)
  (* cleanup: challenges.listExpired *)
  /\ (forall (config : CapConfig) (hooks : ChallengeStorage.t)
             (e : jsstring) (w w1 : World),
        challenges (storage config) = Some hooks ->
        ChallengeStorage.listExpired hooks w = Thrown e w1 ->
        cleanup config w = Thrown e w1)
  (* cleanup: challenges.delete, under Promise.all *)
  /\ (forall (config : CapConfig) (hooks : ChallengeStorage.t)
             (pre : list jsstring) (k : jsstring) (post : list jsstring)
             (e : jsstring) (w w1 w2 w3 : World),
        challenges (storage config) = Some hooks ->
        ChallengeStorage.listExpired hooks w
        = Returned (pre ++ k :: post) w1 ->
        promiseAll (List.map (ChallengeStorage.delete hooks) pre) w1
        = Returned tt w2 ->
        ChallengeStorage.delete hooks k w2 = Thrown e w3 ->
        exists (e' : jsstring) (w4 : World),
          cleanup config w = Thrown e' w4
          /\ exists (k' : jsstring) (w0 w0' : World),
               In k' (pre ++ k :: post)
               /\ ChallengeStorage.delete hooks k' w0 = Thrown e' w0')
  (* cleanup: tokens.listExpired *)
  /\ (forall (config : CapConfig) (hooks : TokenStorage.t) (e : jsstring)
             (w w1 w2 : World),
        tokens (storage config) = Some hooks ->
        cleanChallenges config w = Returned tt w1 ->
        TokenStorage.listExpired hooks w1 = Thrown e w2 ->
        cleanup config w = Thrown e w2)
  (* cleanup: tokens.delete, under Promise.all *)
  /\ (forall (config : CapConfig) (hooks : TokenStorage.t)
             (pre : list jsstring) (k : jsstring) (post : list jsstring)
             (e : jsstring) (w w1 w2 w3 w4 : World),
        tokens (storage config) = Some hooks ->
        cleanChallenges config w = Returned tt w1 ->
        TokenStorage.listExpired hooks w1 = Returned (pre ++ k :: post) w2 ->
        promiseAll (List.map (TokenStorage.delete hooks) pre) w2
        = Returned tt w3 ->
        TokenStorage.delete hooks k w3 = Thrown e w4 ->
        exists (e' : jsstring) (w5 : World),
          cleanup config w = Thrown e' w5
          /\ exists (k' : jsstring) (w0 w0' : World),
               In k' (pre ++ k :: post)
               /\ TokenStorage.delete hooks k' w0 = Thrown e' w0').
Proof.
  split.
  { split; [exact memory_reliable|]. intros config Hrel.
    split; [intros conf; apply createChallenge_returns, Hrel|].
    split; [intros body; apply redeemChallenge_returns, Hrel|].
    split; [intros token conf; apply validateToken_total, Hrel|].
    apply cleanup_returns, Hrel. }
  split; [exact create_store_rejects|].
  split; [exact redeem_read_rejects|].
  split; [exact redeem_delete_rejects|].
  split; [exact redeem_store_rejects|].
  split; [exact validate_get_rejects|].
  split; [exact validate_delete_rejects|].
  split; [exact cleanup_list_rejects|].
  split.
  { intros config hooks pre k post e w w1 w2 w3 Hhooks Hlist Hpre Hfail.
    destruct (cleanup_delete_rejects config hooks pre k post e w w1 w2 w3
                Hhooks Hlist Hpre Hfail) as [w4 Hrun].
    exists e, w4. split; [exact Hrun|]. exists k, w2, w3.
    split; [|exact Hfail]. apply in_or_app. right. left. reflexivity. }
  split; [exact cleanup_tokens_list_rejects|].
  intros config hooks pre k post e w w1 w2 w3 w4 Hhooks Hfirst Hlist Hpre Hfail.
  destruct (cleanup_tokens_delete_rejects config hooks pre k post e
              w w1 w2 w3 w4 Hhooks Hfirst Hlist Hpre Hfail) as [w5 Hrun].
  exists e, w5. split; [exact Hrun|]. exists k, w3, w4.
  split; [|exact Hfail]. apply in_or_app. right. left. reflexivity.
Qed.

(** The scenario on the in-memory backend, on the backend that is out of
    service and on the read-only ones: a hook that rejects first, and one
    that rejects after others returned. *)
Lemma storage_failure_escapes_witness :
  (exists (r : RedeemResponse) (w' : World),
     redeemChallenge memory Scenario.solved_body Scenario.created
     = Returned r w')
  /\ createChallenge down None Scenario.created
     = Thrown unavailable (advance 25 Scenario.created)
  /\ redeemChallenge down Scenario.solved_body Scenario.created
     = Thrown unavailable Scenario.created
  /\ redeemChallenge readOnly Scenario.solved_body Scenario.created
     = Thrown readOnlyError
         (logged (ChallengeRead Scenario.T) Scenario.created)
  /\ (exists w' : World,
        redeemChallenge tokensReadOnly Scenario.solved_body Scenario.created
        = Thrown readOnlyError w')
  /\ validateToken down Scenario.V None Scenario.redeemed
     = Thrown unavailable Scenario.redeemed
  /\ (exists w' : World,
        validateToken tokensReadOnly Scenario.V None Scenario.redeemed
        = Thrown readOnlyError w')
  /\ cleanup down Scenario.created = Thrown unavailable Scenario.created
  /\ (exists (e : jsstring) (w' : World),
        cleanup readOnly Scenario.stale = Thrown e w')
  /\ (exists w' : World,
        cleanup tokensDown Scenario.created = Thrown unavailable w')
  /\ (exists (e : jsstring) (w' : World),
        cleanup tokensReadOnly Scenario.lapsed = Thrown e w').
Proof.
  destruct storage_failure_escapes
    as [[Hmemory Hreturns]
        [Hcreate [Hread [Hdelete [Hstore [Hget [Hremove
        [Hlist [Hsweep [Htokens Htokensweep]]]]]]]]]].
  split.
  { exact (proj1 (proj2 (Hreturns memory Hmemory))
                 Scenario.solved_body Scenario.created). }
  split.
  { apply (Hcreate down downChallenges); [reflexivity|discriminate|].
    intros exp. reflexivity. }
  split.
  { apply (Hread down downChallenges); reflexivity. }
  split.
  { apply (Hdelete readOnly readOnlyChallenges Scenario.T
                   (VArray [VNumber (int 15); VNumber (int 7)])
                   (challengesList Scenario.created !! Scenario.T)
                   readOnlyError Scenario.created
                   (logged (ChallengeRead Scenario.T) Scenario.created));
      reflexivity. }
  split.
  { eexists.
    apply (Hstore tokensReadOnly memoryChallenges readOnlyTokens Scenario.T
                  (VArray [VNumber (int 15); VNumber (int 7)])
                  Scenario.stored readOnlyError Scenario.created
                  (logged (ChallengeRead Scenario.T) Scenario.created)
                  (withChallenges (delete Scenario.T)
                     (logged (ChallengeDelete Scenario.T)
                        (logged (ChallengeRead Scenario.T)
                                Scenario.created)))).
    - reflexivity.
    - reflexivity.
    - reflexivity.
    - cbn [tokensReadOnly memoryChallenges ChallengeStorage.read].
      replace (challengesList Scenario.created !! Scenario.T)
        with (Some Scenario.stored) by (vm_compute; reflexivity).
      reflexivity.
    - reflexivity.
    - vm_compute. discriminate.
    - vm_compute. reflexivity.
    - reflexivity. }
  split.
  { apply (Hget down downTokens Scenario.V None
                (lit "1b222930373e454c")
                (lit "b2b9c0c7ced5dce3eaf1f8ff060d14"));
      reflexivity. }
  split.
  { eexists.
    apply (Hremove tokensReadOnly readOnlyTokens Scenario.V None
                   (lit "1b222930373e454c")
                   (lit "b2b9c0c7ced5dce3eaf1f8ff060d14")
                   1201000 readOnlyError Scenario.redeemed
                   (logged
                      (TokenGet
                         (lit "1b222930373e454c" ++ lit ":"
                          ++ sha256Hex (lit "b2b9c0c7ced5dce3eaf1f8ff060d14")))
                      Scenario.redeemed)).
    - reflexivity.
    - reflexivity.
    - cbn [readOnlyTokens memoryTokens TokenStorage.get].
      replace (tokensList Scenario.redeemed
                 !! (lit "1b222930373e454c" ++ lit ":"
                     ++ sha256Hex (lit "b2b9c0c7ced5dce3eaf1f8ff060d14")))
        with (Some 1201000) by (vm_compute; reflexivity).
      reflexivity.
    - discriminate.
    - vm_compute. reflexivity.
    - discriminate.
    - reflexivity. }
  split.
  { apply (Hlist down downChallenges); reflexivity. }
  split.
  { destruct (Hsweep readOnly readOnlyChallenges [] Scenario.T []
                     readOnlyError Scenario.stale
                     (logged ChallengeListExpired Scenario.stale)
                     (logged ChallengeListExpired Scenario.stale)
                     (logged ChallengeListExpired Scenario.stale))
      as [e [w' [Hrun _]]].
    - reflexivity.
    - cbn [readOnlyChallenges memoryChallenges ChallengeStorage.listExpired].
      replace (List.map fst
                 (List.filter
                    (fun kv => expires (snd kv) <=? clock Scenario.stale)
                    (map_to_list (challengesList Scenario.stale))))
        with ([] ++ [Scenario.T]) by (vm_compute; reflexivity).
      reflexivity.
    - reflexivity.
    - reflexivity.
    - exists e, w'. exact Hrun. }
  split.
  { exists (Scenario.world_of (cleanChallenges tokensDown Scenario.created)).
    apply (Htokens tokensDown downTokens unavailable Scenario.created
                   (Scenario.world_of
                      (cleanChallenges tokensDown Scenario.created))).
    - reflexivity.
    - apply returned. vm_compute. reflexivity.
    - reflexivity. }
  destruct (Htokensweep tokensReadOnly readOnlyTokens []
              (lit "1b222930373e454c" ++ lit ":"
               ++ sha256Hex (lit "b2b9c0c7ced5dce3eaf1f8ff060d14"))
              [] readOnlyError Scenario.lapsed
              (Scenario.world_of
                 (cleanChallenges tokensReadOnly Scenario.lapsed))
              (logged TokenListExpired
                 (Scenario.world_of
                    (cleanChallenges tokensReadOnly Scenario.lapsed)))
              (logged TokenListExpired
                 (Scenario.world_of
                    (cleanChallenges tokensReadOnly Scenario.lapsed)))
              (logged TokenListExpired
                 (Scenario.world_of
                    (cleanChallenges tokensReadOnly Scenario.lapsed))))
    as [e [w' [Hrun _]]].
  - reflexivity.
  - apply returned. vm_compute. reflexivity.
  - cbn [readOnlyTokens memoryTokens TokenStorage.listExpired].
    match goal with
    | |- Returned ?keys _ = Returned ?listed _ =>
        replace keys with listed by (vm_compute; reflexivity)
    end.
    reflexivity.
  - reflexivity.
  - reflexivity.
  - exists e, w'. exact Hrun.
Defined.

(** C5 (as stated) fails: with the backend out of service, the redemption
    of the scenario is a rejection, not a result with [success = false]
    and a message. *)
Lemma storage_failure_uncaught :
  redeemChallenge down Scenario.solved_body Scenario.created
  = Thrown unavailable Scenario.created
  /\ ~ (exists (r : RedeemResponse) (w' : World),
          redeemChallenge down Scenario.solved_body Scenario.created
          = Returned r w'
          /\ success r = false /\ message r <> None).
Proof.
  assert (H : redeemChallenge down Scenario.solved_body Scenario.created
              = Thrown unavailable Scenario.created) by reflexivity.
  split; [exact H|]. intros [r [w' [Hrun _]]].
  rewrite H in Hrun. discriminate Hrun.
Qed.

(** ** Checks of the embedding on known values *)

Section Vectors.

(** More fuel than the digits need changes nothing: the bound used by
    [toStringRadix] is enough for every radix from 2 up. *)
Lemma digitsOf_fuel (radix : Z) (f1 f2 : nat) (n : Z) :
  2 <= radix -> 0 <= n ->
  (1 <= f1)%nat -> (1 <= f2)%nat ->
  n < radix ^ Z.of_nat f1 -> n < radix ^ Z.of_nat f2 ->
  digitsOf f1 radix n = digitsOf f2 radix n.
Proof.
  intros Hr. revert f2 n.
  induction f1 as [|f1 IH]; intros f2 n Hn H1 H2 B1 B2; [lia|].
  destruct f2 as [|f2]; [lia|]. cbn [digitsOf].
  destruct (Z.ltb_spec n radix) as [Hlt|Hge]; [reflexivity|].
  assert (Hdiv : forall j : nat, n < radix ^ Z.of_nat (S j) ->
                                 n / radix < radix ^ Z.of_nat j).
  { intros j Hj. apply Z.div_lt_upper_bound; [lia|].
    rewrite Nat2Z.inj_succ, Z.pow_succ_r in Hj by lia. lia. }
  assert (Hpos : forall j : nat, n < radix ^ Z.of_nat (S j) -> (1 <= j)%nat).
  { intros [|j] Hj; [|lia]. change (Z.of_nat 1) with 1 in Hj.
    rewrite Z.pow_1_r in Hj. lia. }
  f_equal. apply IH; auto.
  apply Z.div_pos; lia.
Qed.

Lemma log2_fuel_radix (radix n : Z) :
  2 <= radix -> 0 <= n -> n < radix ^ Z.of_nat (S (Z.to_nat (Z.log2 n))).
Proof.
  intros Hr Hn. destruct (Z.eq_dec n 0) as [->|Hz].
  - change (Z.of_nat (S (Z.to_nat (Z.log2 0)))) with 1. rewrite Z.pow_1_r. lia.
  - pose proof (Z.log2_nonneg n) as Hl.
    pose proof (Z.log2_spec n ltac:(lia)) as [_ Hu].
    rewrite Nat2Z.inj_succ, Z2Nat.id by lia.
    apply Z.lt_le_trans with (2 ^ Z.succ (Z.log2 n)); [exact Hu|].
    apply Z.pow_le_mono_l. lia.
Qed.

(** [toStringRadix] gives the digits that any sufficient fuel gives. *)
Lemma toStringRadix_digits (radix n : Z) (fuel : nat) :
  2 <= radix -> 0 <= n -> (1 <= fuel)%nat -> n < radix ^ Z.of_nat fuel ->
  toStringRadix radix n = digitsOf fuel radix n.
Proof.
  intros Hr Hn Hf Hb. unfold toStringRadix.
  destruct (Z.ltb_spec n 0); [lia|].
  apply digitsOf_fuel; try lia. now apply log2_fuel_radix.
Qed.

Example toString_values :
  toString 0 = lit "0" /\ toString 15 = lit "15"
  /\ toString 1234567890 = lit "1234567890" /\ toString (-45) = lit "-45"
  /\ toStringRadix 16 255 = lit "ff"
  /\ toStringRadix 16 3735928559 = lit "deadbeef".
Proof.
  split; [vm_compute; reflexivity|]. split; [vm_compute; reflexivity|].
  split; [vm_compute; reflexivity|]. split; [vm_compute; reflexivity|].
  split; vm_compute; reflexivity.
Qed.

Example split_values :
  split 58 (lit "a:b") = [lit "a"; lit "b"]
  /\ split 58 (lit "a:b:c") = [lit "a"; lit "b"; lit "c"]
  /\ split 58 (lit "ab") = [lit "ab"]
  /\ split 58 (lit ":b") = [[]; lit "b"]
  /\ split 58 [] = [[]].
Proof. repeat split; reflexivity. Qed.

Example utf8_values :
  utf8_encode (lit "abc") = [97; 98; 99]
  /\ utf8_encode [233] = [195; 169]
  /\ utf8_encode [8364] = [226; 130; 172]
  /\ utf8_encode [55357; 56832] = [240; 159; 152; 128]
  /\ utf8_encode [55357] = [239; 191; 189].
Proof. repeat split; reflexivity. Qed.

(** The digests of the empty message and of ["abc"] (FIPS 180-4). *)
Example sha256_values :
  sha256Hex []
  = lit "e3b0c44298fc1c149afbf4c8996fb92427ae41e4649b934ca495991b7852b855"
  /\ sha256Hex (lit "abc")
     = lit "ba7816bf8f01cfea414140de5dae2223b00361a396177a9cb410ff61f20015ad".
Proof. split; vm_compute; reflexivity. Qed.

(** FNV-1a of ["a"] is 0xe40c292c; the puzzles of the scenario. *)
Example prng_values :
  fnv1a (lit "a") = 0xe40c292c
  /\ prng (lit "abc1") 20 = lit "a240feb00f42af1b0e9d"
  /\ prng (lit "x") 0 = []
  /\ prng (lit "x") (-3) = []
  /\ Spec.puzzle Scenario.T (challenge Scenario.stored) 1
     = (lit "a15b", lit "9")
  /\ Spec.puzzle Scenario.T (challenge Scenario.stored) 2
     = (lit "7978", lit "9").
Proof.
  split; [vm_compute; reflexivity|]. split; [vm_compute; reflexivity|].
  split; [vm_compute; reflexivity|]. split; [vm_compute; reflexivity|].
  split; vm_compute; reflexivity.
Qed.

(** The scenario from creation on. *)
Example scenario_created :
  createChallenge memory Scenario.conf (initial 1000 3)
  = Returned {| cr_challenge := {| c := 2; s := 4; d := 1 |};
                cr_token := Some Scenario.T;
                cr_expires := 601000 |} Scenario.created
  /\ challengesList Scenario.created !! Scenario.T = Some Scenario.stored.
Proof.
  split; [unfold Scenario.created; apply returned|]; vm_compute; reflexivity.
Qed.

End Vectors.

(** * Further properties of the engine *)

(** ** Random strings and digests *)

(** X1.  [randomHex(n)] returns the next [n] random bytes as exactly
    [2 n] lowercase hex characters; it uses up those [n] bytes and
    touches nothing else. *)
Theorem randomHex_format (n : nat) (w : World) :
  exists h : jsstring,
    randomHex n w = Returned h (advance n w)
    /\ h = hexOfBytes (randomBytes w n)
    /\ length h = (2 * n)%nat
    /\ forallb Spec.isHexChar h = true.
Proof.
  exists (hexOfBytes (randomBytes w n)).
  split; [reflexivity|]. split; [reflexivity|].
  split; [apply randomHex_length|].
  apply hexOfBytes_alphabet, randomBytes_bytes.
Qed.

(** X2.  [sha256Hex] answers every input with 64 lowercase hex
    characters, two for each of the 32 bytes of the digest. *)
Theorem sha256Hex_format (input : jsstring) :
  length (sha256Hex input) = 64%nat
  /\ forallb Spec.isHexChar (sha256Hex input) = true
  /\ sha256Hex input
     = List.concat
         (List.map (Spec.hexFixed 2) (SHA256.digest (utf8_encode input))).
Proof.
  split; [apply sha256Hex_length|]. split; [apply sha256Hex_alphabet|].
  unfold sha256Hex. apply hexOfBytes_bytes, digest_bytes.
Qed.

(** ** Creating a challenge *)

Section Create.

Lemma hex_nonempty (h : jsstring) (n : nat) :
  length h = S n -> h <> [].
Proof. intros H ->. discriminate H. Qed.

(** What redemption answers for a stored challenge that is still live. *)
Lemma redeem_stored_live (token : jsstring) (items : list value)
  (challengeData : ChallengeData) (w : World) :
  token <> [] -> forallb isNumber items = true ->
  challengesList w !! token = Some challengeData ->
  clock w <= expires challengeData ->
  exists (r : RedeemResponse) (w' : World),
    redeemChallenge memory {| token := token; solutions := VArray items |} w
    = Returned r w'
    /\ (success r = true
        <-> forall i : Z,
              1 <= i <= c (challenge challengeData) ->
              Spec.solved token (challenge challengeData) (VArray items) i)
    /\ (success r = false -> message r = Some (lit "Invalid solution")).
Proof.
  intros Htok Hnum Hstored Hlive.
  rewrite redeemChallenge_memory.
  rewrite (invalidBody_numbers token items Htok Hnum), Hstored. cbv zeta.
  destruct (Z.ltb_spec (expires challengeData) (clock w)) as [Hlt|_]; [lia|].
  pose proof (isValidArr_every token challengeData items Hnum) as Hall.
  destruct (forallb (fun b => b)
                    (isValidArr token challengeData (VArray items)));
    cbn [negb]; eexists; eexists; (split; [reflexivity|]);
    cbn [success message failed].
  - split; [tauto|discriminate].
  - split; [|reflexivity]. split; [discriminate|].
    intros H. apply Hall in H. discriminate H.
Qed.

End Create.

(** X3.  Unless [store] is [false], [createChallenge] returns a token of
    50 lowercase hex characters with the parameters asked for (50
    puzzles, size 32, difficulty 4 when left out) and the expiry
    [now + expiresMs] (600000 when left out), and stores exactly that
    record under the token: reading the token back gives it, every other
    challenge and the token store are as before, and the only hook called
    is the one store.  The expiry is a sum of doubles in the code: the
    statement is for the offsets whose sum with the time is a safe
    integer, where that sum is exact. *)
Theorem createChallenge_stores (conf : option ChallengeConfig) (w : World) :
  optField conf store <> Some false ->
  safeInteger (clock w + nullish (optField conf expiresMs) 600000) ->
  exists (T : jsstring) (w' : World),
    let params :=
      {| c := nullish (optField conf challengeCount) 50;
         s := nullish (optField conf challengeSize) 32;
         d := nullish (optField conf challengeDifficulty) 4 |} in
    let expiresAt := clock w + nullish (optField conf expiresMs) 600000 in
    createChallenge memory conf w
    = Returned {| cr_challenge := params; cr_token := Some T;
                  cr_expires := expiresAt |} w'
    /\ (length T = 50%nat /\ forallb Spec.isHexChar T = true)
    /\ _getChallenge memory T w'
       = Returned (Some {| challenge := params; expires := expiresAt |})
                  (logged (ChallengeRead T) w')
    /\ (forall k : jsstring,
          k <> T -> challengesList w' !! k = challengesList w !! k)
    /\ tokensList w' = tokensList w
    /\ accesses w' = accesses w ++ [ChallengeStore T].
Proof.
  intros Hstore _. rewrite createChallenge_memory. cbv zeta.
  exists (hexOfBytes (randomBytes w 25)).
  destruct (optField conf store) as [[|]|]; [|contradiction|];
    eexists; (split; [reflexivity|]);
    (split; [split; [apply randomHex_length
                    |apply hexOfBytes_alphabet, randomBytes_bytes]|]);
    (split; [unfold _getChallenge;
             cbn [memory storage challenges memoryChallenges
                  ChallengeStorage.read challengesList withChallenges];
             rewrite lookup_insert_eq; reflexivity|]);
    (split; [intros k Hk; cbn [challengesList withChallenges logged advance];
             apply lookup_insert_ne; congruence|]);
    split; reflexivity.
Qed.

(** [createChallenge()] without a configuration. *)
Lemma createChallenge_stores_witness :
  exists (T : jsstring) (w' : World),
    createChallenge memory None (initial 1000 3)
    = Returned {| cr_challenge := {| c := 50; s := 32; d := 4 |};
                  cr_token := Some T; cr_expires := 601000 |} w'
    /\ (length T = 50%nat /\ forallb Spec.isHexChar T = true)
    /\ _getChallenge memory T w'
       = Returned (Some {| challenge := {| c := 50; s := 32; d := 4 |};
                           expires := 601000 |})
                  (logged (ChallengeRead T) w')
    /\ (forall k : jsstring,
          k <> T -> challengesList w' !! k = challengesList (initial 1000 3) !! k)
    /\ tokensList w' = tokensList (initial 1000 3)
    /\ accesses w' = accesses (initial 1000 3) ++ [ChallengeStore T].
Proof.
  apply (createChallenge_stores None (initial 1000 3)).
  - discriminate.
  - unfold safeInteger. cbn. lia.
Defined.

(** X4.  With [store: false], [createChallenge] returns the parameters and
    the expiry without a token and calls no hook, whatever the backend:
    the stores are as before.  The 25 random bytes of the token it does
    not return are used up all the same.  As in X3 the expiry is stated
    where the sum of the time and the offset is a safe integer. *)
Theorem createChallenge_unstored (config : CapConfig)
  (conf : option ChallengeConfig) (w : World) :
  optField conf store = Some false ->
  safeInteger (clock w + nullish (optField conf expiresMs) 600000) ->
  createChallenge config conf w
  = Returned
      {| cr_challenge :=
           {| c := nullish (optField conf challengeCount) 50;
              s := nullish (optField conf challengeSize) 32;
              d := nullish (optField conf challengeDifficulty) 4 |};
         cr_token := None;
         cr_expires := clock w + nullish (optField conf expiresMs) 600000 |}
      (advance 25 w)
  /\ challengesList (advance 25 w) = challengesList w
  /\ tokensList (advance 25 w) = tokensList w
  /\ accesses (advance 25 w) = accesses w
  /\ drawn (advance 25 w) = (drawn w + 25)%nat.
Proof.
  intros Hstore _. split; [|repeat split].
  unfold createChallenge, bind, randomHex, bind, getRandomValues, dateNow, ret.
  rewrite Hstore. reflexivity.
Qed.

(** [createChallenge({store: false})] on the backend out of service. *)
Lemma createChallenge_unstored_witness :
  createChallenge down
    (Some {| challengeCount := None; challengeSize := None;
             challengeDifficulty := None; expiresMs := None;
             store := Some false |})
    (initial 1000 3)
  = Returned {| cr_challenge := {| c := 50; s := 32; d := 4 |};
                cr_token := None; cr_expires := 601000 |}
             (advance 25 (initial 1000 3)).
Proof.
  apply (createChallenge_unstored down
           (Some {| challengeCount := None; challengeSize := None;
                    challengeDifficulty := None; expiresMs := None;
                    store := Some false |})
           (initial 1000 3)).
  - reflexivity.
  - unfold safeInteger. cbn. lia.
Defined.

(** X5.  A challenge just created (stored, with an expiry offset that is
    not negative) is found by [redeemChallenge]: with the token returned
    and an array of numbers the answer is never [Challenge invalid or
    expired]; it is success exactly when every puzzle of the created
    parameters is solved, and [Invalid solution] otherwise. *)
Theorem created_challenge_redeems (conf : option ChallengeConfig)
  (items : list value) (w : World) :
  optField conf store <> Some false ->
  0 <= nullish (optField conf expiresMs) 600000 ->
  forallb isNumber items = true ->
  exists (T : jsstring) (resp : ChallengeResponse) (w1 : World)
         (r : RedeemResponse) (w2 : World),
    createChallenge memory conf w = Returned resp w1
    /\ cr_token resp = Some T
    /\ redeemChallenge memory {| token := T; solutions := VArray items |} w1
       = Returned r w2
    /\ (success r = true
        <-> forall i : Z,
              1 <= i <= c (cr_challenge resp) ->
              Spec.solved T (cr_challenge resp) (VArray items) i)
    /\ (success r = false -> message r = Some (lit "Invalid solution")).
Proof.
  intros Hstore Hoffset Hnum.
  set (T := hexOfBytes (randomBytes w 25)).
  set (challengeData :=
         {| challenge :=
              {| c := nullish (optField conf challengeCount) 50;
                 s := nullish (optField conf challengeSize) 32;
                 d := nullish (optField conf challengeDifficulty) 4 |};
            expires := clock w + nullish (optField conf expiresMs) 600000 |}).
  set (w1 := withChallenges (insert T challengeData)
               (logged (ChallengeStore T) (advance 25 w))).
  assert (Hrun : createChallenge memory conf w
                 = Returned {| cr_challenge := challenge challengeData;
                               cr_token := Some T;
                               cr_expires := expires challengeData |} w1).
  { rewrite createChallenge_memory. cbv zeta.
    destruct (optField conf store) as [[|]|];
      [reflexivity|contradiction|reflexivity]. }
  assert (Hlen : length T = 50%nat) by apply randomHex_length.
  assert (Hstored : challengesList w1 !! T = Some challengeData)
    by apply lookup_insert_eq.
  destruct (redeem_stored_live T items challengeData w1
              (hex_nonempty T 49 Hlen) Hnum Hstored
              ltac:(cbn [expires challengeData clock w1 withChallenges
                         logged advance]; lia))
    as [r [w2 [Hredeem [Hiff Hmsg]]]].
  eexists T, _, w1, r, w2.
  split; [exact Hrun|]. split; [reflexivity|].
  split; [exact Hredeem|]. split; [exact Hiff|exact Hmsg].
Qed.

(** A challenge of two easy puzzles, redeemed with the numbers that solve
    them. *)
Lemma created_challenge_redeems_witness :
  exists (T : jsstring) (resp : ChallengeResponse) (w1 : World)
         (r : RedeemResponse) (w2 : World),
    createChallenge memory Scenario.conf (initial 1000 3) = Returned resp w1
    /\ cr_token resp = Some T
    /\ redeemChallenge memory
         {| token := T; solutions := VArray [VNumber (int 15); VNumber (int 7)] |} w1
       = Returned r w2
    /\ (success r = true
        <-> forall i : Z,
              1 <= i <= c (cr_challenge resp) ->
              Spec.solved T (cr_challenge resp)
                          (VArray [VNumber (int 15); VNumber (int 7)]) i)
    /\ (success r = false -> message r = Some (lit "Invalid solution")).
Proof.
  apply (created_challenge_redeems Scenario.conf [VNumber (int 15); VNumber (int 7)]
                                   (initial 1000 3)).
  - discriminate.
  - cbn. lia.
  - reflexivity.
Defined.

(** ** Redeeming: guards, causes of failure, hook calls *)

Section RedeemMore.

Lemma invalidBody_true (token : jsstring) (solutions : value) :
  invalidBody token solutions = true
  <-> token = []
      \/ ~ (exists items : list value,
              solutions = VArray items /\ forallb isNumber items = true).
Proof.
  split.
  - intros Hbad. destruct token as [|ch token]; [left; reflexivity|].
    right. intros [items [-> Hnum]].
    rewrite (invalidBody_numbers (ch :: token) items ltac:(discriminate) Hnum)
      in Hbad.
    discriminate Hbad.
  - intros H. destruct (invalidBody token solutions) eqn:E; [reflexivity|].
    exfalso. destruct (invalidBody_false token solutions E) as [Htok Harr].
    destruct H as [H|H]; [exact (Htok H)|exact (H Harr)].
Qed.

Lemma prng_length (seed : jsstring) (len : Z) :
  length (prng seed len) = Z.to_nat len.
Proof.
  rewrite prng_is_derive. unfold Spec.derive.
  rewrite length_firstn, stream_length. pose proof (derive_blocks len). lia.
Qed.

Lemma prng_empty (seed : jsstring) (len : Z) : len <= 0 -> prng seed len = [].
Proof.
  intros Hlen. apply length_zero_iff_nil. rewrite prng_length. lia.
Qed.

Lemma startsWith_empty (str : jsstring) : startsWith str [] = true.
Proof. destruct str; reflexivity. Qed.

Lemma hex_no_colon (h : jsstring) :
  forallb Spec.isHexChar h = true -> ~ In 58 h.
Proof.
  induction h as [|ch h IH]; intros Hhex Hin; [exact Hin|].
  cbn [forallb] in Hhex. apply andb_true_iff in Hhex as [Hch Hrest].
  destruct Hin as [->|Hin]; [discriminate Hch|exact (IH Hrest Hin)].
Qed.

End RedeemMore.

(** X6.  The body of a redemption is turned away exactly when the token
    is empty or [solutions] is not an array of numbers (an empty array
    passes).  Such a body is answered [Invalid body] and no hook is called,
    whatever the backend: the challenge is not used up. *)
Theorem redeem_invalid_body (config : CapConfig) (token : jsstring)
  (solutions : value) (w : World) :
  (invalidBody token solutions = true
   <-> token = []
       \/ ~ (exists items : list value,
               solutions = VArray items /\ forallb isNumber items = true))
  /\ (invalidBody token solutions = true ->
      redeemChallenge config {| token := token; solutions := solutions |} w
      = Returned (failed "Invalid body") w).
Proof.
  split; [apply invalidBody_true|].
  intros Hbad. unfold redeemChallenge. rewrite Hbad. reflexivity.
Qed.

(** An array with a string among the numbers, on the backend out of
    service. *)
Lemma redeem_invalid_body_witness :
  redeemChallenge down
    {| token := Scenario.T;
       solutions := VArray [VNumber (int 15); VString (lit "7")] |}
    Scenario.created
  = Returned (failed "Invalid body") Scenario.created.
Proof.
  apply (proj2 (redeem_invalid_body down Scenario.T
                  (VArray [VNumber (int 15); VString (lit "7")]) Scenario.created)).
  reflexivity.
Defined.

(** X7.  On the in-memory backend a redemption always returns, and its
    message tells the cause: [Invalid body] exactly for a body that fails
    the guard; [Challenge invalid or expired] exactly when the body is
    fine and the token has no record or one whose expiry is before the
    current time (an expiry equal to the current time is still good);
    [Invalid solution] exactly when the record is good and some puzzle is
    not solved; and no message exactly on success. *)
Theorem redeem_outcomes (token : jsstring) (solutions : value) (w : World) :
  exists (r : RedeemResponse) (w' : World),
    redeemChallenge memory {| token := token; solutions := solutions |} w
    = Returned r w'
    /\ (message r = Some (lit "Invalid body")
        <-> invalidBody token solutions = true)
    /\ (message r = Some (lit "Challenge invalid or expired")
        <-> invalidBody token solutions = false
            /\ (challengesList w !! token = None
                \/ exists challengeData : ChallengeData,
                     challengesList w !! token = Some challengeData
                     /\ expires challengeData < clock w))
    /\ (message r = Some (lit "Invalid solution")
        <-> invalidBody token solutions = false
            /\ exists challengeData : ChallengeData,
                 challengesList w !! token = Some challengeData
                 /\ clock w <= expires challengeData
                 /\ ~ (forall i : Z,
                         1 <= i <= c (challenge challengeData) ->
                         Spec.solved token (challenge challengeData)
                                     solutions i))
    /\ (message r = None <-> success r = true).
Proof.
  rewrite redeemChallenge_memory.
  destruct (invalidBody token solutions) eqn:Hbody.
  { eexists; eexists. split; [reflexivity|]. cbn [message success failed].
    split; [tauto|]. split; [split; [discriminate|intros [H _]; discriminate H]|].
    split; [split; [discriminate|intros [H _]; discriminate H]|].
    split; discriminate. }
  destruct (invalidBody_false token solutions Hbody)
    as [Htok [items [-> Hnum]]].
  cbv zeta.
  destruct (challengesList w !! token) as [challengeData|] eqn:Hstored.
  2: { eexists; eexists. split; [reflexivity|]. cbn [message success failed].
       split; [split; discriminate|]. split; [tauto|].
       split; [split; [discriminate|intros [_ [cd [H _]]]; discriminate H]|].
       split; discriminate. }
  destruct (Z.ltb_spec (expires challengeData) (clock w)) as [Hdead|Hlive].
  { eexists; eexists. split; [reflexivity|]. cbn [message success failed].
    split; [split; discriminate|].
    split; [split; [intros _; split; [reflexivity|]; right;
                    exists challengeData; split; [reflexivity|exact Hdead]
                   |reflexivity]|].
    split; [split; [discriminate|]|split; discriminate].
    intros [_ [cd [Hcd [Hl _]]]]. injection Hcd as <-. lia. }
  pose proof (isValidArr_every token challengeData items Hnum) as Hall.
  destruct (forallb (fun b => b)
                    (isValidArr token challengeData (VArray items)));
    cbn [negb]; eexists; eexists; (split; [reflexivity|]);
    cbn [message success failed].
  - split; [split; discriminate|].
    split; [split; [discriminate|]|].
    { intros [_ [H|[cd [Hcd Hd]]]]; [discriminate H|].
      injection Hcd as <-. lia. }
    split; [|tauto]. split; [discriminate|].
    intros [_ [cd [Hcd [_ Hnot]]]]. injection Hcd as <-.
    exfalso. apply Hnot. apply Hall. reflexivity.
  - split; [split; discriminate|].
    split; [split; [discriminate|]|].
    { intros [_ [H|[cd [Hcd Hd]]]]; [discriminate H|].
      injection Hcd as <-. lia. }
    split; [|split; discriminate].
    split; [|reflexivity]. intros _. split; [reflexivity|].
    exists challengeData. split; [reflexivity|]. split; [exact Hlive|].
    intros H. apply Hall in H. discriminate H.
Qed.

(** X8.  A redemption whose body passes the guard calls the hooks in this
    order: the challenge is read, then deleted, and only on success a
    token is stored.  Random bytes are drawn only on success, 23 of them
    (15 for the secret, then 8 for the id). *)
Theorem redeem_hook_calls (token : jsstring) (solutions : value) (w : World) :
  invalidBody token solutions = false ->
  exists (r : RedeemResponse) (w' : World) (stores : list Access),
    redeemChallenge memory {| token := token; solutions := solutions |} w
    = Returned r w'
    /\ accesses w'
       = accesses w ++ [ChallengeRead token; ChallengeDelete token] ++ stores
    /\ (success r = false -> stores = [] /\ drawn w' = drawn w)
    /\ (success r = true ->
        drawn w' = (drawn w + 23)%nat
        /\ exists id secret : jsstring,
             rr_token r = Some (id ++ lit ":" ++ secret)
             /\ stores = [TokenStore (id ++ lit ":" ++ sha256Hex secret)]).
Proof.
  intros Hbody. rewrite redeemChallenge_memory, Hbody. cbv zeta.
  assert (Hfail : forall msg : string,
            exists (r : RedeemResponse) (w' : World) (stores : list Access),
              Returned (failed msg)
                (withChallenges (delete token)
                   (logged (ChallengeDelete token)
                           (logged (ChallengeRead token) w)))
              = Returned r w'
              /\ accesses w'
                 = accesses w
                   ++ [ChallengeRead token; ChallengeDelete token] ++ stores
              /\ (success r = false -> stores = [] /\ drawn w' = drawn w)
              /\ (success r = true ->
                  drawn w' = (drawn w + 23)%nat
                  /\ exists id secret : jsstring,
                       rr_token r = Some (id ++ lit ":" ++ secret)
                       /\ stores
                          = [TokenStore (id ++ lit ":" ++ sha256Hex secret)])).
  { intros msg. eexists; eexists; exists []. split; [reflexivity|].
    cbn [accesses withChallenges logged drawn success failed].
    split; [now rewrite <- app_assoc|]. split; [tauto|discriminate]. }
  destruct (challengesList w !! token) as [challengeData|]; [|apply Hfail].
  destruct (expires challengeData <? clock w); [apply Hfail|].
  destruct (negb (forallb (fun b => b)
                          (isValidArr token challengeData solutions)));
    [apply Hfail|].
  eexists; eexists; eexists. split; [reflexivity|].
  cbn [accesses withTokens withChallenges logged advance drawn success
       rr_token].
  split; [rewrite <- !app_assoc; reflexivity|].
  split; [discriminate|]. intros _. split; [lia|].
  eexists; eexists. split; reflexivity.
Qed.

(** The scenario: read, delete, store. *)
Lemma redeem_hook_calls_witness :
  exists (r : RedeemResponse) (w' : World) (stores : list Access),
    redeemChallenge memory Scenario.solved_body Scenario.created
    = Returned r w'
    /\ accesses w'
       = accesses Scenario.created
         ++ [ChallengeRead Scenario.T; ChallengeDelete Scenario.T] ++ stores
    /\ (success r = false -> stores = [] /\ drawn w' = drawn Scenario.created)
    /\ (success r = true ->
        drawn w' = (drawn Scenario.created + 23)%nat
        /\ exists id secret : jsstring,
             rr_token r = Some (id ++ lit ":" ++ secret)
             /\ stores = [TokenStore (id ++ lit ":" ++ sha256Hex secret)]).
Proof.
  apply (redeem_hook_calls Scenario.T (VArray [VNumber (int 15); VNumber (int 7)])
                           Scenario.created).
  reflexivity.
Defined.

(** X9.  No work is asked for when the count or the difficulty is zero or
    negative: a stored, live challenge with [c <= 0] is redeemed by any
    array of numbers, and one with [d <= 0] by any array of at least [c]
    numbers, since every target is then the empty string. *)
Theorem no_work_needed (token : jsstring) (items : list value)
  (challengeData : ChallengeData) (w : World) :
  token <> [] -> forallb isNumber items = true ->
  challengesList w !! token = Some challengeData ->
  clock w <= expires challengeData ->
  c (challenge challengeData) <= 0
  \/ (d (challenge challengeData) <= 0
      /\ c (challenge challengeData) <= Z.of_nat (length items)) ->
  exists (r : RedeemResponse) (w' : World),
    redeemChallenge memory {| token := token; solutions := VArray items |} w
    = Returned r w'
    /\ success r = true.
Proof.
  intros Htok Hnum Hstored Hlive Heasy.
  destruct (redeem_stored_live token items challengeData w Htok Hnum
                               Hstored Hlive) as [r [w' [Hrun [Hiff _]]]].
  exists r, w'. split; [exact Hrun|]. apply Hiff. intros i Hi.
  destruct Heasy as [Hc|[Hd Hlen]]; [lia|].
  unfold Spec.solved, Spec.puzzle. cbn [fst snd].
  destruct (index_numbers items (Z.to_nat (i - 1)) Hnum)
    as [[x Hx]|[_ Hshort]]; [|lia].
  exists x. split; [exact Hx|].
  rewrite (prng_empty _ _ Hd). apply startsWith_empty.
Qed.

(** A challenge of 3 puzzles of difficulty 0, redeemed with zeros. *)
Lemma no_work_needed_witness :
  exists (r : RedeemResponse) (w' : World),
    redeemChallenge memory
      {| token := lit "t";
         solutions := VArray [VNumber (int 0); VNumber (int 0); VNumber (int 0)] |}
      (withChallenges
         (insert (lit "t")
                 {| challenge := {| c := 3; s := 32; d := 0 |};
                    expires := 5000 |})
         (initial 1000 3))
    = Returned r w'
    /\ success r = true.
Proof.
  apply (no_work_needed (lit "t") [VNumber (int 0); VNumber (int 0); VNumber (int 0)]
           {| challenge := {| c := 3; s := 32; d := 0 |}; expires := 5000 |}).
  - discriminate.
  - reflexivity.
  - apply lookup_insert_eq.
  - cbn. lia.
  - right. cbn. lia.
Defined.

(** ** From redemption to validation *)

(** X10.  The token a successful redemption hands out passes the guards
    of [validateToken] and is cut back into its id (16 characters) and its
    secret (30 characters); presented in the world the redemption left
    (the clock not being negative), it is valid; and as long as its record
    stays in the token store it is valid exactly while the clock is before
    the time of issue plus 1200000 ms. *)
Theorem issued_token_validates (body : Solution) (r : RedeemResponse)
  (w w' : World) :
  redeemChallenge memory body w = Returned r w' ->
  success r = true ->
  0 <= clock w ->
  exists tok id secret : jsstring,
    rr_token r = Some tok
    /\ parseToken (VString tok) = Some (id, secret)
    /\ (length id = 16%nat /\ length secret = 30%nat)
    /\ (forall conf : option TokenConfig,
        exists w'' : World,
          validateToken memory (VString tok) conf w' = Returned true w'')
    /\ (forall (conf : option TokenConfig) (later : World),
          tokensList later !! (id ++ lit ":" ++ sha256Hex secret)
          = Some (clock w + 1200000) ->
          exists later' : World,
            validateToken memory (VString tok) conf later
            = Returned (clock later <? clock w + 1200000) later').
Proof.
  destruct body as [token solutions]. intros Hrun Hok Hclock.
  destruct (redeem_success token solutions r w w' Hrun Hok) as [-> ->].
  cbv zeta.
  set (secret := hexOfBytes (randomBytes w 15)).
  set (id := hexOfBytes (randomBytes (advance 15 w) 8)).
  assert (Hsec : length secret = 30%nat) by apply randomHex_length.
  assert (Hid : length id = 16%nat) by apply randomHex_length.
  assert (Hparse : parseToken (VString (id ++ lit ":" ++ secret))
                   = Some (id, secret)).
  { apply parseToken_Some. split; [reflexivity|].
    split; [apply (hex_nonempty id 15 Hid)|].
    split; [apply (hex_nonempty secret 29 Hsec)|].
    split; apply hex_no_colon, hexOfBytes_alphabet, randomBytes_bytes. }
  assert (Hlater : forall (conf : option TokenConfig) (later : World),
            tokensList later !! (id ++ lit ":" ++ sha256Hex secret)
            = Some (clock w + 1200000) ->
            exists later' : World,
              validateToken memory (VString (id ++ lit ":" ++ secret)) conf
                            later
              = Returned (clock later <? clock w + 1200000) later').
  { intros conf later Hthere.
    rewrite validateToken_memory, Hparse. cbv zeta. rewrite Hthere.
    destruct (Z.eqb_spec (clock w + 1200000) 0) as [E|_]; [lia|].
    destruct (clock later <? clock w + 1200000); [|eexists; reflexivity].
    destruct (optField conf keepToken) as [[|]|]; eexists; reflexivity. }
  exists (id ++ lit ":" ++ secret), id, secret.
  split; [reflexivity|]. split; [exact Hparse|].
  split; [split; assumption|]. split; [|exact Hlater].
  intros conf.
  match goal with
  | |- context [validateToken memory _ conf ?w1] =>
      destruct (Hlater conf w1) as [w'' Hw'']
  end.
  { cbn [tokensList withTokens]. rewrite lookup_insert_eq. f_equal. }
  exists w''. rewrite Hw''. cbn [clock withTokens logged advance withChallenges].
  destruct (Z.ltb_spec (clock w) (clock w + 1200000)); [reflexivity|lia].
Qed.

(** The scenario: the token issued is valid right away. *)
Lemma issued_token_validates_witness :
  exists tok id secret : jsstring,
    rr_token Scenario.answer = Some tok
    /\ parseToken (VString tok) = Some (id, secret)
    /\ (length id = 16%nat /\ length secret = 30%nat)
    /\ (forall conf : option TokenConfig,
        exists w'' : World,
          validateToken memory (VString tok) conf Scenario.redeemed
          = Returned true w'')
    /\ (forall (conf : option TokenConfig) (later : World),
          tokensList later !! (id ++ lit ":" ++ sha256Hex secret)
          = Some (clock Scenario.created + 1200000) ->
          exists later' : World,
            validateToken memory (VString tok) conf later
            = Returned (clock later <? clock Scenario.created + 1200000)
                       later').
Proof.
  assert (Hrun : redeemChallenge memory Scenario.solved_body Scenario.created
                 = Returned Scenario.answer Scenario.redeemed)
    by (unfold Scenario.redeemed; apply returned; vm_compute; reflexivity).
  apply (issued_token_validates Scenario.solved_body Scenario.answer
           Scenario.created Scenario.redeemed Hrun eq_refl).
  vm_compute. discriminate.
Defined.

(** X11.  On the in-memory backend [validateToken] answers success
    exactly for a token [id:secret] that passes the guards and whose key
    [id:sha256Hex(secret)] is stored with an expiry that is not 0 and lies
    after the current time; an expiry equal to the current time is
    already too late. *)
Theorem validate_success_iff (token : value) (conf : option TokenConfig)
  (w : World) :
  (exists w' : World, validateToken memory token conf w = Returned true w')
  <-> exists (id secret : jsstring) (tokenExpires : Z),
        parseToken token = Some (id, secret)
        /\ tokensList w !! (id ++ lit ":" ++ sha256Hex secret)
           = Some tokenExpires
        /\ tokenExpires <> 0
        /\ clock w < tokenExpires.
Proof.
  rewrite validateToken_memory. split.
  - intros [w' Hrun].
    destruct (parseToken token) as [[id secret]|]; [|discriminate Hrun].
    cbv zeta in Hrun.
    destruct (tokensList w !! (id ++ lit ":" ++ sha256Hex secret))
      as [tokenExpires|] eqn:Hget; [|discriminate Hrun].
    destruct (Z.eqb_spec tokenExpires 0) as [|Hnz]; [discriminate Hrun|].
    destruct (Z.ltb_spec (clock w) tokenExpires) as [Hlive|];
      [|discriminate Hrun].
    exists id, secret, tokenExpires. repeat split; assumption.
  - intros [id [secret [tokenExpires [-> [Hget [Hnz Hlive]]]]]].
    cbv zeta. rewrite Hget.
    destruct (Z.eqb_spec tokenExpires 0) as [|_]; [contradiction|].
    destruct (Z.ltb_spec (clock w) tokenExpires) as [_|]; [|lia].
    destruct (optField conf keepToken) as [[|]|]; eexists; reflexivity.
Qed.

(** ** Backends with a store left out *)

(** X12.  Without a challenge store, [createChallenge] still returns a
    token but stores nothing (the world only loses 25 random bytes), and
    [redeemChallenge] answers every body that passes the guard with
    [Challenge invalid or expired], leaving the world as it is: such
    challenges can never be redeemed. *)
Theorem no_challenge_store (config : CapConfig) :
  challenges (storage config) = None ->
  (forall (conf : option ChallengeConfig) (w : World),
     exists resp : ChallengeResponse,
       createChallenge config conf w = Returned resp (advance 25 w)
       /\ (optField conf store <> Some false ->
           cr_token resp = Some (hexOfBytes (randomBytes w 25))))
  /\ (forall (token : jsstring) (solutions : value) (w : World),
        invalidBody token solutions = false ->
        redeemChallenge config {| token := token; solutions := solutions |} w
        = Returned (failed "Challenge invalid or expired") w).
Proof.
  intros Hnone. split.
  - intros conf w.
    unfold createChallenge, bind, randomHex, bind, getRandomValues, dateNow, ret.
    rewrite Hnone.
    destruct (optField conf store) as [[|]|]; eexists;
      (split; [reflexivity|]); intros H; try reflexivity; contradiction.
  - intros token solutions w Hbody.
    unfold redeemChallenge. rewrite Hbody.
    unfold bind, _getChallenge, _deleteChallenge, dateNow, ret.
    rewrite Hnone. reflexivity.
Qed.

(** The backend with tokens only: the token of the scenario. *)
Lemma no_challenge_store_witness :
  redeemChallenge Partial.tokensOnly Scenario.solved_body Scenario.created
  = Returned (failed "Challenge invalid or expired") Scenario.created.
Proof.
  apply (proj2 (no_challenge_store Partial.tokensOnly eq_refl)).
  reflexivity.
Defined.

(** X13.  Without a token store [validateToken] answers failure to every
    token and calls no hook.  A redemption on the backend that has only
    the challenge store leaves the token store as it is, and a token it
    hands out on success is therefore never valid. *)
Theorem no_token_store :
  (forall config : CapConfig,
     tokens (storage config) = None ->
     forall (token : value) (conf : option TokenConfig) (w : World),
       validateToken config token conf w = Returned false w)
  /\ (forall (body : Solution) (r : RedeemResponse) (w w' : World),
        redeemChallenge Partial.challengesOnly body w = Returned r w' ->
        tokensList w' = tokensList w
        /\ (success r = true ->
            exists tok : jsstring,
              rr_token r = Some tok
              /\ forall conf : option TokenConfig,
                   validateToken Partial.challengesOnly (VString tok) conf w'
                   = Returned false w')).
Proof.
  assert (Hval : forall config : CapConfig,
            tokens (storage config) = None ->
            forall (token : value) (conf : option TokenConfig) (w : World),
              validateToken config token conf w = Returned false w).
  { intros config Hnone token conf w. unfold validateToken.
    destruct token as [| |b|n|str|items]; try reflexivity.
    destruct (negb (truthy (VString str))); [reflexivity|].
    destruct (split 58 str) as [|id [|vertoken [|x rest]]]; try reflexivity.
    destruct (negb (truthy (VString id)) || negb (truthy (VString vertoken)));
      [reflexivity|].
    unfold bind, _getToken, ret. rewrite Hnone. reflexivity. }
  split; [exact Hval|].
  intros [token solutions] r w w'. unfold redeemChallenge.
  destruct (invalidBody token solutions).
  { intros Hrun. injection Hrun as <- <-.
    split; [reflexivity|discriminate]. }
  unfold bind, _getChallenge, _deleteChallenge, dateNow, ret, randomHex, bind,
    getRandomValues, ret.
  cbn [Partial.challengesOnly storage challenges tokens memoryChallenges
       ChallengeStorage.read ChallengeStorage.delete].
  destruct (challengesList w !! token) as [challengeData|].
  2: { intros Hrun. injection Hrun as <- <-.
       split; [reflexivity|discriminate]. }
  cbn [clock withChallenges logged].
  destruct (expires challengeData <? clock w).
  { intros Hrun. injection Hrun as <- <-.
    split; [reflexivity|discriminate]. }
  destruct (negb (forallb (fun b => b)
                          (isValidArr token challengeData solutions))).
  { intros Hrun. injection Hrun as <- <-.
    split; [reflexivity|discriminate]. }
  intros Hrun. injection Hrun as <- <-.
  split; [reflexivity|]. intros _. eexists. split; [reflexivity|].
  intros conf. apply Hval. reflexivity.
Qed.

(** The backend with challenges only: the token of the scenario is handed
    out and refused. *)
Lemma no_token_store_witness :
  validateToken Partial.challengesOnly Scenario.V None Scenario.redeemed
  = Returned false Scenario.redeemed.
Proof.
  apply (proj1 no_token_store Partial.challengesOnly eq_refl).
Defined.

(** ** What the operations leave alone *)

(** X14.  On the in-memory backend: a redemption never changes the clock
    or the record of another challenge, and unless it succeeds it leaves
    the token store and the source of randomness as they are; a
    validation never touches the challenge store, the clock or the source
    of randomness, and never changes the record of another key; creating
    a challenge never touches the token store. *)
Theorem operations_frame :
  (forall (token : jsstring) (solutions : value) (r : RedeemResponse)
          (w w' : World),
     redeemChallenge memory {| token := token; solutions := solutions |} w
     = Returned r w' ->
     clock w' = clock w
     /\ (forall k : jsstring,
           k <> token -> challengesList w' !! k = challengesList w !! k)
     /\ (success r = false ->
         tokensList w' = tokensList w /\ drawn w' = drawn w))
  /\ (forall (token : value) (conf : option TokenConfig) (b : bool)
             (w w' : World),
        validateToken memory token conf w = Returned b w' ->
        challengesList w' = challengesList w
        /\ clock w' = clock w /\ drawn w' = drawn w
        /\ forall id secret k : jsstring,
             parseToken token = Some (id, secret) ->
             k <> id ++ lit ":" ++ sha256Hex secret ->
             tokensList w' !! k = tokensList w !! k)
  /\ (forall (conf : option ChallengeConfig) (resp : ChallengeResponse)
             (w w' : World),
        createChallenge memory conf w = Returned resp w' ->
        tokensList w' = tokensList w /\ clock w' = clock w).
Proof.
  split; [|split].
  - intros token solutions r w w'. rewrite redeemChallenge_memory. cbv zeta.
    destruct (invalidBody token solutions).
    { intros Hrun. injection Hrun as <- <-. repeat split. }
    assert (Hother : forall k : jsstring,
              k <> token ->
              delete token (challengesList w) !! k = challengesList w !! k)
      by (intros k Hk; apply lookup_delete_ne; congruence).
    destruct (challengesList w !! token) as [challengeData|].
    2: { intros Hrun. injection Hrun as <- <-.
         split; [reflexivity|]. split; [exact Hother|].
         intros _. split; reflexivity. }
    destruct (expires challengeData <? clock w).
    { intros Hrun. injection Hrun as <- <-.
      split; [reflexivity|]. split; [exact Hother|].
      intros _. split; reflexivity. }
    destruct (negb (forallb (fun b => b)
                            (isValidArr token challengeData solutions))).
    { intros Hrun. injection Hrun as <- <-.
      split; [reflexivity|]. split; [exact Hother|].
      intros _. split; reflexivity. }
    intros Hrun. injection Hrun as <- <-.
    split; [reflexivity|]. split; [exact Hother|]. discriminate.
  - intros token conf b w w'. rewrite validateToken_memory.
    destruct (parseToken token) as [[id secret]|].
    2: { intros Hrun. injection Hrun as <- <-. repeat split. }
    cbv zeta.
    assert (Hsame : forall id' secret' k : jsstring,
              Some (id, secret) = Some (id', secret') ->
              k <> id' ++ lit ":" ++ sha256Hex secret' ->
              delete (id ++ lit ":" ++ sha256Hex secret) (tokensList w) !! k
              = tokensList w !! k).
    { intros id' secret' k E Hk. injection E as <- <-.
      apply lookup_delete_ne. congruence. }
    destruct (tokensList w !! (id ++ lit ":" ++ sha256Hex secret))
      as [tokenExpires|].
    2: { intros Hrun. injection Hrun as <- <-. repeat split. }
    destruct (tokenExpires =? 0).
    { intros Hrun. injection Hrun as <- <-. repeat split. }
    destruct (clock w <? tokenExpires).
    2: { intros Hrun. injection Hrun as <- <-. repeat split. }
    destruct (optField conf keepToken) as [[|]|];
      intros Hrun; injection Hrun as <- <-;
      (split; [reflexivity|]); (split; [reflexivity|]);
      (split; [reflexivity|]); try exact Hsame; reflexivity.
  - intros conf resp w w'. rewrite createChallenge_memory. cbv zeta.
    destruct (optField conf store) as [[|]|];
      intros Hrun; injection Hrun as <- <-; split; reflexivity.
Qed.

(** The scenario: redeeming its token leaves another challenge alone. *)
Lemma operations_frame_witness :
  clock Scenario.redeemed = clock Scenario.created
  /\ (forall k : jsstring,
        k <> Scenario.T ->
        challengesList Scenario.redeemed !! k
        = challengesList Scenario.created !! k)
  /\ (success Scenario.answer = false ->
      tokensList Scenario.redeemed = tokensList Scenario.created
      /\ drawn Scenario.redeemed = drawn Scenario.created).
Proof.
  assert (Hrun : redeemChallenge memory Scenario.solved_body Scenario.created
                 = Returned Scenario.answer Scenario.redeemed)
    by (unfold Scenario.redeemed; apply returned; vm_compute; reflexivity).
  exact (proj1 operations_frame Scenario.T (VArray [VNumber (int 15); VNumber (int 7)])
               Scenario.answer Scenario.created Scenario.redeemed Hrun).
Defined.

(** ** Cleanup *)

Section Cleanup.

Lemma key_in_dec (k : jsstring) (keys : list jsstring) :
  {In k keys} + {~ In k keys}.
Proof. apply List.in_dec. intros x y. exact (decide (x = y)). Qed.

(** Deleting a list of challenges on the in-memory backend. *)
Lemma deleteChallenges_run (keys : list jsstring) (w : World) :
  exists w' : World,
    promiseAll (List.map (_deleteChallenge memory) keys) w = Returned tt w'
    /\ (forall k, In k keys -> challengesList w' !! k = None)
    /\ (forall k, ~ In k keys -> challengesList w' !! k = challengesList w !! k)
    /\ tokensList w' = tokensList w
    /\ clock w' = clock w /\ warnings w' = warnings w /\ drawn w' = drawn w.
Proof.
  revert w. induction keys as [|key keys IH]; intros w.
  - exists w. split; [reflexivity|]. split; [intros k []|]. repeat split.
  - cbn [List.map promiseAll].
    unfold _deleteChallenge at 1.
    cbn [memory storage challenges memoryChallenges ChallengeStorage.delete].
    destruct (IH (withChallenges (delete key) (logged (ChallengeDelete key) w)))
      as [w' [Hrun [Hin [Hout [Htok [Hclock [Hwarn Hdrawn]]]]]]].
    exists w'. split; [exact Hrun|].
    split; [|split; [|repeat split; assumption]].
    + intros k Hk. destruct (key_in_dec k keys) as [Hin'|Hnot];
        [apply Hin; exact Hin'|].
      rewrite (Hout k Hnot). destruct Hk as [->|Hk]; [|contradiction].
      apply lookup_delete_eq.
    + intros k Hk. rewrite Hout by (intros H; apply Hk; right; exact H).
      cbn [challengesList withChallenges logged].
      apply lookup_delete_ne. intros E. apply Hk. left. exact E.
Qed.

Lemma deleteTokens_run (keys : list jsstring) (w : World) :
  exists w' : World,
    promiseAll (List.map (_deleteToken memory) keys) w = Returned tt w'
    /\ (forall k, In k keys -> tokensList w' !! k = None)
    /\ (forall k, ~ In k keys -> tokensList w' !! k = tokensList w !! k)
    /\ challengesList w' = challengesList w
    /\ clock w' = clock w /\ warnings w' = warnings w /\ drawn w' = drawn w.
Proof.
  revert w. induction keys as [|key keys IH]; intros w.
  - exists w. split; [reflexivity|]. split; [intros k []|]. repeat split.
  - cbn [List.map promiseAll].
    unfold _deleteToken at 1.
    cbn [memory storage tokens memoryTokens TokenStorage.delete].
    destruct (IH (withTokens (delete key) (logged (TokenDelete key) w)))
      as [w' [Hrun [Hin [Hout [Hch [Hclock [Hwarn Hdrawn]]]]]]].
    exists w'. split; [exact Hrun|].
    split; [|split; [|repeat split; assumption]].
    + intros k Hk. destruct (key_in_dec k keys) as [Hin'|Hnot];
        [apply Hin; exact Hin'|].
      rewrite (Hout k Hnot). destruct Hk as [->|Hk]; [|contradiction].
      apply lookup_delete_eq.
    + intros k Hk. rewrite Hout by (intros H; apply Hk; right; exact H).
      cbn [tokensList withTokens logged].
      apply lookup_delete_ne. intros E. apply Hk. left. exact E.
Qed.

(** The keys a store lists as expired. *)
Lemma expired_keys {V : Type} (past : V -> bool) (m : gmap jsstring V)
  (k : jsstring) :
  In k (List.map fst (List.filter (fun kv => past (snd kv)) (map_to_list m)))
  <-> exists v : V, m !! k = Some v /\ past v = true.
Proof.
  rewrite in_map_iff. split.
  - intros [[k' v] [Hk Hin]]. cbn [fst] in Hk. subst k'.
    apply filter_In in Hin as [Hin Hpast]. cbn [snd] in Hpast.
    exists v. split; [|exact Hpast].
    apply elem_of_map_to_list, list_elem_of_In. exact Hin.
  - intros [v [Hv Hpast]]. exists (k, v). split; [reflexivity|].
    apply filter_In. split; [|exact Hpast].
    apply list_elem_of_In, elem_of_map_to_list. exact Hv.
Qed.

Lemma lookup_after_cleanup {V : Type} (past : V -> bool)
  (before after : gmap jsstring V) (keys : list jsstring) :
  (forall k, In k keys <-> exists v, before !! k = Some v /\ past v = true) ->
  (forall k, In k keys -> after !! k = None) ->
  (forall k, ~ In k keys -> after !! k = before !! k) ->
  forall k,
    after !! k
    = match before !! k with
      | Some v => if past v then None else Some v
      | None => None
      end.
Proof.
  intros Hkeys Hin Hout k.
  destruct (key_in_dec k keys) as [Hk|Hk].
  - rewrite (Hin k Hk). apply Hkeys in Hk as [v [-> ->]]. reflexivity.
  - rewrite (Hout k Hk). destruct (before !! k) as [v|] eqn:Hv; [|reflexivity].
    destruct (past v) eqn:Hpast; [|reflexivity].
    exfalso. apply Hk, Hkeys. exists v. split; assumption.
Qed.

(** The token half of [cleanup] on the in-memory backend. *)
Lemma cleanup_memory_tokens (w : World) :
  exists w' : World,
    cleanup memory w = Returned tt w'
    /\ clock w' = clock w
    /\ forall k : jsstring,
         tokensList w' !! k
         = match tokensList w !! k with
           | Some tokenExpires =>
               if tokenExpires <=? clock w then None else Some tokenExpires
           | None => None
           end.
Proof.
  unfold cleanup, _cleanExpiredTokens, bind.
  cbn [memory storage challenges tokens memoryChallenges memoryTokens
       ChallengeStorage.listExpired TokenStorage.listExpired].
  match goal with
  | |- context [promiseAll (List.map (_deleteChallenge memory) ?keys) ?w0] =>
      destruct (deleteChallenges_run keys w0)
        as [w1 [-> [_ [_ [Htok1 [Hclock1 _]]]]]]
  end.
  match goal with
  | |- context [promiseAll (List.map (_deleteToken memory) ?keys) ?w0] =>
      destruct (deleteTokens_run keys w0)
        as [w2 [-> [Hin2 [Hout2 [_ [Hclock2 _]]]]]]
  end.
  cbn [challengesList tokensList clock warnings drawn logged] in *.
  exists w2. split; [reflexivity|]. split; [congruence|].
  rewrite Hclock1, Htok1 in *.
  apply (lookup_after_cleanup
           (fun tokenExpires => tokenExpires <=? clock w)
           (tokensList w) (tokensList w2) _
           (expired_keys _ (tokensList w)) Hin2 Hout2).
Qed.

End Cleanup.

(** X15.  On the in-memory backend [cleanup] returns, and it removes
    from each store exactly the records whose expiry is not after the
    current time: those are gone, every other record is as before, and
    the clock, the warnings and the source of randomness are untouched. *)
Theorem cleanup_removes_expired (w : World) :
  exists w' : World,
    cleanup memory w = Returned tt w'
    /\ (forall k : jsstring,
          challengesList w' !! k
          = match challengesList w !! k with
            | Some challengeData =>
                if expires challengeData <=? clock w then None
                else Some challengeData
            | None => None
            end)
    /\ (forall k : jsstring,
          tokensList w' !! k
          = match tokensList w !! k with
            | Some tokenExpires =>
                if tokenExpires <=? clock w then None else Some tokenExpires
            | None => None
            end)
    /\ clock w' = clock w /\ warnings w' = warnings w /\ drawn w' = drawn w.
Proof.
  unfold cleanup, _cleanExpiredTokens, bind.
  cbn [memory storage challenges tokens memoryChallenges memoryTokens
       ChallengeStorage.listExpired TokenStorage.listExpired].
  match goal with
  | |- context [promiseAll (List.map (_deleteChallenge memory) ?keys) ?w0] =>
      destruct (deleteChallenges_run keys w0)
        as [w1 [-> [Hin1 [Hout1 [Htok1 [Hclock1 [Hwarn1 Hdrawn1]]]]]]]
  end.
  match goal with
  | |- context [promiseAll (List.map (_deleteToken memory) ?keys) ?w0] =>
      destruct (deleteTokens_run keys w0)
        as [w2 [-> [Hin2 [Hout2 [Hch2 [Hclock2 [Hwarn2 Hdrawn2]]]]]]]
  end.
  cbn [challengesList tokensList clock warnings drawn logged] in *.
  exists w2. split; [reflexivity|].
  split; [|split; [|repeat split; congruence]].
  - intros k. rewrite Hch2.
    apply (lookup_after_cleanup
             (fun challengeData => expires challengeData <=? clock w)
             (challengesList w) (challengesList w1) _
             (expired_keys _ (challengesList w)) Hin1 Hout1).
  - rewrite Hclock1, Htok1 in *.
    apply (lookup_after_cleanup
             (fun tokenExpires => tokenExpires <=? clock w)
             (tokensList w) (tokensList w2) _
             (expired_keys _ (tokensList w)) Hin2 Hout2).
Qed.

(** X16.  Cleanup does not change what [validateToken] answers: on the
    in-memory backend every token is valid after [cleanup] exactly if it
    was valid before, since the records removed are those that validation
    already refuses. *)
Theorem cleanup_keeps_validation (w w1 : World) (token : value)
  (conf : option TokenConfig) (b : bool) :
  cleanup memory w = Returned tt w1 ->
  (exists w' : World, validateToken memory token conf w1 = Returned b w')
  <-> (exists w' : World, validateToken memory token conf w = Returned b w').
Proof.
  intros Hclean.
  destruct (cleanup_memory_tokens w) as [w1' [Hrun [Hclock Htok]]].
  assert (w1' = w1) by congruence. subst w1'.
  rewrite !validateToken_memory.
  destruct (parseToken token) as [[id secret]|]; cbv zeta.
  2: { split; intros [w' H]; injection H as <- _; eexists; reflexivity. }
  rewrite (Htok (id ++ lit ":" ++ sha256Hex secret)), Hclock.
  destruct (tokensList w !! (id ++ lit ":" ++ sha256Hex secret))
    as [tokenExpires|].
  2: { split; intros [w' H]; injection H as <- _; eexists; reflexivity. }
  destruct (Z.leb_spec tokenExpires (clock w)) as [Hpast|Hlive].
  - destruct (tokenExpires =? 0).
    { split; intros [w' H]; injection H as <- _; eexists; reflexivity. }
    destruct (Z.ltb_spec (clock w) tokenExpires) as [|_]; [lia|].
    split; intros [w' H]; injection H as <- _; eexists; reflexivity.
  - destruct (tokenExpires =? 0).
    { split; intros [w' H]; injection H as <- _; eexists; reflexivity. }
    destruct (clock w <? tokenExpires).
    2: { split; intros [w' H]; injection H as <- _; eexists; reflexivity. }
    destruct (optField conf keepToken) as [[|]|];
      split; intros [w' H]; injection H as <- _; eexists; reflexivity.
Qed.

(** The scenario, cleaned up after the token has expired: the token was
    refused before and is refused after. *)
Lemma cleanup_keeps_validation_witness :
  (exists w' : World,
     validateToken memory Scenario.V None
       (Scenario.world_of (cleanup memory Scenario.lapsed))
     = Returned false w')
  <-> (exists w' : World,
         validateToken memory Scenario.V None Scenario.lapsed
         = Returned false w').
Proof.
  apply (cleanup_keeps_validation Scenario.lapsed
           (Scenario.world_of (cleanup memory Scenario.lapsed))
           Scenario.V None false).
  apply returned. vm_compute. reflexivity.
Defined.

(** X17.  A store that is left out does not stop [cleanup]: it warns and
    goes on.  With no store at all it prints the two warnings and changes
    nothing else; with the token store only it prints the first warning
    and still removes the expired tokens. *)
Theorem cleanup_missing_hooks (w : World) :
  (exists w' : World,
     cleanup Partial.bare w = Returned tt w'
     /\ warnings w'
        = warnings w
          ++ [lit "[cap] challenge storage hooks provided but no listExpired, couldn't delete expired challenges";
              lit "[cap] token storage hooks provided but no listExpired, couldn't delete expired tokens"]
     /\ challengesList w' = challengesList w
     /\ tokensList w' = tokensList w
     /\ accesses w' = accesses w)
  /\ (exists w' : World,
        cleanup Partial.tokensOnly w = Returned tt w'
        /\ warnings w'
           = warnings w
             ++ [lit "[cap] challenge storage hooks provided but no listExpired, couldn't delete expired challenges"]
        /\ challengesList w' = challengesList w
        /\ (forall k : jsstring,
              tokensList w' !! k
              = match tokensList w !! k with
                | Some tokenExpires =>
                    if tokenExpires <=? clock w then None
                    else Some tokenExpires
                | None => None
                end)).
Proof.
  split.
  - eexists. split; [reflexivity|].
    cbn [warnings challengesList tokensList accesses].
    split; [rewrite <- app_assoc; reflexivity|]. repeat split.
  - unfold cleanup, _cleanExpiredTokens, bind.
    cbn [Partial.tokensOnly storage challenges tokens memoryTokens
         TokenStorage.listExpired consoleWarn].
    match goal with
    | |- context [promiseAll (List.map ?f ?keys) ?w0] =>
        change f with (_deleteToken memory);
        destruct (deleteTokens_run keys w0)
          as [w2 [-> [Hin2 [Hout2 [Hch2 [Hclock2 [Hwarn2 Hdrawn2]]]]]]]
    end.
    cbn [challengesList tokensList clock warnings drawn logged] in *.
    exists w2. split; [reflexivity|]. split; [exact Hwarn2|].
    split; [exact Hch2|].
    apply (lookup_after_cleanup
             (fun tokenExpires => tokenExpires <=? clock w)
             (tokensList w) (tokensList w2) _
             (expired_keys _ (tokensList w)) Hin2 Hout2).
Qed.

(** * The Durable Object *)

Section DO.

Variable oneEmpty : option jsstring.

(** [.one()] never makes up a row. *)
Lemma one_empty {A : Type} (row : A) (w w' : World) :
  DurableObject.one oneEmpty (@None A) w <> Returned (Some row) w'.
Proof.
  unfold DurableObject.one. destruct oneEmpty; discriminate.
Qed.

Lemma do_delete_challenges (keys : list jsstring) (w : World) :
  exists w' : World,
    promiseAll (List.map (_deleteChallenge (DurableObject.cap oneEmpty)) keys) w = Returned tt w'
    /\ (forall k, In k keys -> challengesList w' !! k = None)
    /\ (forall k, ~ In k keys -> challengesList w' !! k = challengesList w !! k)
    /\ tokensList w' = tokensList w
    /\ clock w' = clock w /\ warnings w' = warnings w
    /\ accesses w' = accesses w.
Proof.
  revert w. induction keys as [|key keys IH]; intros w.
  - exists w. split; [reflexivity|]. split; [intros k []|]. repeat split.
  - cbn [List.map promiseAll].
    unfold _deleteChallenge at 1.
    cbn [DurableObject.cap storage challenges ChallengeStorage.delete].
    unfold DurableObject.deleteChallenge at 1.
    destruct (IH (withChallenges (delete key) w))
      as [w' [Hrun [Hin [Hout [Htok [Hclock [Hwarn Hacc]]]]]]].
    exists w'. split; [exact Hrun|].
    split; [|split; [|repeat split; assumption]].
    + intros k Hk. destruct (key_in_dec k keys) as [Hin'|Hnot];
        [apply Hin; exact Hin'|].
      rewrite (Hout k Hnot). destruct Hk as [->|Hk]; [|contradiction].
      apply lookup_delete_eq.
    + intros k Hk. rewrite Hout by (intros H; apply Hk; right; exact H).
      cbn [challengesList withChallenges].
      apply lookup_delete_ne. intros E. apply Hk. left. exact E.
Qed.

Lemma do_delete_tokens (keys : list jsstring) (w : World) :
  exists w' : World,
    promiseAll (List.map (_deleteToken (DurableObject.cap oneEmpty)) keys) w = Returned tt w'
    /\ (forall k, In k keys -> tokensList w' !! k = None)
    /\ (forall k, ~ In k keys -> tokensList w' !! k = tokensList w !! k)
    /\ challengesList w' = challengesList w
    /\ clock w' = clock w /\ warnings w' = warnings w
    /\ accesses w' = accesses w.
Proof.
  revert w. induction keys as [|key keys IH]; intros w.
  - exists w. split; [reflexivity|]. split; [intros k []|]. repeat split.
  - cbn [List.map promiseAll].
    unfold _deleteToken at 1.
    cbn [DurableObject.cap storage tokens TokenStorage.delete].
    unfold DurableObject.deleteToken at 1.
    destruct (IH (withTokens (delete key) w))
      as [w' [Hrun [Hin [Hout [Hch [Hclock [Hwarn Hacc]]]]]]].
    exists w'. split; [exact Hrun|].
    split; [|split; [|repeat split; assumption]].
    + intros k Hk. destruct (key_in_dec k keys) as [Hin'|Hnot];
        [apply Hin; exact Hin'|].
      rewrite (Hout k Hnot). destruct Hk as [->|Hk]; [|contradiction].
      apply lookup_delete_eq.
    + intros k Hk. rewrite Hout by (intros H; apply Hk; right; exact H).
      cbn [tokensList withTokens].
      apply lookup_delete_ne. intros E. apply Hk. left. exact E.
Qed.

(** The stores after the cleanup of the object. *)
Lemma do_cleanup_run (w : World) :
  exists w' : World,
    DurableObject.cleanup oneEmpty w = Returned tt w'
    /\ (forall k : jsstring,
          challengesList w' !! k
          = match challengesList w !! k with
            | Some row => if expires row <=? clock w then None else Some row
            | None => None
            end)
    /\ (forall k : jsstring,
          tokensList w' !! k
          = match tokensList w !! k with
            | Some exp => if exp <=? clock w then None else Some exp
            | None => None
            end)
    /\ clock w' = clock w.
Proof.
  unfold DurableObject.cleanup, cleanup, _cleanExpiredTokens, bind.
  cbn [DurableObject.cap storage challenges tokens
       ChallengeStorage.listExpired TokenStorage.listExpired].
  unfold DurableObject.listExpiredChallenges at 1.
  destruct (do_delete_challenges
              (List.map fst
                 (List.filter (fun row => expires (snd row) <=? clock w)
                              (map_to_list (challengesList w)))) w)
    as [w1 [-> [Hin1 [Hout1 [Htok1 [Hclock1 _]]]]]].
  unfold DurableObject.listExpiredTokens at 1.
  destruct (do_delete_tokens
              (List.map fst
                 (List.filter (fun row => snd row <=? clock w1)
                              (map_to_list (tokensList w1)))) w1)
    as [w2 [-> [Hin2 [Hout2 [Hch2 [Hclock2 _]]]]]].
  exists w2. split; [reflexivity|].
  split; [|split; [|congruence]].
  - intros k. rewrite Hch2.
    apply (lookup_after_cleanup
             (fun row => expires row <=? clock w)
             (challengesList w) (challengesList w1) _
             (expired_keys _ (challengesList w)) Hin1 Hout1).
  - rewrite Hclock1, Htok1 in *.
    apply (lookup_after_cleanup
             (fun exp => exp <=? clock w)
             (tokensList w) (tokensList w2) _
             (expired_keys _ (tokensList w)) Hin2 Hout2).
Qed.

End DO.

(** X18.  In the object every stored challenge is either readable or
    listed as expired, never both: [readChallenge] returns the row exactly
    while the current time is before its expiry, and
    [listExpiredChallenges] lists its token exactly from the expiry on.
    The same holds for [readToken] and [listExpiredTokens]. *)
Theorem do_readable_or_expired (oneEmpty : option jsstring) (w : World) :
  (forall (token : jsstring) (row : ChallengeData),
     challengesList w !! token = Some row ->
     exists keys : list jsstring,
       DurableObject.listExpiredChallenges w = Returned keys w
       /\ (In token keys <-> expires row <= clock w)
       /\ (DurableObject.readChallenge oneEmpty token w
           = Returned (Some row) w
           <-> clock w < expires row))
  /\ (forall (key : jsstring) (exp : Z),
        tokensList w !! key = Some exp ->
        exists keys : list jsstring,
          DurableObject.listExpiredTokens w = Returned keys w
          /\ (In key keys <-> exp <= clock w)
          /\ (DurableObject.readToken oneEmpty key w = Returned (Some exp) w
              <-> clock w < exp)).
Proof.
  split.
  - intros token row Hrow. eexists. split; [reflexivity|]. split.
    + rewrite (expired_keys (fun r => expires r <=? clock w)). split.
      * intros [v [Hv Hpast]]. rewrite Hrow in Hv. injection Hv as <-.
        apply Z.leb_le. exact Hpast.
      * intros Hpast. exists row. split; [exact Hrow|].
        apply Z.leb_le. exact Hpast.
    + unfold DurableObject.readChallenge. rewrite Hrow.
      destruct (Z.ltb_spec (clock w) (expires row)) as [Hlive|Hpast].
      * split; [intros _; exact Hlive|reflexivity].
      * split; [|lia]. intros H. exfalso. exact (one_empty oneEmpty _ _ _ H).
  - intros key exp Hrow. eexists. split; [reflexivity|]. split.
    + rewrite (expired_keys (fun e => e <=? clock w)). split.
      * intros [v [Hv Hpast]]. rewrite Hrow in Hv. injection Hv as <-.
        apply Z.leb_le. exact Hpast.
      * intros Hpast. exists exp. split; [exact Hrow|].
        apply Z.leb_le. exact Hpast.
    + unfold DurableObject.readToken. rewrite Hrow.
      destruct (Z.ltb_spec (clock w) exp) as [Hlive|Hpast].
      * split; [intros _; exact Hlive|reflexivity].
      * split; [|lia]. intros H. exfalso. exact (one_empty oneEmpty _ _ _ H).
Qed.

(** The challenge of the scenario, read at time 1000 and listed at time
    2000000. *)
Lemma do_readable_or_expired_witness :
  exists keys : list jsstring,
    DurableObject.listExpiredChallenges Scenario.created
    = Returned keys Scenario.created
    /\ (In Scenario.T keys
        <-> expires Scenario.stored <= clock Scenario.created)
    /\ (DurableObject.readChallenge None Scenario.T Scenario.created
        = Returned (Some Scenario.stored) Scenario.created
        <-> clock Scenario.created < expires Scenario.stored).
Proof.
  apply (proj1 (do_readable_or_expired None Scenario.created)).
  vm_compute. reflexivity.
Defined.

(** X19.  Through the object a challenge that is missing, or whose expiry
    is not after the current time (equal included), cannot be redeemed.
    When [.one()] yields [null] on no row, the answer is [Challenge
    invalid or expired] and the row, if any, is deleted; when it throws,
    the redemption is rejected with that error before anything is
    deleted. *)
Theorem do_redeem_unreadable (oneEmpty : option jsstring) (token : jsstring)
  (solutions : value) (w : World) :
  invalidBody token solutions = false ->
  (challengesList w !! token = None
   \/ exists row : ChallengeData,
        challengesList w !! token = Some row /\ expires row <= clock w) ->
  DurableObject.redeemChallenge oneEmpty
    {| token := token; solutions := solutions |} w
  = match oneEmpty with
    | None =>
        Returned (failed "Challenge invalid or expired")
                 (withChallenges (delete token) w)
    | Some e => Thrown e w
    end.
Proof.
  intros Hbody Hrow.
  unfold DurableObject.redeemChallenge, redeemChallenge. rewrite Hbody.
  unfold bind at 1. unfold _getChallenge.
  cbn [DurableObject.cap storage challenges ChallengeStorage.read].
  unfold DurableObject.readChallenge.
  assert (Hnone : match challengesList w !! token with
                  | Some row => if clock w <? expires row then Some row else None
                  | None => None
                  end = None).
  { destruct Hrow as [->|[row [-> Hpast]]]; [reflexivity|].
    destruct (Z.ltb_spec (clock w) (expires row)); [lia|reflexivity]. }
  rewrite Hnone. unfold DurableObject.one.
  destruct oneEmpty as [e|]; reflexivity.
Qed.

(** The challenge of the scenario at the very time of its expiry. *)
Lemma do_redeem_unreadable_witness :
  DurableObject.redeemChallenge None Scenario.solved_body
    (withChallenges
       (insert Scenario.T
               {| challenge := {| c := 2; s := 4; d := 1 |};
                  expires := 1000 |})
       (initial 1000 3))
  = Returned (failed "Challenge invalid or expired")
             (withChallenges (delete Scenario.T)
                (withChallenges
                   (insert Scenario.T
                           {| challenge := {| c := 2; s := 4; d := 1 |};
                              expires := 1000 |})
                   (initial 1000 3))).
Proof.
  apply (do_redeem_unreadable None Scenario.T
           (VArray [VNumber (int 15); VNumber (int 7)])).
  - reflexivity.
  - right. eexists. split; [apply lookup_insert_eq|]. cbn. lia.
Defined.

(** X20.  Through the object a stored challenge whose expiry is after the
    current time is redeemed like this, whatever [.one()] does on no row:
    the row is deleted, and the redemption succeeds exactly when every
    puzzle is solved, in which case the key of the token issued is
    stored with the expiry [now + 1200000]; otherwise the answer is
    [Invalid solution] and the token store is as before. *)
Theorem do_redeem_live (oneEmpty : option jsstring) (token : jsstring)
  (solutions : value) (row : ChallengeData) (w : World) :
  invalidBody token solutions = false ->
  challengesList w !! token = Some row ->
  clock w < expires row ->
  exists (r : RedeemResponse) (w' : World),
    DurableObject.redeemChallenge oneEmpty
      {| token := token; solutions := solutions |} w
    = Returned r w'
    /\ challengesList w' = delete token (challengesList w)
    /\ (success r = true
        <-> forall i : Z,
              1 <= i <= c (challenge row) ->
              Spec.solved token (challenge row) solutions i)
    /\ (success r = false ->
        message r = Some (lit "Invalid solution")
        /\ tokensList w' = tokensList w)
    /\ (success r = true ->
        exists id secret : jsstring,
          rr_token r = Some (id ++ lit ":" ++ secret)
          /\ tokensList w'
             = <[id ++ lit ":" ++ sha256Hex secret := clock w + 1200000]>
                 (tokensList w)).
Proof.
  intros Hbody Hrow Hlive.
  destruct (invalidBody_false token solutions Hbody)
    as [_ [items [-> Hnum]]].
  unfold DurableObject.redeemChallenge, redeemChallenge. rewrite Hbody.
  unfold bind, _getChallenge, _deleteChallenge, dateNow, ret, randomHex, bind,
    getRandomValues, ret.
  cbn [DurableObject.cap storage challenges tokens ChallengeStorage.read
       ChallengeStorage.delete TokenStorage.store].
  unfold DurableObject.readChallenge, DurableObject.one. rewrite Hrow.
  destruct (Z.ltb_spec (clock w) (expires row)) as [_|]; [|lia].
  unfold DurableObject.deleteChallenge. cbn [clock withChallenges].
  destruct (Z.ltb_spec (expires row) (clock w)) as [|_]; [lia|].
  pose proof (isValidArr_every token row items Hnum) as Hall.
  destruct (forallb (fun b => b) (isValidArr token row (VArray items)));
    cbn [negb].
  - unfold DurableObject.storeToken.
    eexists; eexists. split; [reflexivity|].
    cbn [challengesList tokensList withTokens withChallenges advance success
         message rr_token].
    split; [reflexivity|]. split; [tauto|]. split; [discriminate|].
    intros _. eexists; eexists. split; reflexivity.
  - eexists; eexists. split; [reflexivity|].
    cbn [challengesList tokensList withChallenges success message failed].
    split; [reflexivity|].
    split; [split; [discriminate|intros H; apply Hall in H; discriminate H]|].
    split; [intros _; split; reflexivity|discriminate].
Qed.

(** The scenario through the object. *)
Lemma do_redeem_live_witness :
  exists (r : RedeemResponse) (w' : World),
    DurableObject.redeemChallenge None Scenario.solved_body Scenario.created
    = Returned r w'
    /\ challengesList w'
       = delete Scenario.T (challengesList Scenario.created)
    /\ (success r = true
        <-> forall i : Z,
              1 <= i <= c (challenge Scenario.stored) ->
              Spec.solved Scenario.T (challenge Scenario.stored)
                          (VArray [VNumber (int 15); VNumber (int 7)]) i)
    /\ (success r = false ->
        message r = Some (lit "Invalid solution")
        /\ tokensList w' = tokensList Scenario.created)
    /\ (success r = true ->
        exists id secret : jsstring,
          rr_token r = Some (id ++ lit ":" ++ secret)
          /\ tokensList w'
             = <[id ++ lit ":" ++ sha256Hex secret
                 := clock Scenario.created + 1200000]>
                 (tokensList Scenario.created)).
Proof.
  apply (do_redeem_live None Scenario.T (VArray [VNumber (int 15); VNumber (int 7)])
                        Scenario.stored Scenario.created).
  - reflexivity.
  - vm_compute. reflexivity.
  - vm_compute. reflexivity.
Defined.


(** X22.  The cleanup of the object returns and removes from both tables
    exactly the rows whose expiry is not after the current time.  Those
    are the rows its reads already hide, so every read answers after the
    cleanup what it answered before. *)
Theorem do_cleanup_exact (oneEmpty : option jsstring) (w : World) :
  exists w' : World,
    DurableObject.cleanup oneEmpty w = Returned tt w'
    /\ (forall k : jsstring,
          challengesList w' !! k
          = match challengesList w !! k with
            | Some row => if expires row <=? clock w then None else Some row
            | None => None
            end)
    /\ (forall k : jsstring,
          tokensList w' !! k
          = match tokensList w !! k with
            | Some exp => if exp <=? clock w then None else Some exp
            | None => None
            end)
    /\ (forall token : jsstring,
          DurableObject.readChallenge oneEmpty token w'
          = DurableObject.one oneEmpty
              (match challengesList w !! token with
               | Some row => if clock w <? expires row then Some row else None
               | None => None
               end) w')
    /\ (forall key : jsstring,
          DurableObject.readToken oneEmpty key w'
          = DurableObject.one oneEmpty
              (match tokensList w !! key with
               | Some exp => if clock w <? exp then Some exp else None
               | None => None
               end) w').
Proof.
  destruct (do_cleanup_run oneEmpty w) as [w' [Hrun [Hch [Htok Hclock]]]].
  exists w'. split; [exact Hrun|]. split; [exact Hch|]. split; [exact Htok|].
  split.
  - intros token. unfold DurableObject.readChallenge.
    rewrite Hch, Hclock. f_equal.
    destruct (challengesList w !! token) as [row|]; [|reflexivity].
    destruct (Z.leb_spec (expires row) (clock w));
      destruct (Z.ltb_spec (clock w) (expires row)); try reflexivity; lia.
  - intros key. unfold DurableObject.readToken.
    rewrite Htok, Hclock. f_equal.
    destruct (tokensList w !! key) as [exp|]; [|reflexivity].
    destruct (Z.leb_spec exp (clock w));
      destruct (Z.ltb_spec (clock w) exp); try reflexivity; lia.
Qed.

(** X23.  Through the object a token is valid once: [validateToken]
    takes no option, so a call that succeeds deletes the row, and a
    second call with the same token never succeeds; it answers failure
    when [.one()] yields [null] on no row and is rejected when it throws.
    An unknown or expired token is answered the same way. *)
Theorem do_validate_once (oneEmpty : option jsstring) (token : value)
  (w w' : World) :
  DurableObject.validateToken oneEmpty token w = Returned true w' ->
  exists (id secret : jsstring) (exp : Z),
    parseToken token = Some (id, secret)
    /\ tokensList w !! (id ++ lit ":" ++ sha256Hex secret) = Some exp
    /\ clock w < exp
    /\ tokensList w'
       = delete (id ++ lit ":" ++ sha256Hex secret) (tokensList w)
    /\ DurableObject.validateToken oneEmpty token w'
       = match oneEmpty with
         | None => Returned false w'
         | Some e => Thrown e w'
         end.
Proof.
  unfold DurableObject.validateToken. intros Hrun.
  destruct (parseToken token) as [[id secret]|] eqn:Hparse.
  2: { rewrite validateToken_rejects in Hrun by exact Hparse.
       discriminate Hrun. }
  assert (Hform : forall v : World,
            validateToken (DurableObject.cap oneEmpty) token None v
            = match DurableObject.readToken oneEmpty
                      (id ++ lit ":" ++ sha256Hex secret) v with
              | Returned (Some exp) v1 =>
                  if exp =? 0 then Returned false v1
                  else if clock v1 <? exp
                       then Returned true
                              (withTokens
                                 (delete (id ++ lit ":" ++ sha256Hex secret))
                                 v1)
                       else Returned false v1
              | Returned None v1 => Returned false v1
              | Thrown e v1 => Thrown e v1
              end).
  { intros v. unfold parseToken in Hparse. unfold validateToken.
    destruct token as [| |b|n|str|items]; try discriminate Hparse.
    destruct (negb (truthy (VString str))); [discriminate Hparse|].
    destruct (split 58 str) as [|a [|b [|x rest]]]; try discriminate Hparse.
    destruct (negb (truthy (VString a)) || negb (truthy (VString b)));
      [discriminate Hparse|].
    assert (Ha : a = id) by congruence. assert (Hb : b = secret) by congruence.
    subst a b.
    unfold bind, _getToken, _deleteToken, dateNow, ret.
    cbn [DurableObject.cap storage tokens TokenStorage.get
         TokenStorage.delete optField].
    destruct (DurableObject.readToken oneEmpty
                (id ++ lit ":" ++ sha256Hex secret) v) as [[exp|] v1|e v1];
      try reflexivity.
    cbn [truthy negb falsy int]. destruct (exp =? 0); cbn [negb]; [reflexivity|].
    destruct (clock v1 <? exp); reflexivity. }
  rewrite Hform in Hrun. unfold DurableObject.readToken in Hrun.
  destruct (tokensList w !! (id ++ lit ":" ++ sha256Hex secret))
    as [exp|] eqn:Hget.
  2: { unfold DurableObject.one in Hrun.
       destruct oneEmpty; discriminate Hrun. }
  destruct (Z.ltb_spec (clock w) exp) as [Hlive|Hpast].
  2: { unfold DurableObject.one in Hrun.
       destruct oneEmpty; discriminate Hrun. }
  cbn [DurableObject.one] in Hrun.
  destruct (exp =? 0); [discriminate Hrun|].
  destruct (Z.ltb_spec (clock w) exp) as [_|]; [|lia].
  assert (Hw' : withTokens (delete (id ++ lit ":" ++ sha256Hex secret)) w = w')
    by congruence.
  subst w'. exists id, secret, exp.
  split; [reflexivity|]. split; [exact Hget|]. split; [exact Hlive|].
  split; [reflexivity|].
  rewrite Hform. unfold DurableObject.readToken.
  cbn [tokensList withTokens]. rewrite lookup_delete_eq.
  unfold DurableObject.one. destruct oneEmpty; reflexivity.
Qed.

(** The token of the scenario through the object. *)
Lemma do_validate_once_witness :
  exists (id secret : jsstring) (exp : Z),
    parseToken Scenario.V = Some (id, secret)
    /\ tokensList Scenario.redeemed !! (id ++ lit ":" ++ sha256Hex secret)
       = Some exp
    /\ clock Scenario.redeemed < exp
    /\ tokensList
         (Scenario.world_of
            (DurableObject.validateToken None Scenario.V Scenario.redeemed))
       = delete (id ++ lit ":" ++ sha256Hex secret)
                (tokensList Scenario.redeemed)
    /\ DurableObject.validateToken None Scenario.V
         (Scenario.world_of
            (DurableObject.validateToken None Scenario.V Scenario.redeemed))
       = Returned false
           (Scenario.world_of
              (DurableObject.validateToken None Scenario.V Scenario.redeemed)).
Proof.
  apply (do_validate_once None Scenario.V Scenario.redeemed).
  apply returned. vm_compute. reflexivity.
Defined.

(** * The routes of the worker *)




Section RouteFailures.

Lemma do_redeem_unreadable_run (oneEmpty : option jsstring)
  (token : jsstring) (solutions : value) (w : World) :
  invalidBody token solutions = false ->
  match challengesList w !! token with
  | Some row => if clock w <? expires row then Some row else None
  | None => None
  end = None ->
  DurableObject.redeemChallenge oneEmpty
    {| token := token; solutions := solutions |} w
  = match oneEmpty with
    | None =>
        Returned (failed "Challenge invalid or expired")
                 (withChallenges (delete token) w)
    | Some e => Thrown e w
    end.
Proof.
  intros Hbody Hnone.
  unfold DurableObject.redeemChallenge, redeemChallenge. rewrite Hbody.
  unfold bind at 1. unfold _getChallenge.
  cbn [DurableObject.cap storage challenges ChallengeStorage.read].
  unfold DurableObject.readChallenge. rewrite Hnone.
  unfold DurableObject.one. destruct oneEmpty as [e|]; reflexivity.
Qed.

End RouteFailures.

(** X26.  What the redeem route answers when the engine refuses, for a
    request the middleware lets through.  A body with a token and a
    [solutions] value that is truthy but not an array of numbers gets
    status 200 with [Invalid body], and the world is as before.  A body
    that passes the guard for a token whose row is missing or no longer
    readable gets status 200 with [Challenge invalid or expired] when
    [.one()] yields [null] on no row, and status 500 with [Failed to
    redeem challenge] when it throws. *)
Theorem redeem_route_failures (oneEmpty : option jsstring)
  (env : Worker.Env) (token : jsstring) (solutions : value) (w : World) :
  Worker.rateLimit env = None ->
  (token <> [] -> truthy solutions = true ->
   invalidBody token solutions = true ->
   Worker.postRedeem oneEmpty env (Worker.Fields (Some token) solutions) w
   = Returned {| Worker.status := 200;
                 Worker.body := Worker.Answer (failed "Invalid body") |} w)
  /\ (invalidBody token solutions = false ->
      (challengesList w !! token = None
       \/ exists row : ChallengeData,
            challengesList w !! token = Some row /\ expires row <= clock w) ->
      Worker.postRedeem oneEmpty env (Worker.Fields (Some token) solutions) w
      = match oneEmpty with
        | None =>
            Returned
              {| Worker.status := 200;
                 Worker.body :=
                   Worker.Answer (failed "Challenge invalid or expired") |}
              (withChallenges (delete token) w)
        | Some _ =>
            Returned
              {| Worker.status := 500;
                 Worker.body :=
                   Worker.Failure (lit "Failed to redeem challenge") |}
              w
        end).
Proof.
  intros Hgate. unfold Worker.postRedeem. rewrite Hgate. split.
  - intros Htok Hsol Hbad.
    destruct token as [|ch token]; [contradiction|].
    cbn [truthy length Nat.eqb negb orb]. rewrite Hsol. cbn [negb].
    unfold Worker.catch, bind, DurableObject.redeemChallenge, redeemChallenge.
    rewrite Hbad. reflexivity.
  - intros Hbody Hrow.
    destruct (invalidBody_false token solutions Hbody)
      as [Htok [items [-> _]]].
    destruct token as [|ch token]; [contradiction|].
    cbn [truthy length Nat.eqb negb orb].
    unfold Worker.catch, bind.
    rewrite do_redeem_unreadable_run; [destruct oneEmpty; reflexivity
                                      |exact Hbody|].
    destruct Hrow as [->|[row [-> Hpast]]]; [reflexivity|].
    destruct (Z.ltb_spec (clock w) (expires row)); [lia|reflexivity].
Qed.

(** The token of the scenario, presented again after its redemption,
    with a runtime whose [.one()] throws on no row. *)
Lemma redeem_route_failures_witness :
  Worker.postRedeem (Some (lit "no rows")) Worker.admitted
    (Worker.Fields (Some Scenario.T) (VArray [VNumber (int 15); VNumber (int 7)]))
    Scenario.redeemed
  = Returned
      {| Worker.status := 500;
         Worker.body := Worker.Failure (lit "Failed to redeem challenge") |}
      Scenario.redeemed.
Proof.
  apply (proj2 (redeem_route_failures (Some (lit "no rows")) Worker.admitted
                  Scenario.T (VArray [VNumber (int 15); VNumber (int 7)])
                  Scenario.redeemed eq_refl)).
  - reflexivity.
  - left. vm_compute. reflexivity.
Defined.

(** * The puzzles of a challenge *)

Section Puzzles.

Lemma prng_alphabet (seed : jsstring) (len : Z) :
  forallb Spec.isHexChar (prng seed len) = true.
Proof.
  rewrite prng_is_derive. unfold Spec.derive.
  apply forallb_firstn, stream_alphabet.
Qed.

End Puzzles.

(** X27.  The puzzle list built at redemption has one entry for each
    index from 1 to the count (none for a count that is not positive).
    Entry [i] is made of the token and the decimal of [i] alone: its salt
    is [prng(token + i, s)], of [s] hex characters, and its target
    [prng(token + i + "d", d)], of [d] hex characters (none when the
    number is negative). *)
Theorem puzzles_shape (token : jsstring) (params : ChallengeParams) :
  length (challengesFrom token params (Z.to_nat (c params)) 0)
  = Z.to_nat (c params)
  /\ forall i : Z,
       1 <= i <= c params ->
       exists salt target : jsstring,
         challengesFrom token params (Z.to_nat (c params)) 0
           !! Z.to_nat (i - 1)
         = Some (salt, target)
         /\ salt = prng (token ++ toString i) (s params)
         /\ target = prng (token ++ toString i ++ lit "d") (d params)
         /\ length salt = Z.to_nat (s params)
         /\ length target = Z.to_nat (d params)
         /\ forallb Spec.isHexChar salt = true
         /\ forallb Spec.isHexChar target = true.
Proof.
  split.
  - generalize 0 as start. induction (Z.to_nat (c params)) as [|n IH];
      intros start; [reflexivity|].
    cbn [challengesFrom length]. now rewrite IH.
  - intros i Hi. eexists; eexists.
    rewrite challengesFrom_lookup.
    destruct (Nat.ltb_spec (Z.to_nat (i - 1)) (Z.to_nat (c params)));
      [|lia].
    replace (0 + Z.of_nat (Z.to_nat (i - 1)) + 1) with i by lia.
    unfold Spec.puzzle. split; [reflexivity|].
    split; [reflexivity|]. split; [reflexivity|].
    split; [apply prng_length|]. split; [apply prng_length|].
    split; apply prng_alphabet.
Qed.

(** The second puzzle of the scenario. *)
Lemma puzzles_shape_witness :
  exists salt target : jsstring,
    challengesFrom Scenario.T (challenge Scenario.stored) 2 0 !! 1%nat
    = Some (salt, target)
    /\ salt = prng (Scenario.T ++ toString 2) 4
    /\ target = prng (Scenario.T ++ toString 2 ++ lit "d") 1
    /\ length salt = 4%nat
    /\ length target = 1%nat
    /\ forallb Spec.isHexChar salt = true
    /\ forallb Spec.isHexChar target = true.
Proof.
  apply (proj2 (puzzles_shape Scenario.T (challenge Scenario.stored)) 2).
  cbn. lia.
Defined.

(** * Further instances *)

(** The scenario with a wrong second number: the causes of its answer. *)
Lemma redeem_outcomes_witness :
  exists (r : RedeemResponse) (w' : World),
    redeemChallenge memory
      {| token := Scenario.T; solutions := VArray [VNumber (int 15); VNumber (int 8)] |}
      Scenario.created
    = Returned r w'
    /\ (message r = Some (lit "Invalid body")
        <-> invalidBody Scenario.T (VArray [VNumber (int 15); VNumber (int 8)]) = true)
    /\ (message r = Some (lit "Challenge invalid or expired")
        <-> invalidBody Scenario.T (VArray [VNumber (int 15); VNumber (int 8)]) = false
            /\ (challengesList Scenario.created !! Scenario.T = None
                \/ exists challengeData : ChallengeData,
                     challengesList Scenario.created !! Scenario.T
                     = Some challengeData
                     /\ expires challengeData < clock Scenario.created))
    /\ (message r = Some (lit "Invalid solution")
        <-> invalidBody Scenario.T (VArray [VNumber (int 15); VNumber (int 8)]) = false
            /\ exists challengeData : ChallengeData,
                 challengesList Scenario.created !! Scenario.T
                 = Some challengeData
                 /\ clock Scenario.created <= expires challengeData
                 /\ ~ (forall i : Z,
                         1 <= i <= c (challenge challengeData) ->
                         Spec.solved Scenario.T (challenge challengeData)
                                     (VArray [VNumber (int 15); VNumber (int 8)]) i))
    /\ (message r = None <-> success r = true).
Proof.
  exact (redeem_outcomes Scenario.T (VArray [VNumber (int 15); VNumber (int 8)])
                         Scenario.created).
Defined.


